(** * The EventCenter reactor of the async messenger (msg/async/Event.h)
      and the thread pool of PosixNetworkStack (msg/async/PosixStack.h)

    A shallow embedding of the parts of the two headers that the
    specification talks about: the process-wide registry of centers,
    cross-center submission ([submit_to], [C_submit_event]), the timer
    indexes, the file-event table and the worker threads.

    Objects that the C++ code reaches through pointers live in stores
    indexed by address; address 0 is the null pointer.  A failed
    [ceph_assert] and an access outside an object are distinct outcomes of
    the [result] type. *)

From Stdlib Require Import ZArith Lia List Bool Sorted.
From stdpp Require Import base option list gmap.

Local Open Scope Z_scope.

(** ** Outcomes *)

Inductive result (A : Type) : Type :=
| Ok (a : A)            (* the call ran to the point described by [a] *)
| AssertFailed          (* a ceph_assert did not hold: the process aborts *)
| Undefined.            (* read outside an array or through a dangling pointer *)

Arguments Ok {A} a.
Arguments AssertFailed {A}.
Arguments Undefined {A}.

Definition rbind {A B : Type} (m : result A) (k : A -> result B) : result B :=
  match m with
  | Ok a => k a
  | AssertFailed => AssertFailed
  | Undefined => Undefined
  end.

Definition ceph_assert (b : bool) : result unit :=
  if b then Ok tt else AssertFailed.

(** Dereference of a pointer into a store. *)
Definition deref {V : Type} (m : gmap nat V) (p : nat) : result V :=
  match m !! p with
  | Some v => Ok v
  | None => Undefined
  end.

(** Stateful code runs in a state monad over the world [W] whose outcomes
    are: the call returned, the calling thread is suspended inside a blocking
    call (with the world it left behind), an assertion failed, or the
    behaviour is undefined. *)
Inductive outcome (W A : Type) : Type :=
| Returns (a : A) (w : W)
| Blocks (w : W)
| Asserts
| Undef.

Arguments Returns {W A} a w.
Arguments Blocks {W A} w.
Arguments Asserts {W A}.
Arguments Undef {W A}.

Definition M (W A : Type) : Type := W -> outcome W A.

Definition ret {W A : Type} (a : A) : M W A := fun w => Returns a w.

Definition bind {W A B : Type} (m : M W A) (k : A -> M W B) : M W B :=
  fun w =>
    match m w with
    | Returns a w' => k a w'
    | Blocks w' => Blocks w'
    | Asserts => Asserts
    | Undef => Undef
    end.

Definition lift {W A : Type} (r : result A) : M W A :=
  fun w =>
    match r with
    | Ok a => Returns a w
    | AssertFailed => Asserts
    | Undefined => Undef
    end.

Definition get {W : Type} : M W W := fun w => Returns w w.
Definition put {W : Type} (w : W) : M W unit := fun _ => Returns tt w.
Definition block {W A : Type} : M W A := fun w => Blocks w.

Notation "'do' x <- m ; k" := (bind m (fun x => k))
  (at level 10, x name, m at level 100, k at level 200).
Notation "'do_' m ; k" := (bind m (fun _ => k))
  (at level 10, m at level 100, k at level 200).

(** ** Event.h: constants and plain records *)

Definition EVENT_NONE : Z := 0.
Definition EVENT_READABLE : Z := 1.
Definition EVENT_WRITABLE : Z := 2.

(** [static const int MAX_EVENTCENTER = 24]. *)
Definition MAX_EVENTCENTER : Z := 24.

Abbreviation pthread_t := Z.
Abbreviation time_point := Z.

(** [typedef EventCallback* EventCallbackRef]; [NULL] is address 0. *)
Abbreviation EventCallbackRef := nat.
Definition NULL : nat := 0%nat.

Record FileEvent := mkFileEvent {
  mask : Z;
  read_cb : EventCallbackRef;
  write_cb : EventCallbackRef
}.

(** [FileEvent(): mask(0), read_cb(NULL), write_cb(NULL)]. *)
Definition FileEvent_ctor : FileEvent := mkFileEvent 0 NULL NULL.

Record TimeEvent := mkTimeEvent {
  id : Z;
  time_cb : EventCallbackRef
}.

(** A position in [time_events].  A multimap iterator stays valid until
    its own node is erased; the node is designated by its key and by the
    id of the TimeEvent it holds. *)
Record iterator := mkIterator {
  it_key : time_point;
  it_id : Z
}.

(** The data members of [class EventCenter].  [cct], [type], [driver],
    [pollers] and [net] belong to collaborators and are left out. *)
Record EventCenter := mkEventCenter {
  nevent : Z;
  owner : pthread_t;
  external_num_events : Z;
  external_events : list EventCallbackRef;
  file_events : list FileEvent;
  time_events : list (time_point * TimeEvent);
  event_map : gmap Z iterator;
  time_event_next_id : Z;
  notify_receive_fd : Z;
  notify_send_fd : Z;
  notify_handler : EventCallbackRef;
  center_id : Z;
  global_centers : nat
}.

(** The constructor [EventCenter(CephContext *c)] with the default member
    initialisers ([owner = 0], [global_centers = nullptr]). *)
Definition EventCenter_ctor : EventCenter :=
  {| nevent := 0; owner := 0; external_num_events := 0;
     external_events := []; file_events := []; time_events := [];
     event_map := ∅; time_event_next_id := 1;
     notify_receive_fd := -1; notify_send_fd := -1;
     notify_handler := NULL; center_id := 0; global_centers := NULL |}.

Definition set_external (q : list EventCallbackRef) (n : Z) (c : EventCenter)
  : EventCenter :=
  {| nevent := nevent c; owner := owner c; external_num_events := n;
     external_events := q; file_events := file_events c;
     time_events := time_events c; event_map := event_map c;
     time_event_next_id := time_event_next_id c;
     notify_receive_fd := notify_receive_fd c;
     notify_send_fd := notify_send_fd c;
     notify_handler := notify_handler c; center_id := center_id c;
     global_centers := global_centers c |}.

Definition set_timers (t : list (time_point * TimeEvent)) (m : gmap Z iterator)
    (next : Z) (c : EventCenter) : EventCenter :=
  {| nevent := nevent c; owner := owner c;
     external_num_events := external_num_events c;
     external_events := external_events c; file_events := file_events c;
     time_events := t; event_map := m;
     time_event_next_id := next;
     notify_receive_fd := notify_receive_fd c;
     notify_send_fd := notify_send_fd c;
     notify_handler := notify_handler c; center_id := center_id c;
     global_centers := global_centers c |}.

(** ** The registry *)

(** [struct AssociatedCenters { EventCenter *centers[MAX_EVENTCENTER]; }]:
    the array has its size in its type. *)
Record AssociatedCenters := mkAssociatedCenters {
  centers : list nat;
  centers_size : Z.of_nat (length centers) = MAX_EVENTCENTER
}.

(** The constructor: [memset(centers, 0, MAX_EVENTCENTER * sizeof(EventCenter* ))]. *)
Definition AssociatedCenters_ctor : AssociatedCenters :=
  mkAssociatedCenters (replicate (Z.to_nat MAX_EVENTCENTER) NULL) eq_refl.

(** [centers[i]] for an [int i]: outside the array the read is undefined. *)
Definition centers_at (ac : AssociatedCenters) (i : Z) : result nat :=
  if i <? 0 then Undefined
  else match centers ac !! Z.to_nat i with
       | Some p => Ok p
       | None => Undefined
       end.

(** Number of registered (non-null) entries. *)
Definition registered (ac : AssociatedCenters) : nat :=
  length (filter (fun p => p <> NULL) (centers ac)).

(** ** Cross-center submission *)

Section Submit.

Context {U : Type}.

(** The submitted callable: it acts on the state it shares with its
    submitter. *)
Definition func : Type := U -> U.

(** The data members of [C_submit_event<func>].  [lock] holds the thread
    that owns the std::mutex, if any; [cond] keeps no state of its own: a
    thread suspended in [cond.wait] re-tests [done] whenever it runs. *)
Record C_submit_event := mkC_submit_event {
  lock : option pthread_t;
  done : bool;
  f : func;
  nonwait : bool
}.

(** [C_submit_event(func &&_f, bool nowait) : f(std::move(_f)), nonwait(nowait)],
    with [done = false]. *)
Definition C_submit_event_ctor (_f : func) (nowait : bool) : C_submit_event :=
  {| lock := None; done := false; f := _f; nonwait := nowait |}.

Record World := mkWorld {
  ecs : gmap nat EventCenter;        (* the live EventCenter objects *)
  acs : gmap nat AssociatedCenters;  (* the live registries *)
  evs : gmap nat C_submit_event;     (* the live C_submit_event objects *)
  pipes : gmap Z nat;                (* bytes written to a descriptor and not yet read *)
  shared : U                         (* what the submitted callables act on *)
}.

Definition set_ecs (m : gmap nat EventCenter) (w : World) : World :=
  mkWorld m (acs w) (evs w) (pipes w) (shared w).
Definition set_evs (m : gmap nat C_submit_event) (w : World) : World :=
  mkWorld (ecs w) (acs w) m (pipes w) (shared w).
Definition set_pipes (m : gmap Z nat) (w : World) : World :=
  mkWorld (ecs w) (acs w) (evs w) m (shared w).
Definition set_shared (u : U) (w : World) : World :=
  mkWorld (ecs w) (acs w) (evs w) (pipes w) u.

Definition load_center (p : nat) : M World EventCenter :=
  do w <- get; lift (deref (ecs w) p).
Definition load_registry (p : nat) : M World AssociatedCenters :=
  do w <- get; lift (deref (acs w) p).
Definition load_event (p : nat) : M World C_submit_event :=
  do w <- get; lift (deref (evs w) p).
Definition store_event (p : nat) (e : C_submit_event) : M World unit :=
  do w <- get; put (set_evs (<[p := e]> (evs w)) w).

(** An address that no live object of the store has, and that is not null. *)
Definition fresh_addr {V : Type} (m : gmap nat V) : nat :=
  S (max_list (elements (dom m))).

(** Storage for a new C_submit_event, on the heap ([new]) or in the frame of
    the caller, initialised by the constructor. *)
Definition new_C_submit_event (_f : func) (nowait : bool) : M World nat :=
  do w <- get;
  let p := fresh_addr (evs w) in
  do_ put (set_evs (<[p := C_submit_event_ctor _f nowait]> (evs w)) w);
  ret p.

(** End of the lifetime of the object at [p] ([delete], or leaving the
    scope of an automatic object). *)
Definition destroy (p : nat) : M World unit :=
  do w <- get; put (set_evs (delete p (evs w)) w).

(** Invoking a callable. *)
Definition call (g : func) : M World unit :=
  do w <- get; put (set_shared (g (shared w)) w).

(** [std::mutex::lock] on the mutex of the event at [p], by thread [self]:
    it suspends the caller while another thread owns the mutex; locking a
    mutex one already owns is undefined. *)
Definition mutex_lock (p : nat) (self : pthread_t) : M World unit :=
  do e <- load_event p;
  match lock e with
  | None => store_event p (mkC_submit_event (Some self) (done e) (f e) (nonwait e))
  | Some t => if t =? self then lift Undefined else block
  end.

(** [std::mutex::unlock]. *)
Definition mutex_unlock (p : nat) : M World unit :=
  do e <- load_event p;
  store_event p (mkC_submit_event None (done e) (f e) (nonwait e)).

(** [done = true]. *)
Definition set_done (p : nat) : M World unit :=
  do e <- load_event p;
  store_event p (mkC_submit_event (lock e) true (f e) (nonwait e)).

(** [write(fd, "c", 1)] on the write end of a pipe. *)
Definition pipe_write (fd : Z) : M World unit :=
  do w <- get;
  put (set_pipes (<[fd := S (default 0%nat (pipes w !! fd))]> (pipes w)) w).

(** [pthread_equal(pthread_self(), owner)], with [self] the calling thread. *)
Definition in_thread (self : pthread_t) (c : EventCenter) : bool :=
  self =? owner c.

(** Modelled from the spec: the body of [EventCenter::dispatch_event_external]
    (msg/async/Event.cc) is not part of the sources; Event.h only declares it.
    Section 4.2: it is callable from any thread, appends the callback to the
    external queue under the queue mutex and writes one byte to the
    self-pipe; section 3: the queue is paired with a pending counter that
    only grows here (the [std::atomic_ulong external_num_events] of Event.h).
    [c] is the address of the target center. *)
Definition dispatch_event_external (c : nat) (e : EventCallbackRef) : M World unit :=
  do tc <- load_center c;
  do w <- get;
  do_ put (set_ecs (<[c := set_external (external_events tc ++ [e])
                                         ((external_num_events tc + 1) mod 2 ^ 64) tc]>
                      (ecs w)) w);
  pipe_write (notify_send_fd tc).

(** [C_submit_event::do_request], statement by statement: [this] is the
    address of the event, [self] the thread that runs the callback. *)

(** [f();] *)
Definition do_request_call (this : nat) : M World unit :=
  do e <- load_event this; call (f e).

(** [cond.notify_all(); done = true; bool del = nonwait;], under the mutex. *)
Definition do_request_signal (this : nat) : M World bool :=
  do_ set_done this;
  do e <- load_event this;
  ret (nonwait e).

(** [if (del) delete this;] *)
Definition do_request_release (this : nat) (del : bool) : M World unit :=
  if del then destroy this else ret tt.

Definition do_request (this : nat) (self : pthread_t) (fd_or_id : Z) : M World unit :=
  do_ do_request_call this;
  do_ mutex_lock this self;
  do del <- do_request_signal this;
  do_ mutex_unlock this;
  do_request_release this del.

(** [C_submit_event::wait], up to the first time the caller is suspended:
    [cond.wait(l)] releases the mutex and suspends the caller. *)
Definition wait (this : nat) (self : pthread_t) : M World unit :=
  do e <- load_event this;
  do_ lift (ceph_assert (negb (nonwait e)));
  do_ mutex_lock this self;
  do e' <- load_event this;
  if done e' then mutex_unlock this
  else (do_ mutex_unlock this; block).

(** The first three statements of [EventCenter::submit_to]: both assertions
    and the read of [global_centers->centers[i]]; the result is [c]. *)
Definition submit_target (this : nat) (i : Z) : M World nat :=
  do me <- load_center this;
  do_ lift (ceph_assert ((i <? MAX_EVENTCENTER) && negb (global_centers me =? NULL)%nat));
  do ac <- load_registry (global_centers me);
  do c <- lift (centers_at ac i);
  do_ lift (ceph_assert (negb (c =? NULL)%nat));
  ret c.

(** [EventCenter::submit_to], called on the center at address [this] by
    thread [self]. *)
Definition submit_to (this : nat) (self : pthread_t)
    (i : Z) (fn : func) (always_async : bool) : M World unit :=
  do c <- submit_target this i;
  if always_async then
    do event <- new_C_submit_event fn true;
    dispatch_event_external c event
  else
    do tc <- load_center c;
    if in_thread self tc then
      call fn
    else
      do event <- new_C_submit_event fn false;
      do_ dispatch_event_external c event;
      do_ wait event self;
      destroy event.

(** What the lookups of [submit_to] need in order to find the center [c]
    for index [i], starting from the center at [this]. *)
Definition registered_at (w : World) (this : nat) (i : Z) (c : nat) : Prop :=
  exists me ac,
    ecs w !! this = Some me /\
    global_centers me <> NULL /\
    acs w !! global_centers me = Some ac /\
    0 <= i < MAX_EVENTCENTER /\
    centers ac !! Z.to_nat i = Some c /\
    c <> NULL.

(** The world after [dispatch_event_external]. *)
Definition dispatched (c : nat) (tc : EventCenter) (e : EventCallbackRef) (w : World) : World :=
  set_pipes (<[notify_send_fd tc := S (default 0%nat (pipes w !! notify_send_fd tc))]> (pipes w))
    (set_ecs (<[c := set_external (external_events tc ++ [e])
                                   ((external_num_events tc + 1) mod 2 ^ 64) tc]> (ecs w)) w).

(** The reading of "invoked synchronously in place": the call returns, the
    callable has acted on the shared state, and neither a center (hence no
    external queue) nor a pipe has changed. *)
Definition runs_in_place (this : nat) (self : pthread_t) (i : Z) (fn : func)
    (always_async : bool) (w : World) : Prop :=
  exists w', submit_to this self i fn always_async w = Returns tt w' /\
    shared w' = fn (shared w) /\ ecs w' = ecs w /\ pipes w' = pipes w.

End Submit.

Arguments C_submit_event U : clear implicits.
Arguments World U : clear implicits.

(** ** The file-event table *)

(** A [FileEvent*] into [file_events] is the index of the entry. *)
Definition FileEventPtr := Z.

(** [EventCenter::_get_file_event]: [ceph_assert(fd < nevent); return &file_events[fd];].
    The method reads [nevent] and takes an address; it changes no member. *)
Definition _get_file_event (c : EventCenter) (fd : Z) : result FileEventPtr :=
  rbind (ceph_assert (fd <? nevent c)) (fun _ => Ok fd).

(** Reading through a [FileEvent*]: defined inside the vector only. *)
Definition load_file_event (c : EventCenter) (p : FileEventPtr) : result FileEvent :=
  if p <? 0 then Undefined
  else match file_events c !! Z.to_nat p with
       | Some e => Ok e
       | None => Undefined
       end.

(** ** Timers *)

Module Timer.

(** [std::multimap::insert]: after the entries whose key is not greater. *)
Fixpoint multimap_insert (d : time_point) (e : TimeEvent)
    (l : list (time_point * TimeEvent)) : list (time_point * TimeEvent) :=
  match l with
  | [] => [(d, e)]
  | (d', e') :: r =>
      if d' <=? d then (d', e') :: multimap_insert d e r else (d, e) :: l
  end.

(** [std::multimap::erase(iterator)]: the node the iterator designates. *)
Fixpoint multimap_erase (it : iterator)
    (l : list (time_point * TimeEvent)) : list (time_point * TimeEvent) :=
  match l with
  | [] => []
  | (d, e) :: r =>
      if (d =? it_key it) && (id e =? it_id it) then r
      else (d, e) :: multimap_erase it r
  end.

(** Modelled from the spec: the body of [EventCenter::create_time_event]
    (msg/async/Event.cc) is not part of the sources.  Section 4.2: it
    inserts at [now + delay] keyed by absolute deadline and returns a fresh
    64-bit id; the id comes from the [uint64_t time_event_next_id] member
    that Event.h declares. *)
Definition create_time_event (now : time_point) (delay : Z) (ctxt : EventCallbackRef)
    (c : EventCenter) : Z * EventCenter :=
  let i := time_event_next_id c in
  let expire := now + delay in
  (i, set_timers (multimap_insert expire (mkTimeEvent i ctxt) (time_events c))
                 (<[i := mkIterator expire i]> (event_map c))
                 ((i + 1) mod 2 ^ 64) c).

(** Modelled from the spec: the body of [EventCenter::delete_time_event]
    (msg/async/Event.cc) is not part of the sources.  Section 4.2: it
    removes the entry if present; an unknown or already fired id is a no-op,
    not an error.  The entry is found through [event_map], the id to
    position index of Event.h, and leaves both collections. *)
Definition delete_time_event (i : Z) (c : EventCenter) : EventCenter :=
  match event_map c !! i with
  | None => c
  | Some it =>
      set_timers (multimap_erase it (time_events c)) (delete i (event_map c))
                 (time_event_next_id c) c
  end.

(** One callback invocation of [process_time_events], as the walk records
    it: the fired entry, the center at the start of the iteration and the
    center the callback was invoked on. *)
Record firing := mkFiring {
  deadline : time_point;
  fired : TimeEvent;
  before : EventCenter;
  seen : EventCenter
}.

Section Walk.

(** [EventCallback::do_request] is pure virtual; [run cb id c] is what the
    callback at [cb] does to its center when invoked with [id].  It runs on
    the owning thread and may create and delete timers. *)
Variable run : EventCallbackRef -> Z -> EventCenter -> EventCenter.

(** Modelled from the spec: the body of [EventCenter::process_time_events]
    (msg/async/Event.cc) is not part of the sources.  Section 4.2, step 4:
    walk the deadline-ordered collection from the earliest entry while
    deadline <= now; remove each entry from both indexes before invoking its
    callback; stop at the first future deadline.  The result is the number
    of callbacks invoked (step 6).  [fuel] bounds the number of iterations;
    the list of firings is a record of the walk, not data of the program. *)
Fixpoint process_time_events_loop (fuel : nat) (now : time_point)
    (c : EventCenter) (processed : Z) (log : list firing)
  : option (Z * list firing * EventCenter) :=
  match fuel with
  | O => None
  | S fuel' =>
      match time_events c with
      | [] => Some (processed, log, c)
      | (d, e) :: rest =>
          if d <=? now then
            let c1 := set_timers rest (delete (id e) (event_map c))
                                 (time_event_next_id c) c in
            let c2 := run (time_cb e) (id e) c1 in
            process_time_events_loop fuel' now c2 (processed + 1)
              (log ++ [mkFiring d e c c1])
          else Some (processed, log, c)
      end
  end.

Definition process_time_events (fuel : nat) (now : time_point) (c : EventCenter)
  : option (Z * list firing * EventCenter) :=
  process_time_events_loop fuel now c 0 [].

End Walk.

(** Number of entries that are due at [now]. *)
Definition expired (now : time_point) (c : EventCenter) : nat :=
  length (filter (fun p => p.1 <= now) (time_events c)).

(** What the walk must leave behind: no timer, or an earliest timer that is
    not due yet. *)
Definition stops_at_future (now : time_point) (c : EventCenter) : Prop :=
  match time_events c with
  | [] => True
  | (d, _) :: _ => now < d
  end.

(** The ids stored in the deadline-ordered collection. *)
Definition timer_ids (c : EventCenter) : list Z :=
  map (fun p => id p.2) (time_events c).

(** The order a multimap keeps its entries in. *)
Definition deadline_ordered (l : list (time_point * TimeEvent)) : Prop :=
  StronglySorted (fun a b => a.1 <= b.1) l.

(** What the specification asks of one firing: the entry was due and was
    the first of the collection (the earliest, the collection being
    ordered); the callback was invoked on a center that had the entry in
    neither index, so that it could neither find nor cancel it. *)
Definition removed_before_invoked (now : time_point) (x : firing) : Prop :=
  deadline x <= now /\
  time_events (before x) = (deadline x, fired x) :: time_events (seen x) /\
  (deadline_ordered (time_events (before x)) ->
   Forall (fun p => deadline x <= p.1) (time_events (seen x))) /\
  event_map (seen x) = delete (id (fired x)) (event_map (before x)) /\
  event_map (seen x) !! id (fired x) = None /\
  delete_time_event (id (fired x)) (seen x) = seen x /\
  (NoDup (timer_ids (before x)) -> id (fired x) ∉ timer_ids (seen x)).

(** The walk as a chain of invocations: every firing starts from the
    center that the callback before it returned (the first one from the
    center the walk was called on), its callback is invoked on [seen], and
    the walk ends with the center that the last callback returned. *)
Fixpoint chained (run : EventCallbackRef -> Z -> EventCenter -> EventCenter)
    (c : EventCenter) (tr : list firing) (c' : EventCenter) : Prop :=
  match tr with
  | [] => c' = c
  | x :: tr' =>
      before x = c /\
      chained run (run (time_cb (fired x)) (id (fired x)) (seen x)) tr' c'
  end.

End Timer.

(** ** PosixStack.h: the worker threads *)

Module PosixNetworkStack.

Section Pool.

(** The type of the entry functions, [std::function<void ()>]. *)
Context {E : Type}.

(** A [std::thread] object together with the thread of execution it
    stands for: the function the thread executes, whether the object is
    joinable, and whether the thread of execution has finished. *)
Record thread := mkThread {
  entry : E;
  joinable : bool;
  exited : bool
}.

(** [std::vector<std::thread> threads] is a [list thread]. *)

(** [std::thread(func)]: a new thread of execution that starts to run
    [func]; the object is joinable. *)
Definition thread_ctor (func : E) : thread := mkThread func true false.

(** The thread of execution of [threads[i]] leaves its entry function. *)
Definition thread_exit (i : nat) (ts : list thread) : list thread :=
  match ts !! i with
  | Some t => <[i := mkThread (entry t) (joinable t) true]> ts
  | None => ts
  end.

(** [std::thread::join]: suspends the caller until the thread of execution
    has finished; afterwards the object is not joinable.  On an object that
    is not joinable it throws [std::system_error]. *)
Definition thread_join (i : nat) : M (list thread) unit :=
  do ts <- get;
  match ts !! i with
  | None => lift Undefined
  | Some t =>
      if negb (joinable t) then lift Undefined
      else if exited t then put (<[i := mkThread (entry t) false true]> ts)
      else block
  end.

(** [threads.emplace_back(std::move(func))]. *)
Definition spawn_worker (func : E) : M (list thread) unit :=
  do ts <- get; put (ts ++ [thread_ctor func]).

(** [ceph_assert(threads.size() > i && threads[i].joinable()); threads[i].join();] *)
Definition join_worker (i : nat) : M (list thread) unit :=
  do ts <- get;
  do_ lift (ceph_assert ((i <? length ts)%nat &&
                         match ts !! i with Some t => joinable t | None => false end));
  thread_join i.

End Pool.

Arguments thread E : clear implicits.

Abbreviation pool E := (list (thread E)).

End PosixNetworkStack.

(** ** A synchronous submission and the thread that serves it *)

Module Rendezvous.

Section Threads.

Context {U : Type}.

(** The call [submit_to(i, fn)] on the center at [this], made by thread
    [self]; [c] is the center that thread [worker] drives. *)
Variables (this : nat) (self : pthread_t) (i : Z) (fn : @func U).
Variables (c : nat) (worker : pthread_t).

(** Where the submitting thread is in [submit_to(i, fn, false)] and in the
    [wait] it calls. *)
Inductive caller_pc : Type :=
| C_submit                      (* at the call *)
| C_dispatch (t e : nat)        (* at t->dispatch_event_external(&event) *)
| C_wait (e : nat)              (* at event.wait(): the assertion *)
| C_lock (e : nat)              (* acquiring the mutex: unique_lock, or back from cond.wait *)
| C_test (e : nat)              (* mutex held: while (!done) *)
| C_sleep (e : nat)             (* suspended in cond.wait, mutex released *)
| C_unlock (e : nat)            (* leaving wait: the unique_lock releases the mutex *)
| C_destroy (e : nat)           (* leaving submit_to: event goes out of scope *)
| C_inline                      (* returned after calling fn in place *)
| C_returned.                   (* returned after the rendezvous *)

(** One atomic action of the submitting thread.  A woken [cond.wait] needs
    no notification (spurious wake-ups are allowed). *)
Definition caller_step (pc : caller_pc) : M (World U) caller_pc :=
  match pc with
  | C_submit =>
      do t <- submit_target this i;
      do tc <- load_center t;
      if in_thread self tc then (do_ call fn; ret C_inline)
      else (do e <- new_C_submit_event fn false; ret (C_dispatch t e))
  | C_dispatch t e => do_ dispatch_event_external t e; ret (C_wait e)
  | C_wait e =>
      do ev <- load_event e;
      do_ lift (ceph_assert (negb (nonwait ev)));
      ret (C_lock e)
  | C_lock e => do_ mutex_lock e self; ret (C_test e)
  | C_test e =>
      do ev <- load_event e;
      if done ev then ret (C_unlock e)
      else (do_ mutex_unlock e; ret (C_sleep e))
  | C_sleep e => ret (C_lock e)
  | C_unlock e => do_ mutex_unlock e; ret (C_destroy e)
  | C_destroy e => do_ destroy e; ret C_returned
  | C_inline => block
  | C_returned => block
  end.

(** Modelled from the spec: the body of [EventCenter::process_events]
    (msg/async/Event.cc) is not part of the sources.  Section 4.2, step 5:
    the external queue is swapped with an empty one under the mutex, and the
    swapped-out callbacks are then invoked in FIFO order outside the lock. *)
Definition take_external_events : M (World U) (list EventCallbackRef) :=
  do tc <- load_center c;
  do w <- get;
  do_ put (set_ecs (<[c := set_external [] (external_num_events tc) tc]> (ecs w)) w);
  ret (external_events tc).

(** Where the worker thread is: between ticks, or inside the [do_request]
    of the callback it took from the queue. *)
Inductive target_pc : Type :=
| T_poll                                        (* at the swap of the queue *)
| T_events (q : list EventCallbackRef)          (* at the next callback of the batch *)
| T_lock (e : nat) (q : list EventCallbackRef)  (* f() returned; at lock.lock() *)
| T_signal (e : nat) (q : list EventCallbackRef)
| T_unlock (e : nat) (q : list EventCallbackRef) (del : bool)
| T_release (e : nat) (q : list EventCallbackRef) (del : bool).

(** One atomic action of the worker thread. *)
Definition target_step (pc : target_pc) : M (World U) target_pc :=
  match pc with
  | T_poll => do q <- take_external_events; ret (T_events q)
  | T_events [] => ret T_poll
  | T_events (e :: q) => do_ do_request_call e; ret (T_lock e q)
  | T_lock e q => do_ mutex_lock e worker; ret (T_signal e q)
  | T_signal e q => do del <- do_request_signal e; ret (T_unlock e q del)
  | T_unlock e q del => do_ mutex_unlock e; ret (T_release e q del)
  | T_release e q del => do_ do_request_release e del; ret (T_events q)
  end.

(** [n] consecutive actions of one thread, the other being idle. *)
Fixpoint caller_run (n : nat) (pc : caller_pc) : M (World U) caller_pc :=
  match n with
  | O => ret pc
  | S n' => do pc' <- caller_step pc; caller_run n' pc'
  end.

Fixpoint target_run (n : nat) (pc : target_pc) : M (World U) target_pc :=
  match n with
  | O => ret pc
  | S n' => do pc' <- target_step pc; target_run n' pc'
  end.

Record sys : Type := mkSys {
  world : World U;
  cpc : caller_pc;
  tpc : target_pc
}.

(** Interleaving: one enabled action of either thread at a time.  A thread
    whose action blocks, fails or is undefined takes no step. *)
Inductive step : sys -> sys -> Prop :=
| step_caller s pc w :
    caller_step (cpc s) (world s) = Returns pc w ->
    step s (mkSys w pc (tpc s))
| step_target s pc w :
    target_step (tpc s) (world s) = Returns pc w ->
    step s (mkSys w (cpc s) pc).

(** What an observer of a run records: the caller has built its wrapper
    at [e]; the worker has made the call [f()] of [do_request] on the
    wrapper at [e], which held the callable [g], and the action has taken
    the shared state from [u] to [u']. *)
Inductive label : Type :=
| Built (e : nat)
| Called (e : nat) (g : @func U) (u u' : U).

Definition caller_label (pc pc' : caller_pc) : list label :=
  match pc, pc' with
  | C_submit, C_dispatch _ e => [Built e]
  | _, _ => []
  end.

(** The record of the action that the worker took at [pc], from the world
    [w] to the world [w']. *)
Definition target_label (pc : target_pc) (w w' : World U) : list label :=
  match pc with
  | T_events (e :: _) =>
      match evs w !! e with
      | Some ev => [Called e (f ev) (shared w) (shared w')]
      | None => []
      end
  | _ => []
  end.

(** The runs of [step], with what the observer has recorded. *)
Inductive run : sys -> list label -> sys -> Prop :=
| run_refl s : run s [] s
| run_caller s tr s1 pc w :
    run s tr s1 ->
    caller_step (cpc s1) (world s1) = Returns pc w ->
    run s (tr ++ caller_label (cpc s1) pc) (mkSys w pc (tpc s1))
| run_target s tr s1 pc w :
    run s tr s1 ->
    target_step (tpc s1) (world s1) = Returns pc w ->
    run s (tr ++ target_label (tpc s1) (world s1) w) (mkSys w (cpc s1) pc).

(** The executable form of [run]: [true] schedules the submitting thread,
    [false] the worker. *)
Definition sched_step (who : bool) (s : sys) : option (list label * sys) :=
  if who then
    match caller_step (cpc s) (world s) with
    | Returns pc w => Some (caller_label (cpc s) pc, mkSys w pc (tpc s))
    | _ => None
    end
  else
    match target_step (tpc s) (world s) with
    | Returns pc w => Some (target_label (tpc s) (world s) w, mkSys w (cpc s) pc)
    | _ => None
    end.

Fixpoint run_schedule (sch : list bool) (tr : list label) (s : sys)
  : option (list label * sys) :=
  match sch with
  | [] => Some (tr, s)
  | who :: sch' =>
      match sched_step who s with
      | Some (l, s') => run_schedule sch' (tr ++ l) s'
      | None => None
      end
  end.

(** The states in which the call is made: the lookups of [submit_to]
    succeed and find [c], the caller is not the thread that owns [c], the
    worker is the owner and is between ticks, and nothing is queued on [c]. *)
Definition initial (w : World U) (s : sys) : Prop :=
  s = mkSys w C_submit T_poll /\
  registered_at w this i c /\
  exists tc, ecs w !! c = Some tc /\
    in_thread self tc = false /\ owner tc = worker /\
    external_events tc = [].

(** *** The invariant of the rendezvous *)

(** The wrapper at [e] holds [fn] and has not been signalled. *)
Definition pending (e : nat) (w : World U) : Prop :=
  exists ev, evs w !! e = Some ev /\ f ev = fn /\ done ev = false.

(** The external queue of the target center. *)
Definition queue (w : World U) (q : list EventCallbackRef) : Prop :=
  exists tc, ecs w !! c = Some tc /\ external_events tc = q.

(** The caller is inside [wait] and has not seen [done]. *)
Definition waiting (pc : caller_pc) (e : nat) : Prop :=
  pc = C_wait e \/ pc = C_lock e \/ pc = C_test e \/ pc = C_sleep e.

(** The caller is past the dispatch. *)
Definition dispatched_pc (pc : caller_pc) : Prop :=
  match pc with
  | C_submit | C_dispatch _ _ | C_inline => False
  | _ => True
  end.

(** The worker has no callback in hand. *)
Definition idle (pc : target_pc) : Prop := pc = T_poll \/ pc = T_events [].

(** The worker is done with the wrapper. *)
Definition served (pc : target_pc) : Prop :=
  idle pc \/ exists e del, pc = T_unlock e [] del \/ pc = T_release e [] del.

(** What the actions on a mutex or a flag leave alone. *)
Definition frame (w w' : World U) : Prop :=
  ecs w' = ecs w /\ shared w' = shared w /\
  forall e, pending e w -> pending e w'.

(** The stages of a rendezvous that starts in the world [w0]: the call has
    not built its wrapper; the wrapper is built; it is queued; the worker
    has taken it; the worker has run [fn]; the worker has set [done]. *)
Inductive stage (w0 : World U) (s : sys) : Prop :=
| stage_call :
    cpc s = C_submit -> world s = w0 -> idle (tpc s) -> stage w0 s
| stage_built e :
    cpc s = C_dispatch c e -> queue (world s) [] -> idle (tpc s) ->
    shared (world s) = shared w0 -> pending e (world s) -> stage w0 s
| stage_queued e :
    waiting (cpc s) e -> queue (world s) [e] -> idle (tpc s) ->
    shared (world s) = shared w0 -> pending e (world s) -> stage w0 s
| stage_taken e :
    waiting (cpc s) e -> queue (world s) [] -> tpc s = T_events [e] ->
    shared (world s) = shared w0 -> pending e (world s) -> stage w0 s
| stage_ran e :
    waiting (cpc s) e -> queue (world s) [] ->
    tpc s = T_lock e [] \/ tpc s = T_signal e [] ->
    shared (world s) = fn (shared w0) -> pending e (world s) -> stage w0 s
| stage_signalled :
    dispatched_pc (cpc s) -> queue (world s) [] -> served (tpc s) ->
    shared (world s) = fn (shared w0) -> stage w0 s.

(** *** The invariant of a rendezvous among other callbacks *)

(** The wrapper that the worker still reads or writes: it is inside the
    [do_request] of the wrapper, past [f()], and has not released the mutex,
    or it is about to delete the wrapper. *)
Definition uses (pc : target_pc) (e : nat) : Prop :=
  match pc with
  | T_lock e' _ | T_signal e' _ | T_unlock e' _ _ => e' = e
  | T_release e' _ del => e' = e /\ del = true
  | _ => False
  end.

(** The worker has made the call [f()] of the wrapper at [e] and has not
    set [done] yet. *)
Definition called (pc : target_pc) (e : nat) : Prop :=
  match pc with
  | T_lock e' _ | T_signal e' _ => e' = e
  | _ => False
  end.

(** The worker is not about to delete the wrapper at [e]. *)
Definition keeps (pc : target_pc) (e : nat) : Prop :=
  match pc with
  | T_unlock e' _ del | T_release e' _ del => e' = e -> del = false
  | _ => True
  end.

(** The wrapper the caller holds. *)
Definition holds_wrapper (pc : caller_pc) : option nat :=
  match pc with
  | C_dispatch _ e | C_wait e | C_lock e | C_test e | C_sleep e
  | C_unlock e | C_destroy e => Some e
  | _ => None
  end.

(** The caller has read [done = true]. *)
Definition passed (pc : caller_pc) : Prop :=
  match pc with
  | C_unlock _ | C_destroy _ | C_returned => True
  | _ => False
  end.

(** The caller has built its wrapper at [e]. *)
Definition built (tr : list label) (e : nat) : Prop :=
  exists tr1 tr2, tr = tr1 ++ Built e :: tr2.

(** The caller has built its wrapper at [e] and, later, the worker has
    called [fn] from the wrapper at [e]: the call has taken the shared
    state from some [u] to [fn u]. *)
Definition preceded (tr : list label) (e : nat) : Prop :=
  exists tr1 tr2 tr3 u,
    tr = tr1 ++ Built e :: tr2 ++ Called e fn u (fn u) :: tr3.

(** Nothing but field [lock] differs. *)
Definition same_wrapper (ev ev' : C_submit_event U) : Prop :=
  f ev' = f ev /\ nonwait ev' = nonwait ev /\ done ev' = done ev.

Inductive served_inv (tr : list label) (s : sys) : Prop :=
| inv_before :
    cpc s = C_submit ->
    (forall e, uses (tpc s) e -> is_Some (evs (world s) !! e)) ->
    served_inv tr s
| inv_inline :
    cpc s = C_inline -> served_inv tr s
| inv_alive e ev :
    holds_wrapper (cpc s) = Some e ->
    evs (world s) !! e = Some ev ->
    f ev = fn -> nonwait ev = false ->
    built tr e ->
    keeps (tpc s) e ->
    (done ev = true \/ called (tpc s) e \/ passed (cpc s) -> preceded tr e) ->
    served_inv tr s
| inv_returned e :
    cpc s = C_returned -> preceded tr e -> served_inv tr s.

(** *** The other threads of the process *)

(** What the other threads may have done between two actions of the caller
    and of the worker.  They queue callbacks on any center, serve other
    centers, create, lock and destroy their own wrappers and change the
    shared state.  They leave alone the wrapper that the caller holds,
    whose address only the caller and the queue of the target center have,
    and they do not destroy a wrapper that the worker uses: the wrapper of a
    synchronous submitter lives until its owner has read [done] under the
    mutex, that of an asynchronous one until the worker deletes it. *)
Definition others (s : sys) (w' : World U) : Prop :=
  (forall e, holds_wrapper (cpc s) = Some e -> evs w' !! e = evs (world s) !! e) /\
  (forall e, uses (tpc s) e -> is_Some (evs (world s) !! e) -> is_Some (evs w' !! e)).

(** The runs of the caller and of the worker among the other threads. *)
Inductive run_among : sys -> list label -> sys -> Prop :=
| among_refl s : run_among s [] s
| among_caller s tr s1 pc w :
    run_among s tr s1 ->
    caller_step (cpc s1) (world s1) = Returns pc w ->
    run_among s (tr ++ caller_label (cpc s1) pc) (mkSys w pc (tpc s1))
| among_target s tr s1 pc w :
    run_among s tr s1 ->
    target_step (tpc s1) (world s1) = Returns pc w ->
    run_among s (tr ++ target_label (tpc s1) (world s1) w) (mkSys w (cpc s1) pc)
| among_others s tr s1 w :
    run_among s tr s1 ->
    others s1 w ->
    run_among s tr (mkSys w (cpc s1) (tpc s1)).

End Threads.

End Rendezvous.


(** ** A small process: two centers, one registry, a shared counter *)

Module Scenario.

(** Slots 0 and 1 of the registry hold the centers at addresses 1 and 2. *)
Definition registry : AssociatedCenters :=
  mkAssociatedCenters ([1; 2]%nat ++ replicate 22 NULL) eq_refl.

(** The center of worker 0, owned by thread 100, and the center of worker
    1, owned by thread 200; the registry is at address 1. *)
Definition center0 : EventCenter :=
  mkEventCenter 16 100 0 [] (replicate 16 FileEvent_ctor) [] ∅ 1 3 4 NULL 0 1%nat.
Definition center1 : EventCenter :=
  mkEventCenter 16 200 0 [] (replicate 16 FileEvent_ctor) [] ∅ 1 5 6 NULL 1 1%nat.

Definition world0 : World nat :=
  mkWorld {[1%nat := center0; 2%nat := center1]} {[1%nat := registry]} ∅ ∅ 0%nat.

(** The submitted callable increments the counter. *)
Definition incr : @func nat := S.

(** Center 0 at time 0 after four [create_time_event] calls, with delays
    5, 5, 20 and 9 and callbacks 7, 8, 9 and 7: ids 1 to 4. *)
Definition timers0 : EventCenter :=
  (Timer.create_time_event 0 9 7%nat
    (Timer.create_time_event 0 20 9%nat
      (Timer.create_time_event 0 5 8%nat
        (Timer.create_time_event 0 5 7%nat center0).2).2).2).2.

(** A callback that only counts its invocations in [center_id], and one
    that schedules itself again five ticks after time 10. *)
Definition counting (cb : EventCallbackRef) (i : Z) (c : EventCenter) : EventCenter :=
  mkEventCenter (nevent c) (owner c) (external_num_events c) (external_events c)
    (file_events c) (time_events c) (event_map c) (time_event_next_id c)
    (notify_receive_fd c) (notify_send_fd c) (notify_handler c)
    (center_id c + 1) (global_centers c).
Definition rescheduling (cb : EventCallbackRef) (i : Z) (c : EventCenter) : EventCenter :=
  (Timer.create_time_event 10 5 cb c).2.

End Scenario.

(** * More of the sources *)

(** ** include/intarith.h, at [T = U = uint64_t] *)

Module Intarith.

(** Arithmetic of [uint64_t]: results are reduced modulo 2^64. *)
Definition wrap (x : Z) : Z := x mod 2 ^ 64.

(** [(n + d - 1) / d]; a division by zero is undefined. *)
Definition div_round_up (n d : Z) : result Z :=
  if d =? 0 then Undefined else Ok (wrap (n + d - 1) / d).

(** [(n % d ? (n + d - n % d) : n)]. *)
Definition round_up_to (n d : Z) : result Z :=
  if d =? 0 then Undefined
  else Ok (if negb (n mod d =? 0) then wrap (n + d - n mod d) else n).

(** [1 << y], a shift of the [int] literal [1] by a [uint64_t]: [2^y] up
    to [y = 30]; at [y = 31] the bit pattern [2^31] read as an [int], which
    is [INT_MIN]; undefined from [y = 32] on, the width of [int]. *)
Definition int_one_shl (y : Z) : result Z :=
  if (0 <=? y) && (y <? 31) then Ok (Z.shiftl 1 y)
  else if y =? 31 then Ok (- 2 ^ 31)
  else Undefined.

(** [(x + (1 << y) - 1) >> y]: the [int] is converted to [uint64_t] by the
    addition, which makes [2^64 - 2^31] of [INT_MIN]. *)
Definition shift_round_up (x y : Z) : result Z :=
  rbind (int_one_shl y) (fun s => Ok (Z.shiftr (wrap (x + s - 1)) y)).

(** [(x & (x - 1)) == 0]. *)
Definition isp2 (x : Z) : bool := Z.land x (wrap (x - 1)) =? 0.

(** [x & -align]. *)
Definition p2align (x align : Z) : Z := Z.land x (wrap (- align)).

(** [x & (align - 1)]. *)
Definition p2phase (x align : Z) : Z := Z.land x (wrap (align - 1)).

(** [-x & (align - 1)]. *)
Definition p2nphase (x align : Z) : Z := Z.land (wrap (- x)) (wrap (align - 1)).

(** [-(-x & -align)]. *)
Definition p2roundup (x align : Z) : Z :=
  wrap (- Z.land (wrap (- x)) (wrap (- align))).

(** [__builtin_clzl]: the number of leading 0-bits of a 64-bit value,
    counted from bit 63 down; the builtin is undefined on 0. *)
Fixpoint leading_zeros (n : nat) (v : Z) : Z :=
  match n with
  | O => 0
  | S k => if Z.testbit v (Z.of_nat k) then 0 else 1 + leading_zeros k v
  end.

Definition __builtin_clzl (v : Z) : result Z :=
  if v =? 0 then Undefined else Ok (leading_zeros 64 v).

(** [__builtin_ctzl]: the number of trailing 0-bits, counted from bit 0 up;
    undefined on 0. *)
Fixpoint trailing_zeros (n : nat) (i : Z) (v : Z) : Z :=
  match n with
  | O => 0
  | S k => if Z.testbit v i then 0 else 1 + trailing_zeros k (i + 1) v
  end.

Definition __builtin_ctzl (v : Z) : result Z :=
  if v =? 0 then Undefined else Ok (trailing_zeros 64 0 v).

(** [ctz], [clz] and [cbits] for a type as wide as [unsigned long]:
    [sizeof(v) * 8] is 64. *)
Definition ctz (v : Z) : result Z :=
  if v =? 0 then Ok 64 else __builtin_ctzl v.

Definition clz (v : Z) : result Z :=
  if v =? 0 then Ok 64 else __builtin_clzl v.

Definition cbits (v : Z) : result Z :=
  if v =? 0 then Ok 0 else rbind (__builtin_clzl v) (fun n => Ok (64 - n)).

(** The number of bits set among the [n] lowest: [__builtin_popcountl]
    with [n = 64]. *)
Fixpoint count_bits (n : nat) (v : Z) : Z :=
  match n with
  | O => 0
  | S k => (if Z.testbit v (Z.of_nat k) then 1 else 0) + count_bits k v
  end.

(** [unsigned popcount(T v)]. *)
Definition popcount (v : Z) : Z := count_bits 64 v.

(** A value of type [uint64_t]. *)
Definition u64 (x : Z) : Prop := 0 <= x < 2 ^ 64.

End Intarith.

(** ** librados/IoCtxImpl.h: the reference count and [dup] *)

(** The monad's own [get] and [put], under names that the methods of the
    same names do not hide. *)
Definition read_state {W : Type} : M W W := get.
Definition write_state {W : Type} (w : W) : M W unit := put w.

Module IoCtx.

Section IoCtxImpl.

(** [snapid_t], [::SnapContext] and [object_locator_t] are declared in
    headers that are not part of the sources. *)
Context {snapid_t SnapContext object_locator_t : Type}.

(** The data members of [librados::IoCtxImpl]; of the state of the
    pending asynchronous writes only [aio_write_seq] is kept (the lock, the
    condition variable, the list and the waiters are never touched by the
    functions below).  [client] and [objecter] are addresses. *)
Record IoCtxImpl := mkIoCtxImpl {
  ref_cnt : Z;                (* std::atomic<uint64_t> *)
  client : nat;
  poolid : Z;                 (* int64_t *)
  snap_seq : snapid_t;
  snapc : SnapContext;
  assert_ver : Z;             (* uint64_t *)
  last_objver : Z;            (* version_t *)
  notify_timeout : Z;         (* uint32_t *)
  oloc : object_locator_t;
  extra_op_flags : Z;         (* int *)
  aio_write_seq : Z;          (* ceph_tid_t *)
  objecter : nat
}.

(** The default member initialisers ([snap_seq], [snapc] and [oloc] have
    none). *)
Definition IoCtxImpl_default (s : snapid_t) (sc : SnapContext)
    (o : object_locator_t) : IoCtxImpl :=
  {| ref_cnt := 0; client := NULL; poolid := 0; snap_seq := s; snapc := sc;
     assert_ver := 0; last_objver := 0; notify_timeout := 30; oloc := o;
     extra_op_flags := 0; aio_write_seq := 0; objecter := NULL |}.

(** [void dup(const IoCtxImpl& rhs)], with [*this] the first argument. *)
Definition dup (this rhs : IoCtxImpl) : IoCtxImpl :=
  {| ref_cnt := ref_cnt this;
     client := client rhs;
     poolid := poolid rhs;
     snap_seq := snap_seq rhs;
     snapc := snapc rhs;
     assert_ver := assert_ver rhs;
     last_objver := last_objver rhs;
     notify_timeout := notify_timeout rhs;
     oloc := oloc rhs;
     extra_op_flags := extra_op_flags rhs;
     aio_write_seq := aio_write_seq this;
     objecter := objecter rhs |}.

Definition set_ref_cnt (n : Z) (c : IoCtxImpl) : IoCtxImpl :=
  {| ref_cnt := n; client := client c; poolid := poolid c;
     snap_seq := snap_seq c; snapc := snapc c; assert_ver := assert_ver c;
     last_objver := last_objver c; notify_timeout := notify_timeout c;
     oloc := oloc c; extra_op_flags := extra_op_flags c;
     aio_write_seq := aio_write_seq c; objecter := objecter c |}.

(** The contexts that have not been deleted, by address. *)
Abbreviation store := (gmap nat IoCtxImpl).

(** [void get() { ref_cnt++; }], on the context at [this]. *)
Definition get (this : nat) : M store unit :=
  do st <- read_state;
  do c <- lift (deref st this);
  write_state (<[this := set_ref_cnt ((ref_cnt c + 1) mod 2 ^ 64) c]> st).

(** [void put() { if (--ref_cnt == 0) delete this; }]. *)
Definition put (this : nat) : M store unit :=
  do st <- read_state;
  do c <- lift (deref st this);
  let n := (ref_cnt c - 1) mod 2 ^ 64 in
  if n =? 0 then write_state (delete this st)
  else write_state (<[this := set_ref_cnt n c]> st).

(** [dup] called on the context at [this]. *)
Definition dup_at (this : nat) (rhs : IoCtxImpl) : M store unit :=
  do st <- read_state;
  do c <- lift (deref st this);
  write_state (<[this := dup c rhs]> st).

(** What the holders of a context do with it. *)
Inductive ref_op : Type :=
| Get
| Put
| Dup (rhs : IoCtxImpl).

Definition ref_step (this : nat) (o : ref_op) : M store unit :=
  match o with
  | Get => get this
  | Put => put this
  | Dup rhs => dup_at this rhs
  end.

Fixpoint ref_run (this : nat) (ops : list ref_op) : M store unit :=
  match ops with
  | [] => ret tt
  | o :: ops' => do_ ref_step this o; ref_run this ops'
  end.

(** References taken minus references dropped. *)
Fixpoint balance (ops : list ref_op) : Z :=
  match ops with
  | [] => 0
  | Get :: ops' => balance ops' + 1
  | Put :: ops' => balance ops' - 1
  | Dup _ :: ops' => balance ops'
  end.

(** The context after the [dup]s among [ops], the count apart. *)
Fixpoint copied (c : IoCtxImpl) (ops : list ref_op) : IoCtxImpl :=
  match ops with
  | [] => c
  | Dup rhs :: ops' => copied (dup c rhs) ops'
  | _ :: ops' => copied c ops'
  end.

(** Starting from the count [r], the count never leaves [1 .. 2^64 - 1]
    before the last operation, and the last one may bring it to 0. *)
Fixpoint held (r : Z) (ops : list ref_op) : Prop :=
  match ops with
  | [] => True
  | Get :: ops' => r + 1 < 2 ^ 64 /\ held (r + 1) ops'
  | Put :: ops' => (r = 1 -> ops' = []) /\ held (r - 1) ops'
  | Dup _ :: ops' => held r ops'
  end.

End IoCtxImpl.

Arguments IoCtxImpl : clear implicits.
Arguments ref_op : clear implicits.

Abbreviation store A B C := (gmap nat (IoCtxImpl A B C)).

End IoCtx.

(** ** PosixStack.h: starting and stopping the whole pool *)

Module PoolRuns.

Import PosixNetworkStack.

Section PoolRuns.

Context {E : Type}.

(** [spawn_worker] called once for each entry function, in order. *)
Fixpoint spawn_all (funcs : list E) : M (pool E) unit :=
  match funcs with
  | [] => ret tt
  | func :: funcs' => do_ spawn_worker func; spawn_all funcs'
  end.

(** [join_worker] called once for each index, in order. *)
Fixpoint join_all (idx : list nat) : M (pool E) unit :=
  match idx with
  | [] => ret tt
  | i :: idx' => do_ join_worker i; join_all idx'
  end.

(** Every thread of execution of the pool has left its entry function. *)
Definition all_exited (ts : pool E) : pool E :=
  map (fun t => mkThread (entry t) (joinable t) true) ts.

(** The thread objects at the indexes [idx] after their [join]. *)
Definition joined (idx : list nat) (ts : pool E) : pool E :=
  imap (fun i t => if bool_decide (i ∈ idx)
                   then mkThread (entry t) false true else t) ts.

End PoolRuns.

End PoolRuns.

(** ** common/RefCountedObj.cc *)

Module RefCounted.

Section RefCountedObject.

(** [nref] is an atomic counter whose type is declared in
    common/RefCountedObj.h.  [incr] and [decr] are its [++] and [--]; the
    functions below need nothing else of it. *)
Variables incr decr : Z -> Z.

(** The members that the functions of RefCountedObj.cc read; [cct] is only
    used to log. *)
Record RefCountedObject := mkRefCountedObject {
  nref : Z;
  cct : nat
}.

Definition set_nref (v : Z) (o : RefCountedObject) : RefCountedObject :=
  mkRefCountedObject v (cct o).

(** The objects that have not been deleted, by address. *)
Abbreviation heap := (gmap nat RefCountedObject).

(** [RefCountedObject::~RefCountedObject() { ceph_assert(nref == 0); }]. *)
Definition RefCountedObject_dtor (o : RefCountedObject) : result unit :=
  ceph_assert (nref o =? 0).

(** [delete this]: the destructor runs, then the storage is released. *)
Definition delete_this (this : nat) : M heap unit :=
  do h <- read_state;
  do o <- lift (deref h this);
  do_ lift (RefCountedObject_dtor o);
  write_state (delete this h).

(** [void RefCountedObject::put() const]. *)
Definition put (this : nat) : M heap unit :=
  do h <- read_state;
  do o <- lift (deref h this);
  let v := decr (nref o) in
  do_ write_state (<[this := set_nref v o]> h);
  if v =? 0 then delete_this this else ret tt.

(** [void RefCountedObject::_get() const]. *)
Definition _get (this : nat) : M heap unit :=
  do h <- read_state;
  do o <- lift (deref h this);
  let v := incr (nref o) in
  do_ write_state (<[this := set_nref v o]> h);
  lift (ceph_assert (1 <? v)).

Inductive nref_op : Type := Get | Put.

Definition nref_step (this : nat) (o : nref_op) : M heap unit :=
  match o with
  | Get => _get this
  | Put => put this
  end.

Fixpoint nref_run (this : nat) (ops : list nref_op) : M heap unit :=
  match ops with
  | [] => ret tt
  | o :: ops' => do_ nref_step this o; nref_run this ops'
  end.

(** References taken minus references dropped. *)
Fixpoint nref_balance (ops : list nref_op) : Z :=
  match ops with
  | [] => 0
  | Get :: ops' => nref_balance ops' + 1
  | Put :: ops' => nref_balance ops' - 1
  end.

End RefCountedObject.

Abbreviation heap := (gmap nat RefCountedObject).

(** The counter as an unsigned integer of 64 bits. *)
Definition incr64 (v : Z) : Z := (v + 1) mod 2 ^ 64.
Definition decr64 (v : Z) : Z := (v - 1) mod 2 ^ 64.

End RefCounted.

(** ** include/buffer_raw.h: [ceph::buffer::raw] *)

Module Raw.

(** [std::numeric_limits<size_t>::max()]. *)
Definition SIZE_MAX : Z := 2 ^ 64 - 1.

(** The conversion [(int)x] of an [unsigned]: the value modulo 2^32 that
    an [int] holds. *)
Definition to_int (x : Z) : Z := if x <? 2 ^ 31 then x else x - 2 ^ 32.

(** Unary minus on an [int]; [-INT_MIN] overflows. *)
Definition neg_int (x : Z) : result Z :=
  if x =? - 2 ^ 31 then Undefined else Ok (- x).

(** One call [mempool::get_pool(pool_index_t(pool)).adjust_count(items, bytes)].
    The pools are defined in include/mempool.h; what is kept of them here is
    the sequence of the calls that they receive. *)
Record adjustment := mkAdjustment {
  adj_pool : Z;
  adj_items : Z;
  adj_bytes : Z
}.

Abbreviation pools := (list adjustment).

Definition adjust_count (pool items bytes : Z) : M pools unit :=
  do log <- read_state; write_state (log ++ [mkAdjustment pool items bytes]).

(** The items and the bytes that the calls of [log] have charged to [pool],
    those taken back deducted. *)
Definition pool_items (log : pools) (pool : Z) : Z :=
  foldr (fun a acc => if adj_pool a =? pool then adj_items a + acc else acc) 0 log.

Definition pool_bytes (log : pools) (pool : Z) : Z :=
  foldr (fun a acc => if adj_pool a =? pool then adj_bytes a + acc else acc) 0 log.

(** The data members of [raw] ([bptr_storage] and the spinlock, which
    guards the two crc members, apart). *)
Record raw := mkRaw {
  data : nat;                    (* char * *)
  len : Z;                       (* unsigned *)
  nref : Z;                      (* ceph::atomic<unsigned> *)
  mempool : Z;                   (* int *)
  last_crc_offset : Z * Z;       (* std::pair<size_t, size_t> *)
  last_crc_val : Z * Z           (* std::pair<uint32_t, uint32_t> *)
}.

(** What a live buffer [r] has charged since [log0]: one item and [len r]
    bytes to its own pool, nothing to the others. *)
Definition charged (log0 log : pools) (r : raw) : Prop :=
  forall p,
    pool_items log p = pool_items log0 p + (if mempool r =? p then 1 else 0) /\
    pool_bytes log p = pool_bytes log0 p + (if mempool r =? p then len r else 0).

Definition set_len (l : Z) (r : raw) : raw :=
  mkRaw (data r) l (nref r) (mempool r) (last_crc_offset r) (last_crc_val r).

Definition set_mempool (p : Z) (r : raw) : raw :=
  mkRaw (data r) (len r) (nref r) p (last_crc_offset r) (last_crc_val r).

(** [raw(char *c, unsigned l, int mempool)]; [raw(unsigned l, int mempool)]
    is the same with [c = nullptr]. *)
Definition raw_ctor (c : nat) (l : Z) (pool : Z) : M pools raw :=
  do_ adjust_count pool 1 l;
  ret (mkRaw c l 0 pool (SIZE_MAX, SIZE_MAX) (0, 0)).

(** [virtual ~raw()]. *)
Definition raw_dtor (r : raw) : M pools unit :=
  do b <- lift (neg_int (to_int (len r)));
  adjust_count (mempool r) (-1) b.

(** [void _set_len(unsigned l)]. *)
Definition _set_len (l : Z) (r : raw) : M pools raw :=
  do b <- lift (neg_int (to_int (len r)));
  do_ adjust_count (mempool r) (-1) b;
  do_ adjust_count (mempool r) 1 l;
  ret (set_len l r).

(** [void reassign_to_mempool(int pool)]. *)
Definition reassign_to_mempool (pool : Z) (r : raw) : M pools raw :=
  if pool =? mempool r then ret r
  else
    do b <- lift (neg_int (to_int (len r)));
    do_ adjust_count (mempool r) (-1) b;
    do_ adjust_count pool 1 (len r);
    ret (set_mempool pool r).

Section Anon.

(** The enumerator [mempool::mempool_buffer_anon] of include/mempool.h. *)
Variable mempool_buffer_anon : Z.

(** [void try_assign_to_mempool(int pool)]. *)
Definition try_assign_to_mempool (pool : Z) (r : raw) : M pools raw :=
  if mempool r =? mempool_buffer_anon then reassign_to_mempool pool r
  else ret r.

(** What is done to a buffer between its construction and its destruction,
    as far as the pools see it. *)
Inductive raw_op : Type :=
| SetLen (l : Z)
| Reassign (pool : Z)
| TryAssign (pool : Z).

Definition raw_step (o : raw_op) (r : raw) : M pools raw :=
  match o with
  | SetLen l => _set_len l r
  | Reassign pool => reassign_to_mempool pool r
  | TryAssign pool => try_assign_to_mempool pool r
  end.

Fixpoint raw_run (ops : list raw_op) (r : raw) : M pools raw :=
  match ops with
  | [] => ret r
  | o :: ops' => do r' <- raw_step o r; raw_run ops' r'
  end.

(** A buffer from its construction to its destruction. *)
Definition raw_life (c : nat) (l : Z) (pool : Z) (ops : list raw_op) : M pools unit :=
  do r <- raw_ctor c l pool;
  do r' <- raw_run ops r;
  raw_dtor r'.

(** The lengths that [ops] set are below 2^31. *)
Definition small_lens (ops : list raw_op) : Prop :=
  Forall (fun o => match o with SetLen l => 0 <= l < 2 ^ 31 | _ => True end) ops.

End Anon.

(** [bool get_crc(fromto, crc) const]: the result, and what [*crc] holds
    afterwards when it held [old] before. *)
Definition get_crc (fromto : Z * Z) (old : Z * Z) (r : raw) : bool * (Z * Z) :=
  if (fst (last_crc_offset r) =? fst fromto) && (snd (last_crc_offset r) =? snd fromto)
  then (true, last_crc_val r)
  else (false, old).

(** [void set_crc(fromto, crc)]. *)
Definition set_crc (fromto : Z * Z) (crc : Z * Z) (r : raw) : raw :=
  mkRaw (data r) (len r) (nref r) (mempool r) fromto crc.

(** [void invalidate_crc()]. *)
Definition invalidate_crc (r : raw) : raw :=
  mkRaw (data r) (len r) (nref r) (mempool r) (SIZE_MAX, SIZE_MAX) (last_crc_val r).

End Raw.

(** ** os/ObjectStore.cc and os/ObjectStore.h *)

Module ObjectStore.

Abbreviation byte := Byte.byte.

(** [sizeof(buf)] for [char buf[4096]]. *)
Definition BUFSZ : nat := 4096.

Definition INT_MAX : Z := 2 ^ 31 - 1.

Section Meta.

(** The C library's [isspace], and the two functions of common/safe_io.h:
    [safe_read_file(base, file, val, vallen)] gives its result and the
    bytes that [val] holds afterwards, and
    [safe_write_file(base, file, val, vallen, mode)] its result. *)
Variable isspace : byte -> bool.
Variable safe_read_file : list byte -> list byte -> Z -> Z * list byte.
Variable safe_write_file : list byte -> list byte -> list byte -> Z -> Z -> Z.

(** The member [path] of the store. *)
Variable path : list byte.

(** [buf[i]] in [char buf[4096]]. *)
Definition buf_at (buf : list byte) (i : nat) : result byte :=
  if (i <? BUFSZ)%nat
  then match buf !! i with Some c => Ok c | None => Undefined end
  else Undefined.

(** [while (r && isspace(buf[r-1])) --r;] and the [r] it ends with. *)
Fixpoint drop_trailing (buf : list byte) (r : nat) : result nat :=
  match r with
  | O => Ok O
  | S r' =>
      rbind (buf_at buf r')
        (fun c => if isspace c then drop_trailing buf r' else Ok r)
  end.

(** [int ObjectStore::read_meta(const std::string& key, std::string *value)]:
    the result and what [*value] holds afterwards, [value] being what it
    held before. *)
Definition read_meta (key : list byte) (value : list byte) : result (Z * list byte) :=
  let '(r, buf) := safe_read_file path key (Z.of_nat BUFSZ) in
  if r <=? 0 then Ok (r, value)
  else rbind (drop_trailing buf (Z.to_nat r)) (fun n => Ok (0, take n buf)).

(** [string v = value; v += "\n";] *)
Definition write_meta_v (value : list byte) : list byte := value ++ [Byte.x0a].

(** [int ObjectStore::write_meta(const std::string& key, const std::string& value)]. *)
Definition write_meta (key : list byte) (value : list byte) : Z :=
  let v := write_meta_v value in
  let r := safe_write_file path key v (Z.of_nat (length v)) 384 (* 0600 *) in
  if r <? 0 then r else 0.

End Meta.

Section Readv.

(** The virtual [read(c, oid, offset, len, bl, op_flags)] of the store, for
    the collection, the object and the flags that [readv] is called with:
    its result and the bytes it puts into the empty list [t]. *)
Variable read : Z -> Z -> Z * list byte.

(** [interval_set<uint64_t>]: the intervals by increasing start, each with
    its length. *)
Abbreviation interval_set := (list (Z * Z)).

(** The loop of [readv] from the interval at [p] on, with [total] so far.
    It gives the result of [readv], the intervals from [p] on as the call
    leaves them, and the bytes appended to [bl]. *)
Fixpoint readv_loop (m : interval_set) (total : Z)
    : result (Z * interval_set * list byte) :=
  match m with
  | [] => Ok (total, [], [])
  | (start, len) :: rest =>
      let '(r, t) := read start len in
      if r <? 0 then Ok (r, m, [])
      else if INT_MAX <? total + r then Undefined
      else
        if negb (len =? Z.of_nat (length t)) then
          if Z.of_nat (length t) =? 0 then Ok (total + r, [], [])
          else Ok (total + r, [(start, Z.of_nat (length t))], t)
        else
          rbind (readv_loop rest (total + r))
            (fun '(res, m', data) => Ok (res, (start, len) :: m', t ++ data))
  end.

(** [virtual int readv(c, oid, m, bl, op_flags)]: the result, [m] and [bl]
    afterwards. *)
Definition readv (m : interval_set) (bl : list byte)
    : result (Z * interval_set * list byte) :=
  rbind (readv_loop m 0) (fun '(res, m', data) => Ok (res, m', bl ++ data)).

(** The bytes that the intervals of [m] cover. *)
Definition covered (m : interval_set) : Z := foldr (fun i acc => snd i + acc) 0 m.

(** The sum of what [read] returns over the intervals of [m], errors apart. *)
Definition read_sum (m : interval_set) : Z :=
  foldr (fun i acc => Z.max 0 (fst (read (fst i) (snd i))) + acc) 0 m.

(** [read] fills every interval of [m] completely. *)
Definition all_full (m : interval_set) : Prop :=
  Forall (fun i => 0 <= fst (read (fst i) (snd i)) /\
                   snd i = Z.of_nat (length (snd (read (fst i) (snd i))))) m.

(** What [read] puts into [t] over the intervals of [m]. *)
Definition read_data (m : interval_set) : list byte :=
  concat (map (fun i => snd (read (fst i) (snd i))) m).

(** Where it succeeds on an interval of [m], [read] returns the number of
    bytes that it has put into [t]. *)
Definition counts_bytes (m : interval_set) : Prop :=
  Forall (fun i => 0 <= fst (read (fst i) (snd i)) ->
                   fst (read (fst i) (snd i))
                   = Z.of_nat (length (snd (read (fst i) (snd i))))) m.

End Readv.

End ObjectStore.

(** A metadata file and an object to read, for the examples. *)

Module ObjectStoreScenario.

Import ObjectStore.

(** White space in the C locale. *)
Definition isspace (c : byte) : bool :=
  match c with
  | Byte.x09 | Byte.x0a | Byte.x0b | Byte.x0c | Byte.x0d | Byte.x20 => true
  | _ => false
  end.

(** The buffer after a file holding ["a\n"] has been read into it. *)
Definition buf_a : list byte :=
  [Byte.x61; Byte.x0a] ++ repeat Byte.x00 4094.

Definition safe_read_file (base file : list byte) (vallen : Z) : Z * list byte :=
  (2, buf_a).

(** An object of 3 bytes: [read] gives what there is of the range asked
    for, and fails with -5 from the offset 100 on. *)
Definition read (offset len : Z) : Z * list byte :=
  if 100 <=? offset then (-5, [])
  else
    let n := Z.max 0 (Z.min len (3 - offset)) in
    (n, repeat Byte.x2a (Z.to_nat n)).

End ObjectStoreScenario.

(** ** The rendezvous of [submit_to] and [do_request]: what holds in every
       interleaving *)

Module RendezvousSafety.

Import Rendezvous.

Section Safety.

Context {U : Type}.
Variables (this : nat) (self : pthread_t) (i : Z) (fn : @func U).
Variables (c : nat) (worker : pthread_t).

(** The world in which [submit_to] is called. *)
Variable w0 : World U.

(** Where the wrapper of the call is built. *)
Definition e0 : nat := fresh_addr (evs w0).

(** How far the wrapper has come: not yet in the queue of the target
    center; in the queue; taken by the worker; [f()] has returned; the
    worker holds the mutex; it has set [done]; it has released the
    mutex; it is back to its ticks. *)
Inductive progress : Type :=
| NotQueued | Queued | Taken | Ran | Locked | Signalled | Released | Finished.

Definition tpc_ok (p : progress) (pc : target_pc) : Prop :=
  match p with
  | NotQueued | Queued | Finished => idle pc
  | Taken => pc = T_events [e0]
  | Ran => pc = T_lock e0 []
  | Locked => pc = T_signal e0 []
  | Signalled => pc = T_unlock e0 [] false
  | Released => pc = T_release e0 [] false
  end.

Definition cpc_ok (p : progress) (pc : caller_pc) : Prop :=
  match p with
  | NotQueued => pc = C_submit \/ pc = C_dispatch c e0
  | Queued | Taken | Ran => waiting pc e0
  | Locked | Signalled => pc = C_wait e0 \/ pc = C_lock e0 \/ pc = C_sleep e0
  | Released | Finished =>
      waiting pc e0 \/ pc = C_unlock e0 \/ pc = C_destroy e0 \/ pc = C_returned
  end.

Definition queue_of (p : progress) : list EventCallbackRef :=
  match p with
  | Queued => [e0]
  | _ => []
  end.

Definition done_of (p : progress) : bool :=
  match p with
  | Signalled | Released | Finished => true
  | _ => false
  end.

Definition ran_of (p : progress) : bool :=
  match p with
  | NotQueued | Queued | Taken => false
  | _ => true
  end.

(** The thread that owns the mutex of the wrapper, by where the two
    threads are. *)
Definition caller_holds (pc : caller_pc) : bool :=
  match pc with
  | C_test _ | C_unlock _ => true
  | _ => false
  end.

Definition worker_holds (pc : target_pc) : bool :=
  match pc with
  | T_signal _ _ | T_unlock _ _ _ => true
  | _ => false
  end.

Definition owner_of (cp : caller_pc) (tp : target_pc) : option pthread_t :=
  if caller_holds cp then Some self
  else if worker_holds tp then Some worker
  else None.

(** The wrapper exists from its construction in [submit_to] to the return
    of [submit_to]. *)
Definition wrapper_live (pc : caller_pc) : bool :=
  match pc with
  | C_submit | C_inline | C_returned => false
  | _ => true
  end.

(** The live wrappers: those of [w0], and the one of the call while it
    exists. *)
Definition wrappers (cp : caller_pc) (tp : target_pc) (p : progress)
    : gmap nat (C_submit_event U) :=
  if wrapper_live cp
  then <[e0 := mkC_submit_event (owner_of cp tp) (done_of p) fn false]> (evs w0)
  else evs w0.

(** The invariant of the two threads, with the wrapper as far as [p]. *)
Definition inv_at (p : progress) (s : @sys U) : Prop :=
  tpc_ok p (tpc s) /\ cpc_ok p (cpc s) /\
  queue c (world s) (queue_of p) /\
  shared (world s) = (if ran_of p then fn (shared w0) else shared w0) /\
  evs (world s) = wrappers (cpc s) (tpc s) p /\
  (cpc s = C_submit -> world s = w0).

Definition inv (s : @sys U) : Prop := exists p, inv_at p s.

(** Where an action of the caller that returns leads. *)
Definition caller_next (p : progress) (pc : caller_pc) : progress * caller_pc :=
  match pc with
  | C_submit => (NotQueued, C_dispatch c e0)
  | C_dispatch _ e => (Queued, C_wait e)
  | C_wait e => (p, C_lock e)
  | C_lock e => (p, C_test e)
  | C_test e => (p, if done_of p then C_unlock e else C_sleep e)
  | C_sleep e => (p, C_lock e)
  | C_unlock e => (p, C_destroy e)
  | C_destroy e => (p, C_returned)
  | C_inline => (p, C_inline)
  | C_returned => (p, C_returned)
  end.

(** Where an action of the worker that returns leads. *)
Definition target_next (p : progress) (pc : target_pc) : progress * target_pc :=
  match p with
  | NotQueued | Finished =>
      (p, match pc with T_poll => T_events [] | _ => T_poll end)
  | Queued =>
      match pc with
      | T_poll => (Taken, T_events [e0])
      | _ => (Queued, T_poll)
      end
  | Taken => (Ran, T_lock e0 [])
  | Ran => (Locked, T_signal e0 [])
  | Locked => (Signalled, T_unlock e0 [] false)
  | Signalled => (Released, T_release e0 [] false)
  | Released => (Finished, T_events [])
  end.

(** The thread whose action brings the caller closer to its return:
    [true] for the caller. *)
Definition turn (p : progress) (cp : caller_pc) : bool :=
  match p with
  | NotQueued | Released | Finished => true
  | Ran => caller_holds cp
  | _ => false
  end.

(** A bound on the number of actions that are left until the caller has
    returned, when the threads take their turns. *)
Definition rank (p : progress) (cp : caller_pc) (tp : target_pc) : nat :=
  match p with
  | NotQueued => match cp with C_submit => 62 | _ => 61 end
  | Queued => match tp with T_poll => 51 | _ => 52 end
  | Taken => 40
  | Ran => if caller_holds cp then 31 else 30
  | Locked => 20
  | Signalled => 10
  | Released | Finished =>
      match cp with
      | C_wait _ | C_sleep _ => 5
      | C_lock _ => 4
      | C_test _ => 3
      | C_unlock _ => 2
      | C_destroy _ => 1
      | _ => 0
      end
  end.

(** An action that fails an assertion or has no defined behaviour. *)
Definition faults {A : Type} (o : outcome (World U) A) : Prop :=
  o = Asserts \/ o = Undef.

(** Neither thread is about to fail. *)
Definition safe (s : @sys U) : Prop :=
  ~ faults (caller_step this self i fn (cpc s) (world s)) /\
  ~ faults (target_step c worker (tpc s) (world s)).

(** *** The condition variable, without spurious wake-ups

    A thread suspended in [cond.wait] runs again only after a
    [cond.notify_all()] made while it was suspended.  [notified] tells
    whether the caller has been notified since it last entered [cond.wait]. *)

(** The caller may run: it is not in [cond.wait], or it has been notified. *)
Definition awake (pc : caller_pc) (notified : bool) : bool :=
  match pc with
  | C_sleep _ => notified
  | _ => true
  end.

(** An action of the caller that leads to [pc]: entering [cond.wait]
    forgets the notifications of before. *)
Definition cond_wait (pc : caller_pc) (notified : bool) : bool :=
  match pc with
  | C_sleep _ => false
  | _ => notified
  end.

(** The action of the worker at [tp], the caller being at [cp]: the
    [cond.notify_all()] of [do_request], the first statement under the
    mutex, notifies a caller that is suspended on the condition variable of
    the same wrapper, and nobody else. *)
Definition cond_notify_all (tp : target_pc) (cp : caller_pc) (notified : bool) : bool :=
  match tp, cp with
  | T_signal e _, C_sleep e' => if (e =? e')%nat then true else notified
  | _, _ => notified
  end.

Inductive wstep : @sys U * bool -> @sys U * bool -> Prop :=
| wstep_caller s n pc w :
    awake (cpc s) n = true ->
    caller_step this self i fn (cpc s) (world s) = Returns pc w ->
    wstep (s, n) (mkSys w pc (tpc s), cond_wait pc n)
| wstep_target s n pc w :
    target_step c worker (tpc s) (world s) = Returns pc w ->
    wstep (s, n) (mkSys w (cpc s) pc, cond_notify_all (tpc s) (cpc s) n).

(** The executable form of [wstep]: [true] schedules the caller. *)
Definition wsched_step (who : bool) (sn : @sys U * bool) : option (@sys U * bool) :=
  let '(s, n) := sn in
  if who then
    if awake (cpc s) n then
      match caller_step this self i fn (cpc s) (world s) with
      | Returns pc w => Some (mkSys w pc (tpc s), cond_wait pc n)
      | _ => None
      end
    else None
  else
    match target_step c worker (tpc s) (world s) with
    | Returns pc w => Some (mkSys w (cpc s) pc, cond_notify_all (tpc s) (cpc s) n)
    | _ => None
    end.

Fixpoint wrun_schedule (sch : list bool) (sn : @sys U * bool)
  : option (@sys U * bool) :=
  match sch with
  | [] => Some sn
  | who :: sch' =>
      match wsched_step who sn with
      | Some sn' => wrun_schedule sch' sn'
      | None => None
      end
  end.

(** The worker has the wrapper of the call ahead of it: in the queue that
    it is about to take, or in hand before it has released the mutex. *)
Definition serving (s : @sys U) : Prop :=
  (idle (tpc s) /\ queue c (world s) [e0]) \/
  tpc s = T_events [e0] \/ tpc s = T_lock e0 [] \/
  tpc s = T_signal e0 [] \/ tpc s = T_unlock e0 [] false.

(** The invariant, with the notification: a caller that sleeps after
    [done] has been set has been notified. *)
Definition winv (p : progress) (sn : @sys U * bool) : Prop :=
  inv_at p sn.1 /\
  (forall e, cpc sn.1 = C_sleep e -> done_of p = true -> sn.2 = true).

End Safety.

End RendezvousSafety.

(** ** os/ObjectStore.cc: [ObjectStore::create] *)

Module StoreCreate.

Import Stdlib.Strings.String.
Local Open Scope string_scope.

(** The store that is built, with the arguments of its constructor ([cct]
    apart); [std::unique_ptr<ObjectStore>] is an [option store], [nullptr]
    being [None]. *)
Inductive store : Type :=
| MemStore (data : string)
| BlueStore (data : string)
| FileStore (data journal : string) (flags : Z)
| KStore (data : string).

Definition data_of (s : store) : string :=
  match s with
  | MemStore d | BlueStore d | FileStore d _ _ | KStore d => d
  end.

Section Build.

(** [#if defined(WITH_BLUESTORE)]. *)
Variable WITH_BLUESTORE : bool.

(** [ObjectStore::create(cct, type, data)]. *)
Definition create (type data : string) : option store :=
  if type =? "memstore" then Some (MemStore data)
  else if WITH_BLUESTORE && ((type =? "bluestore") || (type =? "random"))
  then Some (BlueStore data)
  else None.

(** [ObjectStore::create(cct, type, data, journal, flags)], which exists
    in the builds without [WITH_SEASTAR].  [rand] is what [rand()] returns
    and [kstore_enabled] what
    [cct->check_experimental_feature_enabled("kstore")] returns, should they
    be called. *)
Definition create_journal (rand : Z) (kstore_enabled : bool)
    (type data journal : string) (flags : Z) : option store :=
  if (type =? "filestore") || ((type =? "random") && negb (Z.rem rand 2 =? 0)%Z)
  then Some (FileStore data journal flags)
  else if (type =? "kstore") && kstore_enabled then Some (KStore data)
  else create type data.

End Build.

End StoreCreate.
(** * Properties *)

(** ** The monad *)

Lemma bind_returns {W A B : Type} (m : M W A) (k : A -> M W B) w a w' :
  m w = Returns a w' -> bind m k w = k a w'.
Proof. intros H. unfold bind. now rewrite H. Qed.

Lemma bind_asserts {W A B : Type} (m : M W A) (k : A -> M W B) w :
  m w = Asserts -> bind m k w = Asserts.
Proof. intros H. unfold bind. now rewrite H. Qed.

Lemma bind_blocks {W A B : Type} (m : M W A) (k : A -> M W B) w w' :
  m w = Blocks w' -> bind m k w = Blocks w'.
Proof. intros H. unfold bind. now rewrite H. Qed.

(** The inversion of a bind that returns. *)
Lemma bind_inv_returns {W A B : Type} (m : M W A) (k : A -> M W B) w b w2 :
  bind m k w = Returns b w2 ->
  exists a w1, m w = Returns a w1 /\ k a w1 = Returns b w2.
Proof.
  unfold bind. destruct (m w) as [a w1| | |]; try discriminate.
  intros H. now exists a, w1.
Qed.

(** ** Stores *)

Lemma fresh_addr_unused {V : Type} (m : gmap nat V) : m !! fresh_addr m = None.
Proof.
  destruct (m !! fresh_addr m) as [v|] eqn:E; [|reflexivity].
  exfalso.
  assert (Hin : fresh_addr m ∈ elements (dom m)).
  { apply elem_of_elements, elem_of_dom. now exists v. }
  apply max_list_elem_of_le in Hin. unfold fresh_addr in Hin. lia.
Qed.

Lemma fresh_addr_not_null {V : Type} (m : gmap nat V) : fresh_addr m <> NULL.
Proof. unfold fresh_addr, NULL. lia. Qed.

Lemma set_external_same (c : EventCenter) :
  set_external (external_events c) (external_num_events c) c = c.
Proof. now destruct c. Qed.

Section SubmitFacts.

Context {U : Type}.
Implicit Types (w : World U) (fn : @func U).

Lemma load_center_live w p c :
  ecs w !! p = Some c -> load_center p w = Returns c w.
Proof. intros H. unfold load_center, bind, get, lift, deref. now rewrite H. Qed.

Lemma load_registry_live w p ac :
  acs w !! p = Some ac -> load_registry p w = Returns ac w.
Proof. intros H. unfold load_registry, bind, get, lift, deref. now rewrite H. Qed.

Lemma load_event_live w p (e : C_submit_event U) :
  evs w !! p = Some e -> load_event p w = Returns e w.
Proof. intros H. unfold load_event, bind, get, lift, deref. now rewrite H. Qed.

Lemma load_event_inv w p (e : C_submit_event U) w' :
  load_event p w = Returns e w' -> w' = w /\ evs w !! p = Some e.
Proof.
  unfold load_event, bind, get, lift, deref.
  destruct (evs w !! p); [|discriminate]. intros [= -> ->]. now split.
Qed.

Lemma load_center_inv w p c w' :
  load_center p w = Returns c w' -> w' = w /\ ecs w !! p = Some c.
Proof.
  unfold load_center, bind, get, lift, deref.
  destruct (ecs w !! p); [|discriminate]. intros [= -> ->]. now split.
Qed.

Lemma submit_target_registered w this i c :
  registered_at w this i c -> submit_target this i w = Returns c w.
Proof.
  intros (me & ac & Hme & Hg & Hac & Hi & Hc & Hn).
  unfold submit_target.
  rewrite (bind_returns _ _ _ _ _ (load_center_live _ _ _ Hme)).
  assert (Hb1 : (i <? MAX_EVENTCENTER) = true) by (apply Z.ltb_lt; lia).
  assert (Hb2 : (global_centers me =? NULL)%nat = false) by now apply Nat.eqb_neq.
  rewrite Hb1, Hb2. simpl.
  unfold bind at 1. simpl.
  rewrite (bind_returns _ _ _ _ _ (load_registry_live _ _ _ Hac)).
  unfold centers_at.
  assert (Hb3 : (i <? 0) = false) by (apply Z.ltb_ge; lia).
  rewrite Hb3, Hc.
  unfold bind at 1. simpl.
  assert (Hb4 : (c =? NULL)%nat = false) by now apply Nat.eqb_neq.
  rewrite Hb4. reflexivity.
Qed.

(** Conversely, [submit_to] gets past its assertions only if the index is
    below [MAX_EVENTCENTER] and the slot holds a center. *)
Lemma submit_target_inv w this i c w' :
  submit_target this i w = Returns c w' ->
  w' = w /\ i < MAX_EVENTCENTER /\
  exists me ac,
    ecs w !! this = Some me /\ global_centers me <> NULL /\
    acs w !! global_centers me = Some ac /\
    centers_at ac i = Ok c /\ c <> NULL.
Proof.
  unfold submit_target, load_center, load_registry, bind, get, lift, deref, ret.
  destruct (ecs w !! this) as [me|] eqn:Hme; [|discriminate].
  destruct (i <? MAX_EVENTCENTER) eqn:Hi; simpl; [|discriminate].
  destruct (global_centers me =? NULL)%nat eqn:Hg; simpl; [discriminate|].
  destruct (acs w !! global_centers me) as [ac|] eqn:Hac; [|discriminate].
  destruct (centers_at ac i) as [p| |] eqn:Hc; try discriminate.
  destruct (p =? NULL)%nat eqn:Hp; simpl; [discriminate|].
  intros [= -> ->]. split; [reflexivity|]. split; [now apply Z.ltb_lt|].
  exists me, ac. repeat split; try assumption.
  - now apply Nat.eqb_neq.
  - now apply Nat.eqb_neq.
Qed.

(** The other outcomes of the lookups leave no world behind: a call that
    blocks has passed them. *)
Lemma submit_target_never_blocks w this i w' :
  submit_target this i w <> Blocks w'.
Proof.
  unfold submit_target, load_center, load_registry, bind, get, lift, deref, ret.
  destruct (ecs w !! this) as [me|]; [|discriminate].
  destruct (i <? MAX_EVENTCENTER); simpl; [|discriminate].
  destruct (global_centers me =? NULL)%nat; simpl; [discriminate|].
  destruct (acs w !! global_centers me) as [ac|]; [|discriminate].
  destruct (centers_at ac i) as [p| |]; try discriminate.
  destruct (p =? NULL)%nat; simpl; discriminate.
Qed.

Lemma dispatch_event_external_live w c tc e :
  ecs w !! c = Some tc ->
  dispatch_event_external c e w = Returns tt (dispatched c tc e w).
Proof.
  intros H. unfold dispatch_event_external.
  rewrite (bind_returns _ _ _ _ _ (load_center_live _ _ _ H)).
  reflexivity.
Qed.

(** A dispatch always shows in the self-pipe. *)
Lemma dispatched_pipes_differ c tc e w : pipes (dispatched c tc e w) <> pipes w.
Proof.
  unfold dispatched. simpl. intros Heq.
  assert (H : (<[notify_send_fd tc := S (default 0%nat (pipes w !! notify_send_fd tc))]>
                 (pipes w)) !! notify_send_fd tc = pipes w !! notify_send_fd tc)
    by now rewrite Heq.
  rewrite lookup_insert_eq in H.
  destruct (pipes w !! notify_send_fd tc) as [n|]; simpl in H; [|discriminate].
  injection H. lia.
Qed.

End SubmitFacts.

(** ** [submit_to], path by path *)

Section SubmitPaths.

Context {U : Type}.
Implicit Types (w : World U) (fn : @func U).

(** The world after the construction of a wrapper at a fresh address. *)
Lemma new_C_submit_event_fresh w fn nowait :
  new_C_submit_event fn nowait w =
  Returns (fresh_addr (evs w))
          (set_evs (<[fresh_addr (evs w) := C_submit_event_ctor fn nowait]> (evs w)) w).
Proof. reflexivity. Qed.

(** [always_async]: the wrapper is allocated, queued, and the call returns. *)
Lemma submit_to_async w this self i fn c tc :
  registered_at w this i c ->
  ecs w !! c = Some tc ->
  submit_to this self i fn true w =
  Returns tt (dispatched c tc (fresh_addr (evs w))
                (set_evs (<[fresh_addr (evs w) := C_submit_event_ctor fn true]> (evs w)) w)).
Proof.
  intros Hreg Hc. unfold submit_to.
  rewrite (bind_returns _ _ _ _ _ (submit_target_registered _ _ _ _ Hreg)).
  rewrite (bind_returns _ _ _ _ _ (new_C_submit_event_fresh _ _ _)).
  now apply dispatch_event_external_live.
Qed.

(** Not [always_async], on the owning thread: the callable runs in place. *)
Lemma submit_to_inline w this self i fn c tc :
  registered_at w this i c ->
  ecs w !! c = Some tc ->
  in_thread self tc = true ->
  submit_to this self i fn false w = Returns tt (set_shared (fn (shared w)) w).
Proof.
  intros Hreg Hc Hin. unfold submit_to.
  rewrite (bind_returns _ _ _ _ _ (submit_target_registered _ _ _ _ Hreg)).
  rewrite (bind_returns _ _ _ _ _ (load_center_live _ _ _ Hc)).
  now rewrite Hin.
Qed.

(** [wait] on a wrapper whose mutex is free. *)
Lemma wait_unlocked w e (ev : C_submit_event U) self :
  evs w !! e = Some ev ->
  lock ev = None ->
  wait e self w =
  if nonwait ev then Asserts
  else if done ev
       then Returns tt (set_evs (<[e := mkC_submit_event None true (f ev) false]> (evs w)) w)
       else Blocks (set_evs (<[e := mkC_submit_event None false (f ev) false]> (evs w)) w).
Proof.
  intros He Hl. unfold wait.
  rewrite (bind_returns _ _ _ _ _ (load_event_live _ _ _ He)).
  destruct (nonwait ev) eqn:Hn; [reflexivity|].
  unfold bind at 1. simpl.
  unfold mutex_lock, mutex_unlock, store_event, load_event, bind, get, put, lift, deref, block.
  rewrite He, Hl. simpl. rewrite lookup_insert_eq. simpl.
  destruct (done ev) eqn:Hd; simpl; rewrite lookup_insert_eq; simpl;
    rewrite insert_insert_eq; unfold set_evs; simpl; now rewrite Hn.
Qed.

(** Not [always_async], from another thread: the wrapper is queued and the
    caller is suspended in [wait]. *)
Lemma submit_to_remote w this self i fn c tc :
  registered_at w this i c ->
  ecs w !! c = Some tc ->
  in_thread self tc = false ->
  submit_to this self i fn false w =
  Blocks (dispatched c tc (fresh_addr (evs w))
            (set_evs (<[fresh_addr (evs w) := C_submit_event_ctor fn false]> (evs w)) w)).
Proof.
  intros Hreg Hc Hin. unfold submit_to.
  rewrite (bind_returns _ _ _ _ _ (submit_target_registered _ _ _ _ Hreg)).
  rewrite (bind_returns _ _ _ _ _ (load_center_live _ _ _ Hc)).
  rewrite Hin.
  rewrite (bind_returns _ _ _ _ _ (new_C_submit_event_fresh _ _ _)).
  set (e := fresh_addr (evs w)).
  set (w1 := set_evs _ w).
  assert (Hc1 : ecs w1 !! c = Some tc) by exact Hc.
  rewrite (bind_returns _ _ _ _ _ (dispatch_event_external_live _ _ _ e Hc1)).
  apply bind_blocks.
  assert (He : evs (dispatched c tc e w1) !! e = Some (C_submit_event_ctor fn false)).
  { unfold dispatched, w1. simpl. apply lookup_insert_eq. }
  rewrite (wait_unlocked _ _ _ _ He eq_refl). simpl.
  f_equal. unfold dispatched, w1, set_evs, set_pipes, set_ecs. simpl.
  now rewrite insert_insert_eq.
Qed.

(** [do_request] on a wrapper whose mutex is free. *)
Lemma do_request_unlocked w e (ev : C_submit_event U) self x :
  evs w !! e = Some ev ->
  lock ev = None ->
  do_request e self x w =
  Returns tt
    (mkWorld (ecs w) (acs w)
       (if nonwait ev then delete e (evs w)
        else <[e := mkC_submit_event None true (f ev) false]> (evs w))
       (pipes w) (f ev (shared w))).
Proof.
  intros He Hl.
  unfold do_request, do_request_call, do_request_signal, do_request_release,
    set_done, mutex_lock, mutex_unlock, destroy, call, store_event, load_event,
    bind, get, put, lift, deref, ret, set_evs, set_shared.
  repeat (simpl; first [rewrite He | rewrite Hl | rewrite lookup_insert_eq]).
  destruct (nonwait ev) eqn:Hn; simpl.
  - now rewrite !delete_insert_eq.
  - now rewrite !insert_insert_eq.
Qed.

End SubmitPaths.

Lemma bind_inv_blocks {W A B : Type} (m : M W A) (k : A -> M W B) w w2 :
  bind m k w = Blocks w2 ->
  m w = Blocks w2 \/ exists a w1, m w = Returns a w1 /\ k a w1 = Blocks w2.
Proof.
  unfold bind. destruct (m w) as [a w1|w1| |] eqn:E; try discriminate.
  - intros H. right. exists a, w1. split; [reflexivity|exact H].
  - intros [= ->]. now left.
Qed.

(** The example process is registered as the lemmas need it. *)
Lemma example_registered_0 : registered_at Scenario.world0 1 0 1.
Proof.
  exists Scenario.center0, Scenario.registry.
  repeat split; try reflexivity; try discriminate; unfold MAX_EVENTCENTER; lia.
Qed.

Lemma example_registered_1 : registered_at Scenario.world0 1 1 2.
Proof.
  exists Scenario.center0, Scenario.registry.
  repeat split; try reflexivity; try discriminate; unfold MAX_EVENTCENTER; lia.
Qed.

(** ** C3 *)

(** C3. [submit_to(i, f)] with the default [always_async = false], called on
    the thread that owns center [i], returns after running [f] in place: the
    shared state is [f] of what it was, and no center, pipe or callback
    object has changed, so the external queue was not touched and nothing
    was written to the self-pipe ([dispatch_event_external] would have
    changed both). *)
Theorem submit_to_default_on_own_thread {U : Type} (w : World U)
    (this : nat) (self : pthread_t) (i : Z) (fn : @func U) (c : nat) (tc : EventCenter) :
  registered_at w this i c ->
  ecs w !! c = Some tc ->
  in_thread self tc = true ->
  exists w',
    submit_to this self i fn false w = Returns tt w' /\
    shared w' = fn (shared w) /\
    ecs w' = ecs w /\ pipes w' = pipes w /\ evs w' = evs w /\ acs w' = acs w /\
    forall t tt' e w1, pipes w1 = pipes w -> w' <> dispatched t tt' e w1.
Proof.
  intros Hreg Hc Hin.
  exists (set_shared (fn (shared w)) w).
  split; [now apply (submit_to_inline w this self i fn c tc)|].
  repeat split.
  intros t tt' e w1 Hp Heq.
  apply (dispatched_pipes_differ t tt' e w1).
  rewrite <- Heq. simpl. now rewrite Hp.
Qed.

Lemma submit_to_default_on_own_thread_witness :
  exists w',
    submit_to 1 100 0 Scenario.incr false Scenario.world0 = Returns tt w' /\
    shared w' = 1%nat /\
    ecs w' = ecs Scenario.world0 /\ pipes w' = pipes Scenario.world0 /\
    evs w' = evs Scenario.world0 /\ acs w' = acs Scenario.world0 /\
    forall t tt' e w1, pipes w1 = pipes Scenario.world0 -> w' <> dispatched t tt' e w1.
Proof.
  apply (submit_to_default_on_own_thread Scenario.world0 1 100 0 Scenario.incr 1
           Scenario.center0).
  - exact example_registered_0.
  - reflexivity.
  - reflexivity.
Defined.

(** ** C1 *)

(** C1, as stated, fails: center 0 of the example is owned by thread 100;
    when that thread calls [submit_to(0, incr, true)] the counter is not
    incremented in place. *)
Lemma submit_to_always_async_on_own_thread_not_in_place :
  registered_at Scenario.world0 1 0 1 /\
  ecs Scenario.world0 !! 1%nat = Some Scenario.center0 /\
  in_thread 100 Scenario.center0 = true /\
  ~ runs_in_place 1 100 0 Scenario.incr true Scenario.world0.
Proof.
  split; [exact example_registered_0|].
  split; [reflexivity|]. split; [reflexivity|].
  intros (w' & Hrun & Hsh & _).
  rewrite (submit_to_async Scenario.world0 1 100 0 Scenario.incr 1 Scenario.center0
             example_registered_0 eq_refl) in Hrun.
  injection Hrun as <-. simpl in Hsh. discriminate.
Qed.

(** C1, amended.  On the thread that owns center [i]: with
    [always_async = false] the callable runs in place, no external queue is
    appended to and no pipe is written; with [always_async = true] it does
    not run in place: it is wrapped in a new C_submit_event (nonwait), the
    wrapper is handed to [dispatch_event_external] of the center, which
    appends it to the external queue, and the shared state is as before
    when the call returns. *)
Theorem submit_to_on_own_thread {U : Type} (w : World U)
    (this : nat) (self : pthread_t) (i : Z) (fn : @func U) (c : nat) (tc : EventCenter)
    (always_async : bool) :
  registered_at w this i c ->
  ecs w !! c = Some tc ->
  in_thread self tc = true ->
  if always_async then
    exists e w',
      submit_to this self i fn true w = Returns tt w' /\
      evs w !! e = None /\
      dispatch_event_external c e
        (set_evs (<[e := C_submit_event_ctor fn true]> (evs w)) w) = Returns tt w' /\
      (exists tc', ecs w' !! c = Some tc' /\
                   external_events tc' = external_events tc ++ [e]) /\
      shared w' = shared w
  else runs_in_place this self i fn false w.
Proof.
  intros Hreg Hc Hin. destruct always_async.
  - exists (fresh_addr (evs w)). eexists. split.
    + now apply (submit_to_async w this self i fn c tc).
    + split; [apply fresh_addr_unused|].
      split; [now apply dispatch_event_external_live|].
      split; [|reflexivity].
      eexists. split; [simpl; apply lookup_insert_eq|reflexivity].
  - exists (set_shared (fn (shared w)) w).
    split; [now apply (submit_to_inline w this self i fn c tc)|].
    now repeat split.
Qed.

Lemma submit_to_on_own_thread_witness :
  (exists e w',
      submit_to 1 100 0 Scenario.incr true Scenario.world0 = Returns tt w' /\
      evs Scenario.world0 !! e = None /\
      dispatch_event_external 1 e
        (set_evs (<[e := C_submit_event_ctor Scenario.incr true]> (evs Scenario.world0))
                 Scenario.world0) = Returns tt w' /\
      (exists tc', ecs w' !! 1%nat = Some tc' /\
                   external_events tc' = external_events Scenario.center0 ++ [e]) /\
      shared w' = shared Scenario.world0) /\
  runs_in_place 1 100 0 Scenario.incr false Scenario.world0.
Proof.
  split.
  - apply (submit_to_on_own_thread Scenario.world0 1 100 0 Scenario.incr 1
             Scenario.center0 true);
      [exact example_registered_0 | reflexivity | reflexivity].
  - apply (submit_to_on_own_thread Scenario.world0 1 100 0 Scenario.incr 1
             Scenario.center0 false);
      [exact example_registered_0 | reflexivity | reflexivity].
Defined.

(** ** C4 *)

(** C4. [submit_to(i, f, true)], from any thread: a new C_submit_event
    holding [f], with [nonwait = true], is allocated at an address [e] that
    was free; [e] is handed to [dispatch_event_external] of the target
    center, which puts it at the end of the external queue; the call
    returns (it does not block) with the shared state untouched, so [f] has
    not run.  Whenever [do_request] later runs on that wrapper, it returns
    after applying [f] once to the shared state, and the wrapper is gone
    from the store. *)
Theorem submit_to_always_async_wraps {U : Type} (w : World U)
    (this : nat) (self : pthread_t) (i : Z) (fn : @func U) (c : nat) (tc : EventCenter) :
  registered_at w this i c ->
  ecs w !! c = Some tc ->
  exists e w',
    submit_to this self i fn true w = Returns tt w' /\
    e <> NULL /\ evs w !! e = None /\
    dispatch_event_external c e
      (set_evs (<[e := C_submit_event_ctor fn true]> (evs w)) w) = Returns tt w' /\
    evs w' = <[e := C_submit_event_ctor fn true]> (evs w) /\
    (exists tc', ecs w' !! c = Some tc' /\
                 external_events tc' = external_events tc ++ [e]) /\
    shared w' = shared w /\
    forall (w1 : World U) (worker : pthread_t) (x : Z),
      evs w1 !! e = Some (C_submit_event_ctor fn true) ->
      exists w2,
        do_request e worker x w1 = Returns tt w2 /\
        shared w2 = fn (shared w1) /\
        evs w2 = delete e (evs w1) /\ evs w2 !! e = None /\
        ecs w2 = ecs w1 /\ pipes w2 = pipes w1.
Proof.
  intros Hreg Hc.
  exists (fresh_addr (evs w)). eexists.
  split; [now apply (submit_to_async w this self i fn c tc)|].
  split; [apply fresh_addr_not_null|].
  split; [apply fresh_addr_unused|].
  split; [now apply dispatch_event_external_live|].
  split; [reflexivity|].
  split; [eexists; split; [simpl; apply lookup_insert_eq|reflexivity]|].
  split; [reflexivity|].
  intros w1 worker x He.
  eexists. split; [now apply (do_request_unlocked w1 _ _ worker x He)|].
  simpl. repeat split. apply lookup_delete_eq.
Qed.

Lemma submit_to_always_async_wraps_witness :
  exists e w',
    submit_to 1 300 1 Scenario.incr true Scenario.world0 = Returns tt w' /\
    e <> NULL /\ evs Scenario.world0 !! e = None /\
    dispatch_event_external 2 e
      (set_evs (<[e := C_submit_event_ctor Scenario.incr true]> (evs Scenario.world0))
               Scenario.world0) = Returns tt w' /\
    evs w' = <[e := C_submit_event_ctor Scenario.incr true]> (evs Scenario.world0) /\
    (exists tc', ecs w' !! 2%nat = Some tc' /\
                 external_events tc' = external_events Scenario.center1 ++ [e]) /\
    shared w' = shared Scenario.world0 /\
    forall (w1 : World nat) (worker : pthread_t) (x : Z),
      evs w1 !! e = Some (C_submit_event_ctor Scenario.incr true) ->
      exists w2,
        do_request e worker x w1 = Returns tt w2 /\
        shared w2 = Scenario.incr (shared w1) /\
        evs w2 = delete e (evs w1) /\ evs w2 !! e = None /\
        ecs w2 = ecs w1 /\ pipes w2 = pipes w1.
Proof.
  apply (submit_to_always_async_wraps Scenario.world0 1 300 1 Scenario.incr 2
           Scenario.center1).
  - exact example_registered_1.
  - reflexivity.
Defined.

(** ** C7 *)

Lemma registered_bound (ac : AssociatedCenters) :
  Z.of_nat (registered ac) <= MAX_EVENTCENTER.
Proof.
  unfold registered. rewrite <- (centers_size ac).
  apply inj_le, length_filter.
Qed.

(** C7. [MAX_EVENTCENTER] is 24; a freshly constructed AssociatedCenters has
    exactly that many slots, all null; every registry has that many slots
    and so at most 24 registered centers; a [submit_to(i, ...)] that gets
    past its assertions (it returns or blocks) had [i < MAX_EVENTCENTER]
    and a non-null center in slot [i]; with [i >= MAX_EVENTCENTER], or with
    a null slot [i], the assertion fails. *)
Theorem registry_capacity_and_submit_to_assertions :
  MAX_EVENTCENTER = 24 /\
  Z.of_nat (length (centers AssociatedCenters_ctor)) = MAX_EVENTCENTER /\
  Forall (fun p => p = NULL) (centers AssociatedCenters_ctor) /\
  (forall ac : AssociatedCenters,
     Z.of_nat (length (centers ac)) = MAX_EVENTCENTER /\
     Z.of_nat (registered ac) <= MAX_EVENTCENTER) /\
  (forall (U : Type) (w w' : World U) this self i (fn : @func U) always_async,
     submit_to this self i fn always_async w = Returns tt w' \/
     submit_to this self i fn always_async w = Blocks w' ->
     i < MAX_EVENTCENTER /\
     exists me ac c,
       ecs w !! this = Some me /\ global_centers me <> NULL /\
       acs w !! global_centers me = Some ac /\
       centers_at ac i = Ok c /\ c <> NULL) /\
  (forall (U : Type) (w : World U) this self i (fn : @func U) always_async me,
     ecs w !! this = Some me ->
     MAX_EVENTCENTER <= i ->
     submit_to this self i fn always_async w = Asserts) /\
  (forall (U : Type) (w : World U) this self i (fn : @func U) always_async me ac,
     ecs w !! this = Some me ->
     acs w !! global_centers me = Some ac ->
     centers_at ac i = Ok NULL ->
     submit_to this self i fn always_async w = Asserts).
Proof.
  split; [reflexivity|].
  split; [reflexivity|].
  split; [apply Forall_forall; intros p Hp; now apply elem_of_replicate in Hp|].
  split; [intros ac; split; [apply centers_size|apply registered_bound]|].
  split; [|split].
  - intros U w w' this self i fn aa H.
    assert (Ht : exists c w1, submit_target this i w = Returns c w1).
    { unfold submit_to in H. destruct H as [H|H].
      - apply bind_inv_returns in H as (c & w1 & H1 & _). now exists c, w1.
      - apply bind_inv_blocks in H as [H|(c & w1 & H1 & _)].
        + now apply submit_target_never_blocks in H.
        + now exists c, w1. }
    destruct Ht as (c & w1 & Ht).
    apply submit_target_inv in Ht as (_ & Hi & me & ac & Hme & Hg & Hac & Hc & Hn).
    split; [exact Hi|]. now exists me, ac, c.
  - intros U w this self i fn aa me Hme Hi.
    unfold submit_to. apply bind_asserts. unfold submit_target.
    rewrite (bind_returns _ _ _ _ _ (load_center_live _ _ _ Hme)).
    apply bind_asserts.
    assert (Hb : (i <? MAX_EVENTCENTER) = false) by (apply Z.ltb_ge; lia).
    now rewrite Hb.
  - intros U w this self i fn aa me ac Hme Hac Hc.
    unfold submit_to. apply bind_asserts. unfold submit_target.
    rewrite (bind_returns _ _ _ _ _ (load_center_live _ _ _ Hme)).
    destruct ((i <? MAX_EVENTCENTER) && negb (global_centers me =? NULL)%nat) eqn:Hb;
      [|now apply bind_asserts].
    unfold bind at 1. simpl.
    rewrite (bind_returns _ _ _ _ _ (load_registry_live _ _ _ Hac)).
    rewrite Hc. reflexivity.
Qed.

Lemma registry_capacity_and_submit_to_assertions_witness :
  (0 < MAX_EVENTCENTER /\
   exists me ac c,
     ecs Scenario.world0 !! 1%nat = Some me /\ global_centers me <> NULL /\
     acs Scenario.world0 !! global_centers me = Some ac /\
     centers_at ac 0 = Ok c /\ c <> NULL) /\
  submit_to 1 100 24 Scenario.incr false Scenario.world0 = Asserts /\
  submit_to 1 100 2 Scenario.incr true Scenario.world0 = Asserts.
Proof.
  split; [|split].
  - apply (proj1 (proj2 (proj2 (proj2 (proj2
             registry_capacity_and_submit_to_assertions))))
             nat Scenario.world0 (set_shared 1%nat Scenario.world0) 1%nat 100 0
             Scenario.incr false).
    left. reflexivity.
  - apply (proj1 (proj2 (proj2 (proj2 (proj2 (proj2
             registry_capacity_and_submit_to_assertions)))))
             nat Scenario.world0 1%nat 100 24 Scenario.incr false Scenario.center0).
    + reflexivity.
    + unfold MAX_EVENTCENTER. lia.
  - apply (proj2 (proj2 (proj2 (proj2 (proj2 (proj2
             registry_capacity_and_submit_to_assertions)))))
             nat Scenario.world0 1%nat 100 2 Scenario.incr true Scenario.center0
             Scenario.registry).
    + reflexivity.
    + reflexivity.
    + reflexivity.
Defined.

(** ** C9 *)

Lemma mutex_lock_cases {U : Type} (w : World U) (e : nat) (ev : C_submit_event U)
    (self : pthread_t) :
  evs w !! e = Some ev ->
  mutex_lock e self w =
  match lock ev with
  | None =>
      Returns tt (set_evs (<[e := mkC_submit_event (Some self) (done ev) (f ev) (nonwait ev)]>
                             (evs w)) w)
  | Some t => if t =? self then Undef else Blocks w
  end.
Proof.
  intros He. unfold mutex_lock.
  rewrite (bind_returns _ _ _ _ _ (load_event_live _ _ _ He)).
  destruct (lock ev) as [t|]; [destruct (t =? self)|]; reflexivity.
Qed.

Lemma mutex_unlock_live {U : Type} (w : World U) (e : nat) (ev : C_submit_event U) :
  evs w !! e = Some ev ->
  mutex_unlock e w =
  Returns tt (set_evs (<[e := mkC_submit_event None (done ev) (f ev) (nonwait ev)]> (evs w)) w).
Proof.
  intros He. unfold mutex_unlock.
  now rewrite (bind_returns _ _ _ _ _ (load_event_live _ _ _ He)).
Qed.

Lemma wait_asserts_iff {U : Type} (w : World U) (e : nat) (self : pthread_t) :
  wait e self w = Asserts <-> exists ev, evs w !! e = Some ev /\ nonwait ev = true.
Proof.
  destruct (evs w !! e) as [ev|] eqn:He.
  - unfold wait. rewrite (bind_returns _ _ _ _ _ (load_event_live _ _ _ He)).
    destruct (nonwait ev) eqn:Hn.
    + split; [intros _; now exists ev|reflexivity].
    + split; [|intros (ev' & [= <-] & Hn'); congruence].
      intros H. exfalso. revert H.
      unfold bind at 1. simpl. unfold bind at 1.
      rewrite (mutex_lock_cases _ _ _ self He).
      destruct (lock ev) as [t|]; [destruct (t =? self); discriminate|].
      set (ev1 := mkC_submit_event _ _ _ _). set (w1 := set_evs _ w).
      assert (He1 : evs w1 !! e = Some ev1) by apply lookup_insert_eq.
      rewrite (bind_returns _ _ _ _ _ (load_event_live _ _ _ He1)).
      destruct (done ev1).
      * now rewrite (mutex_unlock_live _ _ _ He1).
      * unfold bind. now rewrite (mutex_unlock_live _ _ _ He1).
  - split.
    + unfold wait, load_event, bind, get, lift, deref. now rewrite He.
    + intros (ev & H & _). discriminate.
Qed.

(** C9. [wait()] fails its assertion exactly on a live wrapper whose
    [nonwait] is true.  The wrapper that [submit_to] builds when
    [always_async] is true is such a wrapper, and [submit_to] does not call
    [wait] on it; on the synchronous path the wrapper has [nonwait = false]
    and the call does not end in a failed assertion. *)
Theorem wait_only_on_synchronous_wrappers :
  (forall (U : Type) (w : World U) (e : nat) (self : pthread_t),
     wait e self w = Asserts <->
     exists ev, evs w !! e = Some ev /\ nonwait ev = true) /\
  (forall (U : Type) (w : World U) this self i (fn : @func U) c tc,
     registered_at w this i c ->
     ecs w !! c = Some tc ->
     (exists e w',
        submit_to this self i fn true w = Returns tt w' /\
        evs w' !! e = Some (C_submit_event_ctor fn true) /\
        forall t, wait e t w' = Asserts) /\
     submit_to this self i fn false w <> Asserts).
Proof.
  split; [intros; apply wait_asserts_iff|].
  intros U w this self i fn c tc Hreg Hc. split.
  - exists (fresh_addr (evs w)). eexists.
    split; [now apply (submit_to_async w this self i fn c tc)|].
    assert (He : evs (dispatched c tc (fresh_addr (evs w))
                   (set_evs (<[fresh_addr (evs w) := C_submit_event_ctor fn true]> (evs w)) w))
                 !! fresh_addr (evs w) = Some (C_submit_event_ctor fn true))
      by (simpl; apply lookup_insert_eq).
    split; [exact He|].
    intros t. apply wait_asserts_iff. eexists. split; [exact He|reflexivity].
  - destruct (in_thread self tc) eqn:Hin.
    + now rewrite (submit_to_inline w this self i fn c tc Hreg Hc Hin).
    + now rewrite (submit_to_remote w this self i fn c tc Hreg Hc Hin).
Qed.

Lemma wait_only_on_synchronous_wrappers_witness :
  (exists e w',
     submit_to 1 100 1 Scenario.incr true Scenario.world0 = Returns tt w' /\
     evs w' !! e = Some (C_submit_event_ctor Scenario.incr true) /\
     forall t, wait e t w' = Asserts) /\
  submit_to 1 100 1 Scenario.incr false Scenario.world0 <> Asserts.
Proof.
  apply (proj2 wait_only_on_synchronous_wrappers nat Scenario.world0 1%nat 100 1
           Scenario.incr 2%nat Scenario.center1).
  - exact example_registered_1.
  - reflexivity.
Defined.

(** ** C10 *)

(** C10. [_get_file_event(fd)] fails its assertion exactly when [fd] is not
    below [nevent]; it takes no other argument and returns no center, so
    the table is as it was.  When [fd < nevent] it returns the pointer to
    entry [fd] of the table, and that pointer reads entry [fd] whenever
    [fd] is a descriptor (not negative) and the table has [nevent] entries. *)
Theorem get_file_event_asserts_below_capacity (c : EventCenter) (fd : Z) :
  (_get_file_event c fd = AssertFailed <-> nevent c <= fd) /\
  (fd < nevent c ->
   _get_file_event c fd = Ok fd /\
   (0 <= fd -> Z.of_nat (length (file_events c)) = nevent c ->
    exists fe, file_events c !! Z.to_nat fd = Some fe /\
               rbind (_get_file_event c fd) (load_file_event c) = Ok fe)).
Proof.
  unfold _get_file_event, ceph_assert. split.
  - destruct (fd <? nevent c) eqn:H; simpl.
    + apply Z.ltb_lt in H. split; [discriminate|lia].
    + apply Z.ltb_ge in H. split; [intros _; exact H|reflexivity].
  - intros Hlt. apply Z.ltb_lt in Hlt as Hb. rewrite Hb. simpl.
    split; [reflexivity|]. intros H0 Hlen.
    destruct (file_events c !! Z.to_nat fd) as [fe|] eqn:Hfe.
    + exists fe. split; [reflexivity|].
      unfold load_file_event. rewrite Hfe.
      assert (Hn : (fd <? 0) = false) by (apply Z.ltb_ge; lia).
      now rewrite Hn.
    + apply lookup_ge_None in Hfe. lia.
Qed.

Lemma get_file_event_asserts_below_capacity_witness :
  _get_file_event Scenario.center0 3 = Ok 3 /\
  exists fe, file_events Scenario.center0 !! Z.to_nat 3 = Some fe /\
             rbind (_get_file_event Scenario.center0 3) (load_file_event Scenario.center0)
             = Ok fe.
Proof.
  destruct (proj2 (get_file_event_asserts_below_capacity Scenario.center0 3)) as [H1 H2].
  - simpl. lia.
  - split; [exact H1|]. apply H2.
    + lia.
    + reflexivity.
Defined.

(** ** Timers *)

Module TimerFacts.

Import Timer.

Lemma delete_time_event_unknown (i : Z) (c : EventCenter) :
  event_map c !! i = None -> delete_time_event i c = c.
Proof. intros H. unfold delete_time_event. now rewrite H. Qed.

Lemma delete_time_event_forgets (i : Z) (c : EventCenter) :
  event_map (delete_time_event i c) !! i = None.
Proof.
  unfold delete_time_event.
  destruct (event_map c !! i) as [it|] eqn:H; [|exact H].
  simpl. apply lookup_delete_eq.
Qed.

(** C6. [delete_time_event(id)] is a total function of the center: it
    raises nothing.  When [id] is not in the id-to-position index (never
    issued, already fired, already deleted) the center is returned as it
    was; after a call the id is not in the index, so a second call changes
    nothing. *)
Theorem delete_time_event_idempotent (i : Z) (c : EventCenter) :
  (event_map c !! i = None -> delete_time_event i c = c) /\
  event_map (delete_time_event i c) !! i = None /\
  delete_time_event i (delete_time_event i c) = delete_time_event i c.
Proof.
  split; [apply delete_time_event_unknown|].
  split; [apply delete_time_event_forgets|].
  apply delete_time_event_unknown, delete_time_event_forgets.
Qed.

Lemma delete_time_event_idempotent_witness :
  delete_time_event 99 Scenario.timers0 = Scenario.timers0 /\
  time_events (delete_time_event 2 Scenario.timers0) <> time_events Scenario.timers0 /\
  delete_time_event 2 (delete_time_event 2 Scenario.timers0)
  = delete_time_event 2 Scenario.timers0.
Proof.
  split; [|split].
  - apply (proj1 (delete_time_event_idempotent 99 Scenario.timers0)). reflexivity.
  - discriminate.
  - apply (proj2 (proj2 (delete_time_event_idempotent 2 Scenario.timers0))).
Defined.

(** *** The walk over the expired timers *)

Section WalkFacts.

Variable run : EventCallbackRef -> Z -> EventCenter -> EventCenter.

Lemma expired_cons_due now c d e rest :
  time_events c = (d, e) :: rest ->
  d <= now ->
  expired now c =
  S (expired now (set_timers rest (delete (id e) (event_map c)) (time_event_next_id c) c)).
Proof.
  intros Hc Hd. unfold expired. rewrite Hc. simpl.
  rewrite filter_cons_True by exact Hd. reflexivity.
Qed.

Lemma first_firing_removed now c d e rest :
  time_events c = (d, e) :: rest ->
  d <= now ->
  removed_before_invoked now
    (mkFiring d e c
       (set_timers rest (delete (id e) (event_map c)) (time_event_next_id c) c)).
Proof.
  intros Hc Hd. unfold removed_before_invoked. simpl.
  split; [exact Hd|]. split; [exact Hc|].
  split.
  { rewrite Hc. intros Hs. apply StronglySorted_inv in Hs as [_ Hall].
    exact Hall. }
  split; [reflexivity|].
  split; [apply lookup_delete_eq|].
  split.
  - apply delete_time_event_unknown. simpl. apply lookup_delete_eq.
  - unfold timer_ids. simpl. rewrite Hc. simpl. intros Hnd.
    now apply NoDup_cons in Hnd as [Hnotin _].
Qed.

(** Whatever the callbacks do, a walk that ends has fired only entries
    that it had removed first, has invoked each callback on the center
    without the entry and gone on from what the callback returned, and ends
    before a timer that is not due. *)
Lemma loop_sound now fuel :
  forall c n log n' log' c',
    process_time_events_loop run fuel now c n log = Some (n', log', c') ->
    exists tr, log' = log ++ tr /\ n' = n + Z.of_nat (length tr) /\
      Forall (removed_before_invoked now) tr /\
      chained run c tr c' /\ stops_at_future now c'.
Proof.
  induction fuel as [|fuel IH]; intros c n log n' log' c' H; [discriminate|].
  simpl in H. destruct (time_events c) as [|[d e] rest] eqn:Hc.
  - injection H as <- <- <-. exists []. rewrite app_nil_r. simpl.
    split; [reflexivity|]. split; [lia|]. split; [constructor|].
    split; [reflexivity|].
    unfold stops_at_future. now rewrite Hc.
  - destruct (d <=? now) eqn:Hd.
    + apply Z.leb_le in Hd.
      apply IH in H as (tr & -> & -> & Hall & Hchain & Hstop).
      exists (mkFiring d e c
                (set_timers rest (delete (id e) (event_map c)) (time_event_next_id c) c)
              :: tr).
      rewrite <- app_assoc. simpl.
      split; [reflexivity|]. split; [lia|]. split; [|split; [|exact Hstop]].
      * constructor; [|exact Hall]. now apply first_firing_removed.
      * split; [reflexivity|exact Hchain].
    + apply Z.leb_gt in Hd. injection H as <- <- <-. exists [].
      rewrite app_nil_r. simpl.
      split; [reflexivity|]. split; [lia|]. split; [constructor|].
      split; [reflexivity|].
      unfold stops_at_future. now rewrite Hc.
Qed.

(** With callbacks that add no timer that is already due, the walk ends
    within as many iterations as there are due timers, plus one. *)
Lemma loop_total now :
  (forall cb i c0, (expired now (run cb i c0) <= expired now c0)%nat) ->
  forall fuel c n log,
    (expired now c < fuel)%nat ->
    exists r, process_time_events_loop run fuel now c n log = Some r.
Proof.
  intros Hrun fuel. induction fuel as [|fuel IH]; intros c n log Hf; [lia|].
  simpl. destruct (time_events c) as [|[d e] rest] eqn:Hc; [eauto|].
  destruct (d <=? now) eqn:Hd; [|eauto].
  apply Z.leb_le in Hd. apply IH.
  pose proof (expired_cons_due now c d e rest Hc Hd) as He.
  pose proof (Hrun (time_cb e) (id e)
    (set_timers rest (delete (id e) (event_map c)) (time_event_next_id c) c)) as Hle.
  lia.
Qed.

End WalkFacts.

(** C5. The walk over the expired timers of one tick.  Whatever the
    callbacks do to their center (create timers, delete timers): if the
    walk ends, its result counts the callbacks invoked, and the invocations
    form a chain from the center the walk was called on to the center it
    returns: each one is of the first entry of the deadline-ordered
    collection as the callback before it left it, with deadline <= now; the
    callback is invoked on that center with the entry already removed from
    the multimap and from the id-to-position index (a lookup of the id finds
    nothing and [delete_time_event] of the id changes nothing), and the walk
    goes on from the center that the callback returns.  The walk stops with
    no timer left or before an entry whose deadline is after now.  And the
    walk does end when the callbacks add no timer that is already due: as
    many iterations as there are due timers, plus one, are enough. *)
Theorem process_time_events_removes_before_invoking
    (run : EventCallbackRef -> Z -> EventCenter -> EventCenter)
    (now : time_point) (fuel : nat) (c : EventCenter) :
  (forall n tr c',
     process_time_events run fuel now c = Some (n, tr, c') ->
     n = Z.of_nat (length tr) /\
     Forall (removed_before_invoked now) tr /\
     chained run c tr c' /\
     stops_at_future now c') /\
  ((forall cb i c0, (expired now (run cb i c0) <= expired now c0)%nat) ->
   (expired now c < fuel)%nat ->
   exists n tr c', process_time_events run fuel now c = Some (n, tr, c')).
Proof.
  split.
  - intros n tr c' H. unfold process_time_events in H.
    apply loop_sound in H as (tr' & -> & -> & Hall & Hchain & Hstop).
    now repeat split.
  - intros Hrun Hf.
    destruct (loop_total run now Hrun fuel c 0 [] Hf) as [[[n tr] c'] H].
    now exists n, tr, c'.
Qed.

(** A callback that schedules again after [now] adds no due timer. *)
Lemma multimap_insert_future now d e l :
  now < d ->
  length (filter (fun p : time_point * TimeEvent => p.1 <= now) (multimap_insert d e l))
  = length (filter (fun p : time_point * TimeEvent => p.1 <= now) l).
Proof.
  intros Hd. induction l as [|[d' e'] r IH]; simpl.
  - rewrite filter_cons_False by (simpl; lia). reflexivity.
  - destruct (d' <=? d) eqn:Hle.
    + destruct (decide (d' <= now)) as [Hn|Hn].
      * rewrite !filter_cons_True by exact Hn. simpl. now rewrite IH.
      * rewrite !filter_cons_False by exact Hn. exact IH.
    + rewrite filter_cons_False by (simpl; lia). reflexivity.
Qed.

Lemma rescheduling_adds_no_due_timer cb i c0 :
  (expired 10%Z (Scenario.rescheduling cb i c0) <= expired 10%Z c0)%nat.
Proof.
  unfold expired, Scenario.rescheduling, create_time_event. simpl.
  rewrite multimap_insert_future by lia. apply le_n.
Qed.

Lemma process_time_events_removes_before_invoking_witness :
  exists n tr c',
    process_time_events Scenario.rescheduling 4 10 Scenario.timers0 = Some (n, tr, c') /\
    n = Z.of_nat (length tr) /\
    Forall (removed_before_invoked 10) tr /\
    chained Scenario.rescheduling Scenario.timers0 tr c' /\
    stops_at_future 10 c'.
Proof.
  destruct (process_time_events_removes_before_invoking
              Scenario.rescheduling 10 4 Scenario.timers0) as [Hsound Htotal].
  destruct Htotal as (n & tr & c' & H).
  - exact rescheduling_adds_no_due_timer.
  - vm_compute. lia.
  - exists n, tr, c'. split; [exact H|]. now apply Hsound.
Defined.

(** On the example, the three due timers fire in deadline order, the
    callbacks' new timers (ids 5 to 7) are kept for a later tick, and the
    timer with id 3 stays. *)
Example process_time_events_example :
  match process_time_events Scenario.rescheduling 4 10 Scenario.timers0 with
  | Some (n, tr, c') =>
      n = 3 /\
      map (fun x => (deadline x, id (fired x))) tr = [(5, 1); (5, 2); (9, 4)] /\
      map (fun p => (p.1, id p.2)) (time_events c') = [(15, 5); (15, 6); (15, 7); (20, 3)]
  | None => False
  end.
Proof. vm_compute. now repeat split. Qed.

End TimerFacts.

(** ** The worker threads *)

Module PoolFacts.

Import PosixNetworkStack.

Section PoolFacts.

Context {E : Type}.
Implicit Types (ts : pool E) (t : thread E).

Lemma join_worker_joinable ts i t :
  ts !! i = Some t ->
  joinable t = true ->
  join_worker i ts =
  if exited t then Returns tt (<[i := mkThread (entry t) false true]> ts)
  else Blocks ts.
Proof.
  intros Hi Hj. unfold join_worker, thread_join, bind, get, put, lift, block, ceph_assert.
  cbv beta. rewrite Hi, Hj.
  assert (Hlt : (i <? length ts)%nat = true)
    by (apply Nat.ltb_lt; now apply lookup_lt_Some in Hi).
  rewrite Hlt. simpl. rewrite Hi, Hj. simpl. destruct (exited t); reflexivity.
Qed.

Lemma join_worker_asserts_iff ts i :
  join_worker i ts = Asserts <->
  ~ ((i < length ts)%nat /\ exists t, ts !! i = Some t /\ joinable t = true).
Proof.
  destruct (ts !! i) as [t|] eqn:Hi.
  - destruct (joinable t) eqn:Hj.
    + rewrite (join_worker_joinable ts i t Hi Hj). split.
      * destruct (exited t); discriminate.
      * intros H. exfalso. apply H. split; [now apply lookup_lt_Some in Hi|].
        now exists t.
    + split.
      * intros _ (_ & t' & [= <-] & Hj'). congruence.
      * intros _. unfold join_worker, bind, get, lift, ceph_assert. cbv beta.
        rewrite Hi, Hj, andb_false_r. reflexivity.
  - split.
    + intros _ (_ & t' & [=] & _).
    + intros _. unfold join_worker, bind, get, lift, ceph_assert. cbv beta.
      rewrite Hi, andb_false_r. reflexivity.
Qed.

End PoolFacts.

(** C8. [spawn_worker(entry)] returns with exactly one thread appended to
    the pool: the pool is one longer, the threads already there are as they
    were, and the new last thread executes [entry] and is joinable.
    [join_worker(i)] fails its assertion exactly when [i] is not the index
    of a spawned thread that is still joinable; when it is, the call blocks,
    leaving the pool as it is, as long as that thread has not exited, and
    returns once it has, the thread being joined (no longer joinable). *)
Theorem spawn_worker_appends_join_worker_waits {E : Type} :
  (forall (ts : pool E) (func : E),
     spawn_worker func ts = Returns tt (ts ++ [thread_ctor func]) /\
     length (ts ++ [thread_ctor func]) = S (length ts) /\
     (ts ++ [thread_ctor func]) !! length ts = Some (mkThread func true false) /\
     forall j, (j < length ts)%nat -> (ts ++ [thread_ctor func]) !! j = ts !! j) /\
  (forall (ts : pool E) (i : nat),
     join_worker i ts = Asserts <->
     ~ ((i < length ts)%nat /\ exists t, ts !! i = Some t /\ joinable t = true)) /\
  (forall (ts : pool E) (i : nat) (t : thread E),
     ts !! i = Some t ->
     joinable t = true ->
     (exited t = false -> join_worker i ts = Blocks ts) /\
     (forall ts', join_worker i ts = Returns tt ts' ->
        exited t = true /\ ts' = <[i := mkThread (entry t) false true]> ts) /\
     join_worker i (thread_exit i ts)
     = Returns tt (<[i := mkThread (entry t) false true]> ts)).
Proof.
  split; [|split].
  - intros ts func. split; [reflexivity|].
    split; [rewrite length_app; simpl; lia|].
    split.
    + rewrite lookup_app_r by lia. now rewrite Nat.sub_diag.
    + intros j Hj. now apply lookup_app_l.
  - intros ts i. apply join_worker_asserts_iff.
  - intros ts i t Hi Hj.
    pose proof (join_worker_joinable ts i t Hi Hj) as Hjoin.
    split; [|split].
    + intros He. now rewrite He in Hjoin.
    + intros ts' H. rewrite Hjoin in H.
      destruct (exited t); [|discriminate].
      injection H as <-. now split.
    + assert (Hlt : (i < length ts)%nat) by now apply lookup_lt_Some in Hi.
      unfold thread_exit. rewrite Hi.
      rewrite (join_worker_joinable _ i (mkThread (entry t) (joinable t) true)).
      * simpl. now rewrite list_insert_insert_eq.
      * now apply list_lookup_insert_eq.
      * exact Hj.
Qed.

Lemma spawn_worker_appends_join_worker_waits_witness :
  (join_worker 0 [thread_ctor 7%nat] = Blocks [thread_ctor 7%nat]) /\
  (forall ts', join_worker 0 [mkThread 7%nat true true] = Returns tt ts' ->
     true = true /\ ts' = [mkThread 7%nat false true]) /\
  join_worker 0 (thread_exit 0 [thread_ctor 7%nat]) = Returns tt [mkThread 7%nat false true].
Proof.
  split; [|split].
  - apply (proj1 (proj2 (proj2 spawn_worker_appends_join_worker_waits)
             [thread_ctor 7%nat] 0%nat (thread_ctor 7%nat) eq_refl eq_refl)).
    reflexivity.
  - apply (proj1 (proj2 (proj2 (proj2 spawn_worker_appends_join_worker_waits)
             [mkThread 7%nat true true] 0%nat (mkThread 7%nat true true) eq_refl eq_refl))).
  - apply (proj2 (proj2 (proj2 (proj2 spawn_worker_appends_join_worker_waits)
             [thread_ctor 7%nat] 0%nat (thread_ctor 7%nat) eq_refl eq_refl))).
Defined.

End PoolFacts.

(** ** The rendezvous of a synchronous submission *)

Module RendezvousFacts.

Import Rendezvous.

Section Invariant.

Context {U : Type}.
Variables (this : nat) (self : pthread_t) (i : Z) (fn : @func U).
Variables (c : nat) (worker : pthread_t).
Variable w0 : World U.

Implicit Types (w : World U) (s : @sys U).

Lemma frame_refl w : frame fn w w.
Proof. now repeat split. Qed.

Lemma frame_queue w w' q : frame fn w w' -> queue c w q -> queue c w' q.
Proof. intros (He & _ & _) (tc & Hc & Hq). exists tc. now rewrite He. Qed.

Lemma store_event_frame w e (ev ev' : C_submit_event U) :
  evs w !! e = Some ev ->
  f ev' = f ev -> done ev' = done ev ->
  frame fn w (set_evs (<[e := ev']> (evs w)) w).
Proof.
  intros He Hf Hd. repeat split.
  intros e' (x & Hx & Hfx & Hdx).
  destruct (decide (e' = e)) as [->|Hne].
  - exists ev'. simpl. rewrite lookup_insert_eq.
    rewrite He in Hx. injection Hx as <-. split; [reflexivity|]. split; congruence.
  - exists x. simpl. rewrite lookup_insert_ne by congruence. now repeat split.
Qed.

Lemma mutex_lock_frame w e t w' :
  mutex_lock e t w = Returns tt w' -> frame fn w w'.
Proof.
  destruct (evs w !! e) as [ev|] eqn:He.
  - rewrite (mutex_lock_cases w e ev t He).
    destruct (lock ev) as [t'|]; [destruct (t' =? t); discriminate|].
    intros [= <-]. now apply (store_event_frame w e ev).
  - unfold mutex_lock, load_event, bind, get, lift, deref. now rewrite He.
Qed.

Lemma mutex_unlock_frame w e w' :
  mutex_unlock e w = Returns tt w' -> frame fn w w'.
Proof.
  destruct (evs w !! e) as [ev|] eqn:He.
  - rewrite (mutex_unlock_live w e ev He).
    intros [= <-]. now apply (store_event_frame w e ev).
  - unfold mutex_unlock, load_event, bind, get, lift, deref. now rewrite He.
Qed.

Lemma destroy_inv w e w' :
  destroy e w = Returns tt w' -> ecs w' = ecs w /\ shared w' = shared w.
Proof. intros [= <-]. now split. Qed.

Lemma ret_inv {A : Type} (a a' : A) w w' :
  ret a w = Returns a' w' -> a' = a /\ w' = w.
Proof. intros [= <- <-]. now split. Qed.

(** *** The submitting thread *)

(** Inside [wait], before [done] is set, the caller stays inside [wait]. *)
Lemma caller_waiting_step w pc e pc' w' :
  waiting pc e ->
  pending fn e w ->
  caller_step this self i fn pc w = Returns pc' w' ->
  waiting pc' e /\ frame fn w w'.
Proof.
  intros [-> | [-> | [-> | ->]]] Hp H; unfold caller_step in H.
  - apply bind_inv_returns in H as (ev & w1 & Hl & H).
    apply load_event_inv in Hl as [-> Hev].
    apply bind_inv_returns in H as (u & w2 & Ha & H).
    unfold lift, ceph_assert in Ha. destruct (negb (nonwait ev)); [|discriminate].
    injection Ha as _ <-. apply ret_inv in H as [-> ->].
    split; [right; left; reflexivity|apply frame_refl].
  - apply bind_inv_returns in H as (u & w1 & Hl & H).
    destruct u. apply mutex_lock_frame in Hl. apply ret_inv in H as [-> ->].
    split; [right; right; left; reflexivity|exact Hl].
  - apply bind_inv_returns in H as (ev & w1 & Hl & H).
    apply load_event_inv in Hl as [-> Hev].
    destruct Hp as (ev' & Hev' & _ & Hd).
    rewrite Hev in Hev'. injection Hev' as <-. rewrite Hd in H.
    apply bind_inv_returns in H as (u & w2 & Hu & H).
    destruct u. apply mutex_unlock_frame in Hu. apply ret_inv in H as [-> ->].
    split; [right; right; right; reflexivity|exact Hu].
  - apply ret_inv in H as [-> ->].
    split; [right; left; reflexivity|apply frame_refl].
Qed.

(** Past the dispatch, the caller touches neither a center nor the shared
    state, and does not come back. *)
Lemma caller_dispatched_step w pc pc' w' :
  dispatched_pc pc ->
  caller_step this self i fn pc w = Returns pc' w' ->
  dispatched_pc pc' /\ ecs w' = ecs w /\ shared w' = shared w.
Proof.
  intros Hpc H. destruct pc; try contradiction; unfold caller_step in H.
  - apply bind_inv_returns in H as (ev & w1 & Hl & H).
    apply load_event_inv in Hl as [-> Hev].
    apply bind_inv_returns in H as (u & w2 & Ha & H).
    unfold lift, ceph_assert in Ha. destruct (negb (nonwait ev)); [|discriminate].
    injection Ha as _ <-. apply ret_inv in H as [-> ->]. now repeat split.
  - apply bind_inv_returns in H as (u & w1 & Hl & H).
    destruct u. apply mutex_lock_frame in Hl as (He & Hs & _).
    apply ret_inv in H as [-> ->]. now repeat split.
  - apply bind_inv_returns in H as (ev & w1 & Hl & H).
    apply load_event_inv in Hl as [-> Hev].
    destruct (done ev).
    + apply ret_inv in H as [-> ->]. now repeat split.
    + apply bind_inv_returns in H as (u & w2 & Hu & H).
      destruct u. apply mutex_unlock_frame in Hu as (He & Hs & _).
      apply ret_inv in H as [-> ->]. now repeat split.
  - apply ret_inv in H as [-> ->]. now repeat split.
  - apply bind_inv_returns in H as (u & w1 & Hu & H).
    destruct u. apply mutex_unlock_frame in Hu as (He & Hs & _).
    apply ret_inv in H as [-> ->]. now repeat split.
  - apply bind_inv_returns in H as (u & w1 & Hu & H).
    destruct u. apply destroy_inv in Hu as (He & Hs).
    apply ret_inv in H as [-> ->]. now repeat split.
  - discriminate.
Qed.

(** *** The worker thread *)

Lemma take_external_events_inv w q w' :
  take_external_events c w = Returns q w' ->
  queue c w q /\ queue c w' [] /\ shared w' = shared w /\ evs w' = evs w /\
  (q = [] -> w' = w).
Proof.
  unfold take_external_events. intros H.
  apply bind_inv_returns in H as (tc & w1 & Hl & H).
  apply load_center_inv in Hl as [-> Htc].
  injection H as <- <-.
  split; [now exists tc|].
  split; [eexists; split; [simpl; apply lookup_insert_eq|reflexivity]|].
  split; [reflexivity|]. split; [reflexivity|].
  intros Hq. rewrite <- Hq, set_external_same, (insert_id _ _ _ Htc).
  now destruct w.
Qed.

Lemma queue_unique w q q' : queue c w q -> queue c w q' -> q = q'.
Proof. intros (tc & H1 & <-) (tc' & H2 & <-). congruence. Qed.

Lemma pending_same_events w w' e :
  evs w' = evs w -> pending fn e w -> pending fn e w'.
Proof. intros He (ev & H). exists ev. now rewrite He. Qed.

Lemma queue_same_centers w w' q :
  ecs w' = ecs w -> queue c w q -> queue c w' q.
Proof. intros He (tc & H). exists tc. now rewrite He. Qed.

(** Between two callbacks the worker swaps the queue or starts a new tick. *)
Lemma target_idle_step w pc pc' w' q :
  idle pc ->
  queue c w q ->
  target_step c worker pc w = Returns pc' w' ->
  (pc' = T_events q /\ queue c w' [] /\ shared w' = shared w /\ evs w' = evs w /\
   (q = [] -> w' = w)) \/
  (pc' = T_poll /\ w' = w).
Proof.
  intros [-> | ->] Hq H; unfold target_step in H.
  - left. apply bind_inv_returns in H as (q' & w1 & Ht & H).
    apply ret_inv in H as [-> ->].
    apply take_external_events_inv in Ht as (Hq' & Hq0 & Hs & He & Hid).
    rewrite (queue_unique _ _ _ Hq Hq'). now repeat split.
  - right. now apply ret_inv in H as [-> ->].
Qed.

(** With the wrapper in hand, the worker calls [fn]. *)
Lemma target_call_step w e pc' w' :
  pending fn e w ->
  target_step c worker (T_events [e]) w = Returns pc' w' ->
  pc' = T_lock e [] /\ ecs w' = ecs w /\ evs w' = evs w /\
  shared w' = fn (shared w).
Proof.
  intros (ev & Hev & Hf & _) H. unfold target_step, do_request_call in H.
  apply bind_inv_returns in H as (u & w1 & Hc & H).
  apply ret_inv in H as [-> ->].
  apply bind_inv_returns in Hc as (ev' & w2 & Hl & Hc).
  apply load_event_inv in Hl as [-> Hev'].
  rewrite Hev in Hev'. injection Hev' as <-.
  injection Hc as _ <-. simpl. rewrite Hf. now repeat split.
Qed.

Lemma do_request_signal_inv w e del w' :
  do_request_signal e w = Returns del w' ->
  ecs w' = ecs w /\ shared w' = shared w.
Proof.
  unfold do_request_signal, set_done, store_event. intros H.
  apply bind_inv_returns in H as (u & w1 & Hs & H).
  apply bind_inv_returns in Hs as (ev & w2 & Hl & Hs).
  apply load_event_inv in Hl as [-> Hev].
  injection Hs as _ <-.
  apply bind_inv_returns in H as (ev' & w3 & Hl & H).
  apply load_event_inv in Hl as [-> Hev'].
  apply ret_inv in H as [-> ->]. now split.
Qed.

(** After the call of [fn], the worker takes the mutex and sets [done]. *)
Lemma target_signal_step w e pc pc' w' :
  pc = T_lock e [] \/ pc = T_signal e [] ->
  target_step c worker pc w = Returns pc' w' ->
  (pc' = T_signal e [] /\ frame fn w w') \/
  ((exists del, pc' = T_unlock e [] del) /\ ecs w' = ecs w /\ shared w' = shared w).
Proof.
  intros [-> | ->] H; unfold target_step in H.
  - left. apply bind_inv_returns in H as (u & w1 & Hl & H).
    destruct u. apply mutex_lock_frame in Hl.
    now apply ret_inv in H as [-> ->].
  - right. apply bind_inv_returns in H as (del & w1 & Hs & H).
    apply do_request_signal_inv in Hs as (He & Hsh).
    apply ret_inv in H as [-> ->]. split; [now exists del|now split].
Qed.

(** Once it has signalled, the worker releases the wrapper and goes back
    to its ticks; nothing is queued, so it calls nothing else. *)
Lemma target_served_step w pc pc' w' :
  served pc ->
  queue c w [] ->
  target_step c worker pc w = Returns pc' w' ->
  served pc' /\ queue c w' [] /\ shared w' = shared w.
Proof.
  intros [Hidle | (e & del & [-> | ->])] Hq H.
  - destruct (target_idle_step w pc pc' w' [] Hidle Hq H)
      as [(-> & Hq' & Hs & _) | (-> & ->)].
    + split; [left; now right|now split].
    + split; [left; now left|now split].
  - unfold target_step in H.
    apply bind_inv_returns in H as (u & w1 & Hu & H).
    destruct u. apply mutex_unlock_frame in Hu as (He & Hs & _).
    apply ret_inv in H as [-> ->].
    split; [right; exists e, del; now right|].
    split; [now apply (queue_same_centers w)|exact Hs].
  - unfold target_step, do_request_release in H.
    apply bind_inv_returns in H as (u & w1 & Hu & H).
    assert (Hf : ecs w1 = ecs w /\ shared w1 = shared w).
    { destruct u. destruct del; [now apply destroy_inv in Hu|].
      apply ret_inv in Hu as [_ ->]. now split. }
    destruct Hf as [He Hs].
    apply ret_inv in H as [-> ->].
    split; [left; now right|].
    split; [now apply (queue_same_centers w)|exact Hs].
Qed.

(** *** Among other callbacks *)

Implicit Types (tr l : list (@label U)).

Lemma built_more tr l e : built tr e -> built (tr ++ l) e.
Proof.
  intros (tr1 & tr2 & ->). exists tr1, (tr2 ++ l).
  now rewrite <- app_assoc.
Qed.

Lemma preceded_more tr l e : preceded fn tr e -> preceded fn (tr ++ l) e.
Proof.
  intros (tr1 & tr2 & tr3 & u & ->). exists tr1, tr2, (tr3 ++ l), u.
  rewrite <- app_assoc. simpl. rewrite <- app_assoc. reflexivity.
Qed.

Lemma built_then_called tr e u :
  built tr e -> preceded fn (tr ++ [Called e fn u (fn u)]) e.
Proof.
  intros (tr1 & tr2 & ->). exists tr1, tr2, [], u.
  now rewrite <- app_assoc.
Qed.

Lemma same_wrapper_refl (ev : C_submit_event U) : same_wrapper ev ev.
Proof. now repeat split. Qed.

Lemma store_event_keeps w e' (ev0 ev1 : C_submit_event U) e ev :
  evs w !! e' = Some ev0 ->
  same_wrapper ev0 ev1 ->
  evs w !! e = Some ev ->
  exists ev', evs (set_evs (<[e' := ev1]> (evs w)) w) !! e = Some ev' /\
              same_wrapper ev ev'.
Proof.
  intros H0 Hs He. simpl. destruct (decide (e' = e)) as [->|Hne].
  - exists ev1. rewrite lookup_insert_eq. split; [reflexivity|]. congruence.
  - exists ev. rewrite lookup_insert_ne by exact Hne.
    split; [exact He|apply same_wrapper_refl].
Qed.

Lemma mutex_lock_keeps w e' t w' e ev :
  mutex_lock e' t w = Returns tt w' ->
  evs w !! e = Some ev ->
  exists ev', evs w' !! e = Some ev' /\ same_wrapper ev ev'.
Proof.
  intros H He. destruct (evs w !! e') as [ev0|] eqn:H0.
  - rewrite (mutex_lock_cases w e' ev0 t H0) in H.
    destruct (lock ev0) as [t'|]; [destruct (t' =? t); discriminate|].
    injection H as <-.
    now apply (store_event_keeps w e' ev0).
  - unfold mutex_lock, load_event, bind, get, lift, deref in H.
    rewrite H0 in H. discriminate.
Qed.

Lemma mutex_unlock_keeps w e' w' e ev :
  mutex_unlock e' w = Returns tt w' ->
  evs w !! e = Some ev ->
  exists ev', evs w' !! e = Some ev' /\ same_wrapper ev ev'.
Proof.
  intros H He. destruct (evs w !! e') as [ev0|] eqn:H0.
  - rewrite (mutex_unlock_live w e' ev0 H0) in H. injection H as <-.
    now apply (store_event_keeps w e' ev0).
  - unfold mutex_unlock, load_event, bind, get, lift, deref in H.
    rewrite H0 in H. discriminate.
Qed.

Lemma do_request_call_inv w e' w' :
  do_request_call e' w = Returns tt w' ->
  exists ev0, evs w !! e' = Some ev0 /\ w' = set_shared (f ev0 (shared w)) w.
Proof.
  unfold do_request_call. intros H.
  apply bind_inv_returns in H as (ev0 & w1 & Hl & H).
  apply load_event_inv in Hl as [-> H0].
  injection H as <-. now exists ev0.
Qed.

Lemma do_request_signal_events w e' del w' :
  do_request_signal e' w = Returns del w' ->
  exists ev0, evs w !! e' = Some ev0 /\ del = nonwait ev0 /\
    evs w' = <[e' := mkC_submit_event (lock ev0) true (f ev0) (nonwait ev0)]> (evs w).
Proof.
  unfold do_request_signal, set_done, store_event. intros H.
  apply bind_inv_returns in H as (u & w1 & Hs & H).
  apply bind_inv_returns in Hs as (ev0 & w2 & Hl & Hs).
  apply load_event_inv in Hl as [-> H0].
  injection Hs as _ <-.
  apply bind_inv_returns in H as (ev1 & w3 & Hl & H).
  apply load_event_inv in Hl as [-> H1].
  apply ret_inv in H as [-> ->].
  simpl in H1. rewrite lookup_insert_eq in H1. injection H1 as <-.
  now exists ev0.
Qed.

Lemma dispatch_event_external_events w t e w' :
  dispatch_event_external t e w = Returns tt w' -> evs w' = evs w.
Proof.
  unfold dispatch_event_external. intros H.
  apply bind_inv_returns in H as (tc & w1 & Hl & H).
  apply load_center_inv in Hl as [-> _].
  now injection H as <-.
Qed.

Lemma alive_again tr s e (ev ev' : C_submit_event U) :
  holds_wrapper (cpc s) = Some e ->
  evs (world s) !! e = Some ev' ->
  same_wrapper ev ev' ->
  f ev = fn -> nonwait ev = false ->
  built tr e ->
  keeps (tpc s) e ->
  (done ev = true \/ called (tpc s) e \/ passed (cpc s) -> preceded fn tr e) ->
  served_inv fn tr s.
Proof.
  intros Hpc Hev (Hf' & Hn' & Hd') Hf Hn Hb Hk Hd.
  apply (inv_alive _ _ _ e ev'); try assumption; try congruence.
  intros [Hy | Hy]; apply Hd; [left; congruence|now right].
Qed.

Lemma served_caller_step tr s pc w :
  served_inv fn tr s ->
  caller_step this self i fn (cpc s) (world s) = Returns pc w ->
  served_inv fn (tr ++ caller_label (cpc s) pc) (mkSys w pc (tpc s)).
Proof.
  intros Hinv H.
  destruct Hinv as [Hpc Hlive | Hpc | e ev Hpc Hev Hf Hn Hb Hk Hd | e Hpc Hp].
  - rewrite Hpc in H |- *. unfold caller_step in H.
    apply bind_inv_returns in H as (t & w1 & Ht & H).
    apply submit_target_inv in Ht as (-> & _).
    apply bind_inv_returns in H as (tc & w2 & Hl & H).
    apply load_center_inv in Hl as [-> _].
    destruct (in_thread self tc).
    + apply bind_inv_returns in H as (u & w3 & _ & H).
      apply ret_inv in H as [-> ->]. now apply inv_inline.
    + rewrite (bind_returns _ _ _ _ _ (new_C_submit_event_fresh _ _ _)) in H.
      apply ret_inv in H as [-> ->].
      assert (Hfresh : forall e, uses (tpc s) e -> e <> fresh_addr (evs (world s))).
      { intros e He ->. apply Hlive in He as [x Hx].
        now rewrite fresh_addr_unused in Hx. }
      apply (inv_alive _ _ _ (fresh_addr (evs (world s)))
               (C_submit_event_ctor fn false)); simpl.
      * reflexivity.
      * apply lookup_insert_eq.
      * reflexivity.
      * reflexivity.
      * now exists tr, [].
      * destruct (tpc s) as [| | | |e' q del|e' q del] eqn:Ht; simpl; try exact I;
          intros ->; destruct del; try reflexivity; exfalso;
          now apply (Hfresh (fresh_addr (evs (world s)))).
      * intros [Hx | [Hx | Hx]]; [discriminate| |contradiction].
        exfalso. apply (Hfresh (fresh_addr (evs (world s)))); [|reflexivity].
        destruct (tpc s); simpl in Hx |- *; try contradiction; exact Hx.
  - rewrite Hpc in H. discriminate.
  - destruct (cpc s) eqn:Hc; simpl in Hpc; try discriminate;
      injection Hpc as ->; unfold caller_step in H; simpl; rewrite app_nil_r.
    + (* C_dispatch *)
      apply bind_inv_returns in H as (u & w1 & Hx & H). destruct u.
      apply dispatch_event_external_events in Hx.
      apply ret_inv in H as [-> ->].
      apply (alive_again _ _ e ev ev); simpl;
        [reflexivity | now rewrite Hx | apply same_wrapper_refl | exact Hf | exact Hn
        | exact Hb | exact Hk | ].
      intros [Hy | [Hy | []]]; apply Hd; auto.
    + (* C_wait *)
      apply bind_inv_returns in H as (ev1 & w1 & Hl & H).
      apply load_event_inv in Hl as [-> _].
      apply bind_inv_returns in H as (u & w2 & Ha & H).
      unfold lift, ceph_assert in Ha. destruct (negb (nonwait ev1)); [|discriminate].
      injection Ha as _ <-. apply ret_inv in H as [-> ->].
      apply (alive_again _ _ e ev ev); simpl;
        [reflexivity | exact Hev | apply same_wrapper_refl | exact Hf | exact Hn
        | exact Hb | exact Hk | ].
      intros [Hy | [Hy | []]]; apply Hd; auto.
    + (* C_lock *)
      apply bind_inv_returns in H as (u & w1 & Hx & H). destruct u.
      apply ret_inv in H as [-> ->].
      destruct (mutex_lock_keeps _ _ _ _ _ _ Hx Hev) as (ev' & Hev' & Hsame).
      apply (alive_again _ _ e ev ev'); simpl;
        [reflexivity | exact Hev' | exact Hsame | exact Hf | exact Hn
        | exact Hb | exact Hk | ].
      intros [Hy | [Hy | []]]; apply Hd; auto.
    + (* C_test *)
      apply bind_inv_returns in H as (ev1 & w1 & Hl & H).
      apply load_event_inv in Hl as [-> Hev1].
      rewrite Hev in Hev1. injection Hev1 as <-.
      destruct (done ev) eqn:Hdone.
      * apply ret_inv in H as [-> ->].
        apply (alive_again _ _ e ev ev); simpl;
          [reflexivity | exact Hev | apply same_wrapper_refl | exact Hf | exact Hn
          | exact Hb | exact Hk | ].
        intros _. apply Hd. now left.
      * apply bind_inv_returns in H as (u & w2 & Hx & H). destruct u.
        apply ret_inv in H as [-> ->].
        destruct (mutex_unlock_keeps _ _ _ _ _ Hx Hev) as (ev' & Hev' & Hsame).
        apply (alive_again _ _ e ev ev'); simpl;
          [reflexivity | exact Hev' | exact Hsame | exact Hf | exact Hn
          | exact Hb | exact Hk | ].
        intros [Hy | [Hy | []]]; [congruence|apply Hd; auto].
    + (* C_sleep *)
      apply ret_inv in H as [-> ->].
      apply (alive_again _ _ e ev ev); simpl;
        [reflexivity | exact Hev | apply same_wrapper_refl | exact Hf | exact Hn
        | exact Hb | exact Hk | ].
      intros [Hy | [Hy | []]]; apply Hd; auto.
    + (* C_unlock *)
      apply bind_inv_returns in H as (u & w1 & Hx & H). destruct u.
      apply ret_inv in H as [-> ->].
      destruct (mutex_unlock_keeps _ _ _ _ _ Hx Hev) as (ev' & Hev' & Hsame).
      apply (alive_again _ _ e ev ev'); simpl;
        [reflexivity | exact Hev' | exact Hsame | exact Hf | exact Hn
        | exact Hb | exact Hk | ].
      intros _. apply Hd. right. right. exact I.
    + (* C_destroy *)
      apply bind_inv_returns in H as (u & w1 & Hx & H).
      apply ret_inv in H as [-> ->].
      apply (inv_returned _ _ _ e); [reflexivity|].
      apply Hd. right. right. exact I.
  - rewrite Hpc in H. discriminate.
Qed.

Lemma served_target_before tr s pc w :
  cpc s = C_submit ->
  (forall e, uses (tpc s) e -> is_Some (evs (world s) !! e)) ->
  target_step c worker (tpc s) (world s) = Returns pc w ->
  forall e, uses pc e -> is_Some (evs w !! e).
Proof.
  intros Hpc Hlive H e He.
  destruct (tpc s) as [|[|e' q]|e' q|e' q|e' q del|e' q del] eqn:Ht;
    unfold target_step in H.
  - apply bind_inv_returns in H as (q & w1 & _ & H).
    apply ret_inv in H as [-> ->]. contradiction.
  - apply ret_inv in H as [-> ->]. contradiction.
  - apply bind_inv_returns in H as (u & w1 & Hx & H). destruct u.
    apply ret_inv in H as [-> ->]. simpl in He. subst e'.
    apply do_request_call_inv in Hx as (ev0 & H0 & ->). now exists ev0.
  - apply bind_inv_returns in H as (u & w1 & Hx & H). destruct u.
    apply ret_inv in H as [-> ->]. simpl in He. subst e'.
    destruct (Hlive e eq_refl) as [ev0 H0].
    destruct (mutex_lock_keeps _ _ _ _ _ _ Hx H0) as (ev' & Hev' & _).
    now exists ev'.
  - apply bind_inv_returns in H as (del & w1 & Hx & H).
    apply ret_inv in H as [-> ->]. simpl in He. subst e'.
    apply do_request_signal_events in Hx as (ev0 & H0 & _ & ->).
    rewrite lookup_insert_eq. eauto.
  - apply bind_inv_returns in H as (u & w1 & Hx & H). destruct u.
    apply ret_inv in H as [-> ->]. simpl in He. destruct He as [-> _].
    destruct (Hlive e eq_refl) as [ev0 H0].
    destruct (mutex_unlock_keeps _ _ _ _ _ Hx H0) as (ev' & Hev' & _).
    now exists ev'.
  - apply bind_inv_returns in H as (u & w1 & Hx & H).
    apply ret_inv in H as [-> ->]. contradiction.
Qed.

Lemma served_target_alive tr s pc w e (ev : C_submit_event U) :
  holds_wrapper (cpc s) = Some e ->
  evs (world s) !! e = Some ev ->
  f ev = fn -> nonwait ev = false ->
  built tr e ->
  keeps (tpc s) e ->
  (done ev = true \/ called (tpc s) e \/ passed (cpc s) -> preceded fn tr e) ->
  target_step c worker (tpc s) (world s) = Returns pc w ->
  served_inv fn (tr ++ target_label (tpc s) (world s) w) (mkSys w (cpc s) pc).
Proof.
  intros Hpc Hev Hf Hn Hb Hk Hd H.
  destruct (tpc s) as [|[|e' q]|e' q|e' q|e' q del|e' q del] eqn:Ht;
    unfold target_step in H; simpl target_label.
  - (* T_poll *)
    apply bind_inv_returns in H as (q & w1 & Hx & H).
    apply ret_inv in H as [-> ->].
    apply take_external_events_inv in Hx as (_ & _ & _ & Hx & _).
    rewrite app_nil_r.
    apply (alive_again _ _ e ev ev); simpl;
      [exact Hpc | now rewrite Hx | apply same_wrapper_refl | exact Hf | exact Hn
      | exact Hb | exact I | ].
    intros [Hy | [[] | Hy]]; apply Hd; auto.
  - (* T_events [] *)
    apply ret_inv in H as [-> ->]. rewrite app_nil_r.
    apply (alive_again _ _ e ev ev); simpl;
      [exact Hpc | exact Hev | apply same_wrapper_refl | exact Hf | exact Hn
      | exact Hb | exact I | ].
    intros [Hy | [[] | Hy]]; apply Hd; auto.
  - (* T_events (e' :: q): the call of the callable *)
    apply bind_inv_returns in H as (u & w1 & Hx & H). destruct u.
    apply ret_inv in H as [-> ->].
    apply do_request_call_inv in Hx as (ev0 & H0 & ->).
    rewrite H0.
    apply (alive_again _ _ e ev ev); simpl;
      [exact Hpc | exact Hev | apply same_wrapper_refl | exact Hf | exact Hn
      | now apply built_more | exact I | ].
    intros [Hy | [Hy | Hy]].
    + apply preceded_more, Hd. now left.
    + subst e'. rewrite Hev in H0. injection H0 as <-. rewrite Hf.
      now apply built_then_called.
    + apply preceded_more, Hd. right. now right.
  - (* T_lock *)
    apply bind_inv_returns in H as (u & w1 & Hx & H). destruct u.
    apply ret_inv in H as [-> ->]. rewrite app_nil_r.
    destruct (mutex_lock_keeps _ _ _ _ _ _ Hx Hev) as (ev' & Hev' & Hsame).
    apply (alive_again _ _ e ev ev'); simpl;
      [exact Hpc | exact Hev' | exact Hsame | exact Hf | exact Hn
      | exact Hb | exact I | exact Hd].
  - (* T_signal *)
    apply bind_inv_returns in H as (del & w1 & Hx & H).
    apply ret_inv in H as [-> ->]. rewrite app_nil_r.
    apply do_request_signal_events in Hx as (ev0 & H0 & -> & Hx).
    destruct (decide (e' = e)) as [->|Hne].
    + rewrite Hev in H0. injection H0 as <-.
      assert (Hp : preceded fn tr e) by (apply Hd; right; now left).
      apply (inv_alive _ _ _ e (mkC_submit_event (lock ev) true (f ev) (nonwait ev)));
        simpl; [exact Hpc | rewrite Hx; apply lookup_insert_eq | exact Hf | exact Hn
               | exact Hb | now intros _ | now intros _].
    + apply (alive_again _ _ e ev ev); simpl;
        [exact Hpc | rewrite Hx; now rewrite lookup_insert_ne | apply same_wrapper_refl
        | exact Hf | exact Hn | exact Hb | now intros ? | ].
      intros [Hy | [Hy | Hy]]; [|contradiction|]; apply Hd; auto.
  - (* T_unlock *)
    apply bind_inv_returns in H as (u & w1 & Hx & H). destruct u.
    apply ret_inv in H as [-> ->]. rewrite app_nil_r.
    destruct (mutex_unlock_keeps _ _ _ _ _ Hx Hev) as (ev' & Hev' & Hsame).
    apply (alive_again _ _ e ev ev'); simpl;
      [exact Hpc | exact Hev' | exact Hsame | exact Hf | exact Hn
      | exact Hb | exact Hk | exact Hd].
  - (* T_release *)
    apply bind_inv_returns in H as (u & w1 & Hx & H).
    apply ret_inv in H as [-> ->]. rewrite app_nil_r.
    assert (Hev1 : evs w1 !! e = Some ev).
    { unfold do_request_release in Hx. destruct del.
      - injection Hx as _ <-. simpl. rewrite lookup_delete_ne; [exact Hev|].
        intros ->. simpl in Hk. now specialize (Hk eq_refl).
      - now apply ret_inv in Hx as [_ ->]. }
    apply (alive_again _ _ e ev ev); simpl;
      [exact Hpc | exact Hev1 | apply same_wrapper_refl | exact Hf | exact Hn
      | exact Hb | exact I | ].
    intros [Hy | [[] | Hy]]; apply Hd; auto.
Qed.

Lemma served_target_step tr s pc w :
  served_inv fn tr s ->
  target_step c worker (tpc s) (world s) = Returns pc w ->
  served_inv fn (tr ++ target_label (tpc s) (world s) w) (mkSys w (cpc s) pc).
Proof.
  intros Hinv H.
  destruct Hinv as [Hpc Hlive | Hpc | e ev Hpc Hev Hf Hn Hb Hk Hd | e Hpc Hp].
  - apply inv_before; [exact Hpc|].
    now apply (served_target_before tr s pc w).
  - now apply inv_inline.
  - now apply (served_target_alive tr s pc w e ev).
  - apply (inv_returned _ _ _ e); [exact Hpc|now apply preceded_more].
Qed.

Lemma served_run s0 tr s :
  run this self i fn c worker s0 tr s ->
  served_inv fn [] s0 ->
  served_inv fn tr s.
Proof.
  induction 1 as [s|s tr s1 pc w _ IH H|s tr s1 pc w _ IH H]; intros H0.
  - exact H0.
  - apply served_caller_step; [now apply IH|exact H].
  - apply served_target_step; [now apply IH|exact H].
Qed.

(** The other threads keep the invariant: the wrapper of the caller is
    as it was, and the wrappers that the worker uses are alive. *)
Lemma served_others tr s w :
  served_inv fn tr s ->
  others s w ->
  served_inv fn tr (mkSys w (cpc s) (tpc s)).
Proof.
  intros Hinv [Hmine Huses].
  destruct Hinv as [Hpc Hlive | Hpc | e ev Hpc Hev Hf Hn Hb Hk Hd | e Hpc Hp].
  - apply inv_before; [exact Hpc|]. simpl.
    intros e He. apply Huses; [exact He|now apply Hlive].
  - now apply inv_inline.
  - apply (inv_alive _ _ _ e ev); simpl; try assumption.
    now rewrite (Hmine e Hpc).
  - now apply (inv_returned _ _ _ e).
Qed.

Lemma served_run_among s0 tr s :
  run_among this self i fn c worker s0 tr s ->
  served_inv fn [] s0 ->
  served_inv fn tr s.
Proof.
  induction 1 as [s|s tr s1 pc w _ IH H|s tr s1 pc w _ IH H|s tr s1 w _ IH H];
    intros H0.
  - exact H0.
  - apply served_caller_step; [now apply IH|exact H].
  - apply served_target_step; [now apply IH|exact H].
  - apply served_others; [now apply IH|exact H].
Qed.

Lemma served_returned tr s :
  served_inv fn tr s -> cpc s = C_returned -> exists e, preceded fn tr e.
Proof.
  intros [Hpc _ | Hpc | e ev Hpc _ _ _ _ _ _ | e _ Hp] Hret.
  - rewrite Hret in Hpc. discriminate.
  - rewrite Hret in Hpc. discriminate.
  - rewrite Hret in Hpc. discriminate.
  - now exists e.
Qed.

(** *** The stages are an invariant *)

Variable tc0 : EventCenter.
Hypothesis Htarget : submit_target this i w0 = Returns c w0.
Hypothesis Hcenter : ecs w0 !! c = Some tc0.
Hypothesis Hremote : in_thread self tc0 = false.
Hypothesis Hempty : external_events tc0 = [].

Lemma stage_caller_step s pc w :
  stage fn c w0 s ->
  caller_step this self i fn (cpc s) (world s) = Returns pc w ->
  stage fn c w0 (mkSys w pc (tpc s)).
Proof.
  intros Hst H. destruct Hst as [Hpc Hw Hidle | e Hpc Hq Hidle Hs Hp
    | e Hpc Hq Hidle Hs Hp | e Hpc Hq Ht Hs Hp | e Hpc Hq Ht Hs Hp | Hpc Hq Ht Hs].
  - rewrite Hpc, Hw in H. unfold caller_step in H.
    rewrite (bind_returns _ _ _ _ _ Htarget) in H.
    rewrite (bind_returns _ _ _ _ _ (load_center_live _ _ _ Hcenter)) in H.
    rewrite Hremote in H.
    rewrite (bind_returns _ _ _ _ _ (new_C_submit_event_fresh _ _ _)) in H.
    apply ret_inv in H as [-> ->].
    apply (stage_built _ _ _ _ (fresh_addr (evs w0))); simpl.
    + reflexivity.
    + now exists tc0.
    + exact Hidle.
    + reflexivity.
    + eexists. split; [apply lookup_insert_eq|]. now split.
  - rewrite Hpc in H. unfold caller_step in H.
    destruct Hq as (tc & Htc & Hq).
    rewrite (bind_returns _ _ _ _ _ (dispatch_event_external_live _ _ _ e Htc)) in H.
    apply ret_inv in H as [-> ->].
    apply (stage_queued _ _ _ _ e); simpl.
    + now left.
    + eexists. split; [apply lookup_insert_eq|]. simpl. now rewrite Hq.
    + exact Hidle.
    + exact Hs.
    + exact Hp.
  - destruct (caller_waiting_step _ _ _ _ _ Hpc Hp H) as [Hpc' Hfr].
    apply (stage_queued _ _ _ _ e); simpl;
      [exact Hpc' | now apply (frame_queue _ _ _ Hfr) | exact Hidle
      | destruct Hfr as (_ & -> & _); exact Hs | now apply Hfr].
  - destruct (caller_waiting_step _ _ _ _ _ Hpc Hp H) as [Hpc' Hfr].
    apply (stage_taken _ _ _ _ e); simpl;
      [exact Hpc' | now apply (frame_queue _ _ _ Hfr) | exact Ht
      | destruct Hfr as (_ & -> & _); exact Hs | now apply Hfr].
  - destruct (caller_waiting_step _ _ _ _ _ Hpc Hp H) as [Hpc' Hfr].
    apply (stage_ran _ _ _ _ e); simpl;
      [exact Hpc' | now apply (frame_queue _ _ _ Hfr) | exact Ht
      | destruct Hfr as (_ & -> & _); exact Hs | now apply Hfr].
  - destruct (caller_dispatched_step _ _ _ _ Hpc H) as (Hpc' & He & Hsh).
    apply stage_signalled; simpl;
      [exact Hpc' | now apply (queue_same_centers _ _ _ He) | exact Ht
      | now rewrite Hsh].
Qed.

Lemma waiting_dispatched pc e : waiting pc e -> dispatched_pc pc.
Proof. now intros [-> | [-> | [-> | ->]]]. Qed.

Lemma stage_target_step s pc w :
  stage fn c w0 s ->
  target_step c worker (tpc s) (world s) = Returns pc w ->
  stage fn c w0 (mkSys w (cpc s) pc).
Proof.
  intros Hst H. destruct Hst as [Hpc Hw Hidle | e Hpc Hq Hidle Hs Hp
    | e Hpc Hq Hidle Hs Hp | e Hpc Hq Ht Hs Hp | e Hpc Hq Ht Hs Hp | Hpc Hq Ht Hs].
  - assert (Hq : queue c (world s) []) by (rewrite Hw; now exists tc0).
    destruct (target_idle_step _ _ _ _ _ Hidle Hq H)
      as [(-> & _ & _ & _ & Hid) | (-> & ->)].
    + apply stage_call; simpl; [exact Hpc | now rewrite Hid | now right].
    + apply stage_call; simpl; [exact Hpc | exact Hw | now left].
  - destruct (target_idle_step _ _ _ _ _ Hidle Hq H)
      as [(-> & Hq' & Hs' & He & _) | (-> & ->)].
    + apply (stage_built _ _ _ _ e); simpl;
        [exact Hpc | exact Hq' | now right | now rewrite Hs'
        | now apply (pending_same_events _ _ _ He)].
    + apply (stage_built _ _ _ _ e); simpl; [exact Hpc | exact Hq | now left | exact Hs | exact Hp].
  - destruct (target_idle_step _ _ _ _ _ Hidle Hq H)
      as [(-> & Hq' & Hs' & He & _) | (-> & ->)].
    + apply (stage_taken _ _ _ _ e); simpl;
        [exact Hpc | exact Hq' | reflexivity | now rewrite Hs'
        | now apply (pending_same_events _ _ _ He)].
    + apply (stage_queued _ _ _ _ e); simpl; [exact Hpc | exact Hq | now left | exact Hs | exact Hp].
  - rewrite Ht in H.
    destruct (target_call_step _ _ _ _ Hp H) as (-> & He & Hev & Hsh).
    apply (stage_ran _ _ _ _ e); simpl;
      [exact Hpc | now apply (queue_same_centers _ _ _ He) | now left
      | now rewrite Hsh, Hs | now apply (pending_same_events _ _ _ Hev)].
  - destruct (target_signal_step _ _ _ _ _ Ht H)
      as [(-> & Hfr) | ((del & ->) & He & Hsh)].
    + apply (stage_ran _ _ _ _ e); simpl;
        [exact Hpc | now apply (frame_queue _ _ _ Hfr) | now right
        | destruct Hfr as (_ & -> & _); exact Hs | now apply Hfr].
    + apply stage_signalled; simpl;
        [now apply (waiting_dispatched _ e) | now apply (queue_same_centers _ _ _ He)
        | right; exists e, del; now left | now rewrite Hsh].
  - destruct (target_served_step _ _ _ _ Ht Hq H) as (Ht' & Hq' & Hsh).
    apply stage_signalled; simpl; [exact Hpc | exact Hq' | exact Ht' | now rewrite Hsh].
Qed.

Lemma stage_step s s' :
  stage fn c w0 s -> step this self i fn c worker s s' -> stage fn c w0 s'.
Proof.
  intros Hst Hstep. destruct Hstep as [s pc w H | s pc w H].
  - apply stage_caller_step; assumption.
  - apply stage_target_step; assumption.
Qed.

Lemma stage_reachable s :
  rtc (step this self i fn c worker) (mkSys w0 C_submit T_poll) s ->
  stage fn c w0 s.
Proof.
  revert s. apply rtc_ind_r.
  - apply stage_call; simpl; [reflexivity | reflexivity | now left].
  - intros y z _ Hstep IH. now apply (stage_step y).
Qed.

Lemma stage_returned s :
  stage fn c w0 s -> cpc s = C_returned -> shared (world s) = fn (shared w0).
Proof.
  intros [Hpc _ _ | e Hpc _ _ _ _ | e Hpc _ _ _ _ | e Hpc _ _ _ _
         | e Hpc _ _ _ _ | _ _ _ Hs] Hret; try exact Hs; rewrite Hret in Hpc;
    try discriminate; destruct Hpc as [? | [? | [? | ?]]]; discriminate.
Qed.

End Invariant.

(** *** The actions are those of [submit_to] and [do_request] *)

(** Run without interference, the first five actions of the caller leave
    it suspended in [cond.wait] in the world in which [submit_to] blocks. *)
Lemma caller_run_is_submit_to {U : Type} (w : World U) this self i (fn : @func U) c tc :
  registered_at w this i c ->
  ecs w !! c = Some tc ->
  in_thread self tc = false ->
  exists w',
    submit_to this self i fn false w = Blocks w' /\
    caller_run this self i fn 5 C_submit w = Returns (C_sleep (fresh_addr (evs w))) w'.
Proof.
  intros Hreg Hc Hin. eexists.
  split; [now apply (submit_to_remote w this self i fn c tc)|].
  set (e := fresh_addr (evs w)).
  set (w1 := set_evs (<[e := C_submit_event_ctor fn false]> (evs w)) w).
  assert (S1 : caller_step this self i fn C_submit w = Returns (C_dispatch c e) w1).
  { unfold caller_step.
    rewrite (bind_returns _ _ _ _ _ (submit_target_registered _ _ _ _ Hreg)).
    rewrite (bind_returns _ _ _ _ _ (load_center_live _ _ _ Hc)).
    now rewrite Hin. }
  assert (Hc1 : ecs w1 !! c = Some tc) by exact Hc.
  set (w2 := dispatched c tc e w1).
  assert (S2 : caller_step this self i fn (C_dispatch c e) w1 = Returns (C_wait e) w2).
  { unfold caller_step.
    now rewrite (bind_returns _ _ _ _ _ (dispatch_event_external_live _ _ _ e Hc1)). }
  assert (He2 : evs w2 !! e = Some (C_submit_event_ctor fn false))
    by (unfold w2, w1; simpl; apply lookup_insert_eq).
  assert (S3 : caller_step this self i fn (C_wait e) w2 = Returns (C_lock e) w2).
  { unfold caller_step.
    now rewrite (bind_returns _ _ _ _ _ (load_event_live _ _ _ He2)). }
  set (w3 := set_evs (<[e := mkC_submit_event (Some self) false fn false]> (evs w2)) w2).
  assert (S4 : caller_step this self i fn (C_lock e) w2 = Returns (C_test e) w3).
  { unfold caller_step.
    now rewrite (bind_returns _ _ _ _ _ (mutex_lock_cases _ _ _ self He2)). }
  assert (He3 : evs w3 !! e = Some (mkC_submit_event (Some self) false fn false))
    by (unfold w3; simpl; apply lookup_insert_eq).
  assert (S5 : caller_step this self i fn (C_test e) w3 = Returns (C_sleep e) w2).
  { unfold caller_step.
    rewrite (bind_returns _ _ _ _ _ (load_event_live _ _ _ He3)). simpl.
    rewrite (bind_returns _ _ _ _ _ (mutex_unlock_live _ _ _ He3)). simpl.
    unfold ret. f_equal. unfold w3, w2, w1, dispatched, set_evs, set_pipes, set_ecs.
    simpl. now rewrite !insert_insert_eq. }
  cbn [caller_run].
  rewrite (bind_returns _ _ _ _ _ S1), (bind_returns _ _ _ _ _ S2),
    (bind_returns _ _ _ _ _ S3), (bind_returns _ _ _ _ _ S4),
    (bind_returns _ _ _ _ _ S5).
  reflexivity.
Qed.

(** Run without interference on a wrapper whose mutex is free, the five
    actions of the worker on a callback are [do_request]. *)
Lemma target_run_is_do_request {U : Type} (w : World U) c worker e
    (ev : C_submit_event U) q x :
  evs w !! e = Some ev ->
  lock ev = None ->
  exists w',
    do_request e worker x w = Returns tt w' /\
    target_run c worker 5 (T_events (e :: q)) w = Returns (T_events q) w'.
Proof.
  intros He Hl.
  destruct (do_request e worker x w) as [u w'| | |] eqn:Hd;
    try (rewrite (do_request_unlocked w e ev worker x He Hl) in Hd; discriminate).
  destruct u. exists w'. split; [reflexivity|].
  unfold do_request in Hd.
  apply bind_inv_returns in Hd as ([] & w1 & H1 & Hd).
  apply bind_inv_returns in Hd as ([] & w2 & H2 & Hd).
  apply bind_inv_returns in Hd as (del & w3 & H3 & Hd).
  apply bind_inv_returns in Hd as ([] & w4 & H4 & Hd).
  assert (S1 : target_step c worker (T_events (e :: q)) w = Returns (T_lock e q) w1)
    by (unfold target_step; now rewrite (bind_returns _ _ _ _ _ H1)).
  assert (S2 : target_step c worker (T_lock e q) w1 = Returns (T_signal e q) w2)
    by (unfold target_step; now rewrite (bind_returns _ _ _ _ _ H2)).
  assert (S3 : target_step c worker (T_signal e q) w2 = Returns (T_unlock e q del) w3)
    by (unfold target_step; now rewrite (bind_returns _ _ _ _ _ H3)).
  assert (S4 : target_step c worker (T_unlock e q del) w3 = Returns (T_release e q del) w4)
    by (unfold target_step; now rewrite (bind_returns _ _ _ _ _ H4)).
  assert (S5 : target_step c worker (T_release e q del) w4 = Returns (T_events q) w')
    by (unfold target_step; now rewrite (bind_returns _ _ _ _ _ Hd)).
  cbn [target_run].
  rewrite (bind_returns _ _ _ _ _ S1), (bind_returns _ _ _ _ _ S2),
    (bind_returns _ _ _ _ _ S3), (bind_returns _ _ _ _ _ S4),
    (bind_returns _ _ _ _ _ S5).
  reflexivity.
Qed.

(** [wait] returns only from a wrapper whose [done] is true, and is then
    the four actions of the caller from the assertion to the release of
    the mutex. *)
Lemma wait_returns_done {U : Type} this self i (fn : @func U) e (w w' : World U) :
  wait e self w = Returns tt w' ->
  exists ev, evs w !! e = Some ev /\ nonwait ev = false /\ done ev = true /\
    caller_run this self i fn 4 (C_wait e) w = Returns (C_destroy e) w'.
Proof.
  intros H. pose proof H as H'. unfold wait in H'.
  apply bind_inv_returns in H' as (ev & w1 & Hl & H').
  apply load_event_inv in Hl as [-> Hev].
  apply bind_inv_returns in H' as (u & w2 & Ha & H').
  unfold lift, ceph_assert in Ha.
  destruct (nonwait ev) eqn:Hn; [discriminate|]. simpl in Ha. injection Ha as _ <-.
  apply bind_inv_returns in H' as ([] & w3 & Hm & H').
  rewrite (mutex_lock_cases w e ev self Hev) in Hm.
  destruct (lock ev) as [t|] eqn:Hlk; [destruct (t =? self); discriminate|].
  injection Hm as <-.
  assert (Hev1 : evs (set_evs (<[e := mkC_submit_event (Some self) (done ev) (f ev)
                                     (nonwait ev)]> (evs w)) w) !! e
                 = Some (mkC_submit_event (Some self) (done ev) (f ev) (nonwait ev)))
    by (simpl; apply lookup_insert_eq).
  rewrite (bind_returns _ _ _ _ _ (load_event_live _ _ _ Hev1)) in H'.
  simpl in H'.
  destruct (done ev) eqn:Hd.
  - exists ev. split; [exact Hev|]. split; [exact Hn|]. split; [exact Hd|].
    rewrite (mutex_unlock_live _ _ _ Hev1) in H'. injection H' as <-.
    assert (S1 : caller_step this self i fn (C_wait e) w = Returns (C_lock e) w).
    { unfold caller_step.
      rewrite (bind_returns _ _ _ _ _ (load_event_live _ _ _ Hev)).
      now rewrite Hn. }
    assert (S2 : caller_step this self i fn (C_lock e) w
                 = Returns (C_test e)
                     (set_evs (<[e := mkC_submit_event (Some self) true (f ev)
                                        (nonwait ev)]> (evs w)) w)).
    { unfold caller_step, bind.
      now rewrite (mutex_lock_cases _ _ _ self Hev), Hlk, Hd. }
    assert (S3 : caller_step this self i fn (C_test e)
                   (set_evs (<[e := mkC_submit_event (Some self) true (f ev)
                                      (nonwait ev)]> (evs w)) w)
                 = Returns (C_unlock e)
                     (set_evs (<[e := mkC_submit_event (Some self) true (f ev)
                                        (nonwait ev)]> (evs w)) w)).
    { unfold caller_step.
      now rewrite (bind_returns _ _ _ _ _ (load_event_live _ _ _ Hev1)). }
    assert (S4 : caller_step this self i fn (C_unlock e)
                   (set_evs (<[e := mkC_submit_event (Some self) true (f ev)
                                      (nonwait ev)]> (evs w)) w)
                 = Returns (C_destroy e)
                     (set_evs
                        (<[e := mkC_submit_event None true (f ev) (nonwait ev)]>
                           (<[e := mkC_submit_event (Some self) true (f ev)
                                     (nonwait ev)]> (evs w)))
                        (set_evs (<[e := mkC_submit_event (Some self) true (f ev)
                                           (nonwait ev)]> (evs w)) w))).
    { unfold caller_step.
      now rewrite (bind_returns _ _ _ _ _ (mutex_unlock_live _ _ _ Hev1)). }
    cbn [caller_run].
    rewrite (bind_returns _ _ _ _ _ S1), (bind_returns _ _ _ _ _ S2),
      (bind_returns _ _ _ _ _ S3), (bind_returns _ _ _ _ _ S4).
    reflexivity.
  - apply bind_inv_returns in H' as (u' & w4 & _ & H'). discriminate.
Qed.

(** When another thread holds the mutex of the wrapper, [do_request] is
    suspended at [lock.lock()]: [f()] has returned and [done] is as it was. *)
Lemma do_request_locked {U : Type} (w : World U) e (ev : C_submit_event U) worker x t :
  evs w !! e = Some ev ->
  lock ev = Some t -> t <> worker ->
  do_request e worker x w = Blocks (set_shared (f ev (shared w)) w).
Proof.
  intros Hev Hl Hne. unfold do_request.
  assert (H1 : do_request_call e w = Returns tt (set_shared (f ev (shared w)) w)).
  { unfold do_request_call.
    now rewrite (bind_returns _ _ _ _ _ (load_event_live _ _ _ Hev)). }
  rewrite (bind_returns _ _ _ _ _ H1).
  assert (Hev1 : evs (set_shared (f ev (shared w)) w) !! e = Some ev) by exact Hev.
  unfold bind at 1. rewrite (mutex_lock_cases _ e ev worker Hev1), Hl.
  apply Z.eqb_neq in Hne. now rewrite Hne.
Qed.

(** A run of the two threads is a run among others that do nothing. *)
Lemma run_among_run {U : Type} this self i (fn : @func U) c worker s0 tr s :
  run this self i fn c worker s0 tr s ->
  run_among this self i fn c worker s0 tr s.
Proof.
  induction 1 as [s|s tr s1 pc w _ IH H|s tr s1 pc w _ IH H].
  - apply among_refl.
  - now apply among_caller.
  - now apply among_target.
Qed.

(** A schedule that runs is a run, and a run is a sequence of steps. *)
Lemma run_schedule_run {U : Type} this self i (fn : @func U) c worker sch :
  forall s0 tr s tr' s',
    run this self i fn c worker s0 tr s ->
    run_schedule this self i fn c worker sch tr s = Some (tr', s') ->
    run this self i fn c worker s0 tr' s'.
Proof.
  induction sch as [|who sch IH]; intros s0 tr s tr' s' Hr H; simpl in H.
  - now injection H as <- <-.
  - destruct (sched_step this self i fn c worker who s) as [[l s1]|] eqn:Hs;
      [|discriminate].
    apply (IH s0 (tr ++ l) s1); [|exact H].
    unfold sched_step in Hs. destruct who.
    + destruct (caller_step this self i fn (cpc s) (world s)) as [pc w| | |] eqn:Hc;
        try discriminate.
      injection Hs as <- <-. now apply run_caller.
    + destruct (target_step c worker (tpc s) (world s)) as [pc w| | |] eqn:Hc;
        try discriminate.
      injection Hs as <- <-. now apply run_target.
Qed.

Lemma run_steps {U : Type} this self i (fn : @func U) c worker s0 tr s :
  run this self i fn c worker s0 tr s ->
  rtc (step this self i fn c worker) s0 s.
Proof.
  induction 1 as [s|s tr s1 pc w _ IH H|s tr s1 pc w _ IH H].
  - apply rtc_refl.
  - eapply rtc_r; [exact IH|]. now apply step_caller.
  - eapply rtc_r; [exact IH|]. now apply step_target.
Qed.

Lemma steps_run {U : Type} this self i (fn : @func U) c worker s0 s :
  rtc (step this self i fn c worker) s0 s ->
  exists tr, run this self i fn c worker s0 tr s.
Proof.
  revert s. apply rtc_ind_r.
  - exists []. apply run_refl.
  - intros y z _ Hstep [tr Hr]. destruct Hstep as [y pc w H|y pc w H].
    + eexists. now apply (run_caller _ _ _ _ _ _ _ tr y).
    + eexists. now apply (run_target _ _ _ _ _ _ _ tr y).
Qed.

(** C2. A call [submit_to(i, f)] with [always_async = false] made by a
    thread that does not own the target center returns only after [f] has
    been executed.

    - [wait] returns only from a wrapper whose [done] is true, and it is
      then the four actions of the caller from the assertion of [wait] to
      the release of the mutex.
    - [do_request] sets [done] only after [f()] has returned: suspended at
      [lock.lock()], it has applied [f] to the shared state and has not
      written the wrapper; when the mutex is free it returns, equal to the
      five actions of the worker on the callback, with [f] applied and
      [done] set (the wrapper of an asynchronous call deleted).
    - [submit_to] alone does not return: it is suspended in [cond.wait],
      after the first five actions of the caller, with the wrapper holding
      [f] queued on the target center, [done] false and the shared state
      untouched.
    - In every interleaving of the actions of the caller and of the worker
      of the target center, among other threads that leave the caller's
      wrapper alone, whatever is queued on the center and whatever callback
      the worker is serving when the call is made: once the caller has
      returned, the worker has made the call [f()] of the caller's wrapper,
      after the caller built it, and that action took the shared state from
      some [u] to [f u].
    - When the worker is between ticks, nothing is queued and no other
      thread acts, the shared state in which the caller returns is [f] of
      what it was at the call: the effect of [f] is there, once. *)
Theorem submit_to_returns_after_f_has_run {U : Type}
    (this : nat) (self : pthread_t) (i : Z) (fn : @func U)
    (c : nat) (worker : pthread_t) :
  (forall (e : nat) (w w' : World U),
     wait e self w = Returns tt w' ->
     exists ev, evs w !! e = Some ev /\ nonwait ev = false /\ done ev = true /\
       caller_run this self i fn 4 (C_wait e) w = Returns (C_destroy e) w') /\
  (forall (e : nat) (x : Z) (q : list EventCallbackRef) (w : World U)
          (ev : C_submit_event U),
     evs w !! e = Some ev ->
     (forall t, lock ev = Some t -> t <> worker ->
        do_request e worker x w = Blocks (set_shared (f ev (shared w)) w)) /\
     (lock ev = None ->
        exists w',
          do_request e worker x w = Returns tt w' /\
          target_run c worker 5 (T_events (e :: q)) w = Returns (T_events q) w' /\
          shared w' = f ev (shared w) /\
          evs w' !! e = (if nonwait ev then None
                         else Some (mkC_submit_event None true (f ev) false)))) /\
  (forall (w : World U) (tc : EventCenter),
     registered_at w this i c ->
     ecs w !! c = Some tc ->
     in_thread self tc = false ->
     exists w',
       submit_to this self i fn false w = Blocks w' /\
       caller_run this self i fn 5 C_submit w
       = Returns (C_sleep (fresh_addr (evs w))) w' /\
       shared w' = shared w /\
       pending fn (fresh_addr (evs w)) w' /\
       queue c w' (external_events tc ++ [fresh_addr (evs w)])) /\
  (forall (s0 s : @sys U) (tr : list (@label U)),
     cpc s0 = C_submit ->
     (forall e, uses (tpc s0) e -> is_Some (evs (world s0) !! e)) ->
     run_among this self i fn c worker s0 tr s ->
     cpc s = C_returned ->
     exists e, preceded fn tr e) /\
  (forall (w0 : World U) (s0 s : @sys U),
     initial this self i c worker w0 s0 ->
     rtc (step this self i fn c worker) s0 s ->
     cpc s = C_returned ->
     shared (world s) = fn (shared w0)).
Proof.
  split; [|split; [|split; [|split]]].
  - intros e w w' H. now apply wait_returns_done.
  - intros e x q w ev Hev. split.
    + intros t Hl Hne. now apply (do_request_locked w e ev worker x t).
    + intros Hl.
      destruct (target_run_is_do_request w c worker e ev q x Hev Hl) as (w' & Hd & Ht).
      exists w'. split; [exact Hd|]. split; [exact Ht|].
      rewrite (do_request_unlocked w e ev worker x Hev Hl) in Hd.
      injection Hd as <-. simpl. split; [reflexivity|].
      destruct (nonwait ev).
      * apply lookup_delete_eq.
      * apply lookup_insert_eq.
  - intros w tc Hreg Hc Hin.
    destruct (caller_run_is_submit_to w this self i fn c tc Hreg Hc Hin)
      as (w' & Hs & Hr).
    exists w'. split; [exact Hs|]. split; [exact Hr|].
    rewrite (submit_to_remote w this self i fn c tc Hreg Hc Hin) in Hs.
    injection Hs as <-. split; [reflexivity|]. split.
    + exists (C_submit_event_ctor fn false). simpl.
      split; [apply lookup_insert_eq|]. now split.
    + eexists. simpl. split; [apply lookup_insert_eq|reflexivity].
  - intros s0 s tr Hpc Hlive Hr Hret.
    apply (served_returned fn tr s); [|exact Hret].
    apply (served_run_among this self i fn c worker s0 tr s Hr).
    now apply inv_before.
  - intros w0 s0 s (-> & Hreg & tc & Hc & Hremote & _ & Hempty) Hr Hret.
    apply (stage_returned fn c w0 s); [|exact Hret].
    apply (stage_reachable this self i fn c worker w0 tc); try assumption.
    now apply submit_target_registered.
Qed.

(** The example: thread 100 submits [incr] to center 1, the worker takes
    it while the caller sleeps, and the caller returns. *)
Lemma submit_to_returns_after_f_has_run_witness :
  exists tr s,
    run_schedule 1 100 1 Scenario.incr 2 200
      [true; true; false; false; true; true; true; true; false; false;
       false; false; true; true; true; true] []
      (mkSys Scenario.world0 C_submit T_poll) = Some (tr, s) /\
    cpc s = C_returned /\
    (exists e, preceded Scenario.incr tr e) /\
    shared (world s) = 1%nat /\
    exists w',
      submit_to 1 100 1 Scenario.incr false Scenario.world0 = Blocks w' /\
      shared w' = 0%nat.
Proof.
  exists [Built 1; Called 1 Scenario.incr 0%nat 1%nat],
         (mkSys (mkWorld
                   (<[2%nat := set_external [] 1 Scenario.center1]>
                      (ecs Scenario.world0))
                   (acs Scenario.world0) ∅
                   {[6 := 1%nat]} 1%nat)
                C_returned (T_events [])).
  split; [vm_compute; reflexivity|]. split; [reflexivity|].
  assert (Hrun : run 1 100 1 Scenario.incr 2 200
                   (mkSys Scenario.world0 C_submit T_poll)
                   [Built 1; Called 1 Scenario.incr 0%nat 1%nat]
                   (mkSys (mkWorld
                             (<[2%nat := set_external [] 1 Scenario.center1]>
                                (ecs Scenario.world0))
                             (acs Scenario.world0) ∅
                             {[6 := 1%nat]} 1%nat)
                          C_returned (T_events []))).
  { eapply (run_schedule_run 1 100 1 Scenario.incr 2 200
             [true; true; false; false; true; true; true; true; false; false;
              false; false; true; true; true; true]); [apply run_refl|].
    vm_compute. reflexivity. }
  destruct (submit_to_returns_after_f_has_run 1 100 1 Scenario.incr 2 200)
    as (_ & _ & Hsubmit & Hamong & Hclosed).
  split; [|split].
  - apply (Hamong (mkSys Scenario.world0 C_submit T_poll)
             (mkSys (mkWorld
                       (<[2%nat := set_external [] 1 Scenario.center1]>
                          (ecs Scenario.world0))
                       (acs Scenario.world0) ∅
                       {[6 := 1%nat]} 1%nat)
                    C_returned (T_events []))
             [Built 1; Called 1 Scenario.incr 0%nat 1%nat] eq_refl).
    + intros e [].
    + apply run_among_run. exact Hrun.
    + reflexivity.
  - apply (Hclosed Scenario.world0 (mkSys Scenario.world0 C_submit T_poll)
             (mkSys (mkWorld
                       (<[2%nat := set_external [] 1 Scenario.center1]>
                          (ecs Scenario.world0))
                       (acs Scenario.world0) ∅
                       {[6 := 1%nat]} 1%nat)
                    C_returned (T_events []))).
    + split; [reflexivity|]. split; [exact example_registered_1|].
      exists Scenario.center1. now repeat split.
    + eapply run_steps. exact Hrun.
    + reflexivity.
  - destruct (Hsubmit Scenario.world0 Scenario.center1 example_registered_1
                eq_refl eq_refl) as (w' & Hs & _ & Hsh & _).
    exists w'. split; [exact Hs|exact Hsh].
Defined.

End RendezvousFacts.

(** * More of the sources: properties *)

(** ** include/intarith.h *)

Module IntarithFacts.

Import Intarith.

Lemma wrap_small x : u64 x -> wrap x = x.
Proof. intros H. unfold wrap. apply Z.mod_small. exact H. Qed.

Lemma pow2_le_64 k : 0 <= k <= 63 -> 0 < 2 ^ k /\ 2 * 2 ^ k <= 2 ^ 64.
Proof.
  intros Hk. split; [apply Z.pow_pos_nonneg; lia|].
  replace (2 * 2 ^ k) with (2 ^ (k + 1)) by (rewrite Z.pow_add_r by lia; lia).
  apply Z.pow_le_mono_r; lia.
Qed.

Lemma pow2_divides_64 k : 0 <= k <= 63 -> 2 ^ 64 = 2 ^ (64 - k) * 2 ^ k.
Proof. intros Hk. rewrite <- Z.pow_add_r by lia. f_equal. lia. Qed.

(** [x & (2^k - 1)] keeps the low [k] bits. *)
Lemma land_low_mask x k : 0 <= k <= 63 -> Z.land x (wrap (2 ^ k - 1)) = x mod 2 ^ k.
Proof.
  intros Hk. destruct (pow2_le_64 k Hk) as [Hp Hq].
  rewrite wrap_small by (unfold u64; lia).
  replace (2 ^ k - 1) with (Z.ones k) by (rewrite Z.ones_equiv; lia).
  apply Z.land_ones. lia.
Qed.

(** [x & -2^k] clears the low [k] bits. *)
Lemma land_high_mask x k :
  0 <= k <= 63 -> u64 x -> Z.land x (wrap (- 2 ^ k)) = x - x mod 2 ^ k.
Proof.
  intros Hk Hx. unfold u64 in Hx.
  assert (Hl : Z.land x (wrap (- 2 ^ k)) = Z.ldiff x (Z.ones k)).
  { apply Z.bits_inj'. intros n Hn.
    rewrite Z.land_spec, Z.ldiff_spec. unfold wrap.
    destruct (Z.lt_ge_cases n 64) as [Hlt|Hge].
    - rewrite Z.mod_pow2_bits_low by lia. f_equal.
      replace (- 2 ^ k) with (Z.lnot (Z.ones k))
        by (unfold Z.lnot; rewrite Z.ones_equiv; lia).
      now rewrite Z.lnot_spec by lia.
    - rewrite Z.mod_pow2_bits_high by lia.
      assert (Hb : Z.testbit x n = false).
      { destruct (Z.eq_dec x 0) as [->|Hne]; [apply Z.bits_0|].
        apply Z.bits_above_log2; [lia|].
        assert (Z.log2 x < 64) by (apply Z.log2_lt_pow2; lia).
        lia. }
      now rewrite Hb. }
  rewrite Hl, Z.ldiff_ones_r by lia.
  rewrite Z.shiftl_mul_pow2, Z.shiftr_div_pow2 by lia.
  pose proof (Z.div_mod x (2 ^ k)). destruct (pow2_le_64 k Hk). lia.
Qed.

(** The quotient rounded up, as long as the sum does not wrap. *)
Lemma round_up_to_is_d_times_div_round_up_aux (n d : Z) :
  u64 n -> u64 d -> 0 < d ->
  exists q,
    div_round_up n d = Ok q /\
    (n + d - 1 < 2 ^ 64 -> n <= d * q < n + d).
Proof.
  unfold u64. intros Hn Hd Hpos.
  unfold div_round_up, wrap.
  assert (Hd0 : (d =? 0) = false) by (apply Z.eqb_neq; lia).
  rewrite Hd0. eexists. split; [reflexivity|].
  intros Hsmall. rewrite (Z.mod_small (n + d - 1)) by lia.
  pose proof (Z.div_mod (n + d - 1) d ltac:(lia)) as Hdm.
  pose proof (Z.mod_pos_bound (n + d - 1) d Hpos) as Hr.
  lia.
Qed.

(** X1. [div_round_up] and [round_up_to] on [uint64_t], with a divisor
    that is not 0.  As long as [n + d - 1] does not wrap, [div_round_up n d]
    is the quotient rounded up, and [round_up_to n d] is [d] times it: the
    least multiple of [d] that is not below [n].  When [n + d - 1] wraps,
    [div_round_up] is too small: [d] times it is below [n]. *)
Theorem round_up_to_is_d_times_div_round_up (n d : Z) :
  u64 n -> u64 d -> 0 < d ->
  exists q,
    div_round_up n d = Ok q /\
    (n + d - 1 < 2 ^ 64 ->
       round_up_to n d = Ok (d * q) /\ n <= d * q < n + d) /\
    (2 ^ 64 <= n + d - 1 -> d * q < n).
Proof.
  unfold u64. intros Hn Hd Hpos.
  unfold div_round_up, round_up_to, wrap.
  assert (Hd0 : (d =? 0) = false) by (apply Z.eqb_neq; lia).
  rewrite Hd0. eexists. split; [reflexivity|]. split.
  - intros Hsmall. rewrite (Z.mod_small (n + d - 1)) by lia.
    pose proof (Z.div_mod n d ltac:(lia)) as Hdm.
    pose proof (Z.mod_pos_bound n d Hpos) as Hr.
    destruct (n mod d =? 0) eqn:Hz; simpl.
    + apply Z.eqb_eq in Hz.
      assert (Hq : (n + d - 1) / d = n / d).
      { symmetry. apply (Z.div_unique _ _ _ (d - 1)); lia. }
      rewrite Hq. split; [f_equal; lia|lia].
    + apply Z.eqb_neq in Hz.
      assert (Hq : (n + d - 1) / d = n / d + 1).
      { symmetry. apply (Z.div_unique _ _ _ (n mod d - 1)); lia. }
      rewrite Hq, Z.mod_small by lia. split; [f_equal; lia|lia].
  - intros Hbig.
    assert (Hw : (n + d - 1) mod 2 ^ 64 = n + d - 1 - 2 ^ 64).
    { symmetry. apply (Z.mod_unique _ _ 1); lia. }
    rewrite Hw.
    pose proof (Z.mul_div_le (n + d - 1 - 2 ^ 64) d Hpos). lia.
Qed.

Lemma round_up_to_is_d_times_div_round_up_witness :
  exists q,
    div_round_up 4097 4096 = Ok q /\
    (4097 + 4096 - 1 < 2 ^ 64 ->
       round_up_to 4097 4096 = Ok (4096 * q) /\ 4097 <= 4096 * q < 4097 + 4096) /\
    (2 ^ 64 <= 4097 + 4096 - 1 -> 4096 * q < 4097).
Proof.
  apply (round_up_to_is_d_times_div_round_up 4097 4096); unfold u64; lia.
Defined.

Lemma isp2_spec (x : Z) :
  u64 x ->
  (isp2 x = true <-> x = 0 \/ exists k, 0 <= k < 64 /\ x = 2 ^ k).
Proof.
  unfold u64, isp2. intros Hx. rewrite Z.eqb_eq. split.
  - intros H. destruct (Z.eq_dec x 0) as [->|Hne]; [now left|right].
    exists (Z.log2 x).
    assert (Hl : 0 <= Z.log2 x < 64).
    { split; [apply Z.log2_nonneg|apply Z.log2_lt_pow2; lia]. }
    split; [exact Hl|].
    destruct (Z.log2_spec x ltac:(lia)) as [Hlo Hhi].
    destruct (Z.eq_dec x (2 ^ Z.log2 x)) as [He|Hn]; [exact He|exfalso].
    rewrite wrap_small in H by (unfold u64; lia).
    assert (Hb1 : Z.testbit x (Z.log2 x) = true) by (apply Z.bit_log2; lia).
    assert (Hb2 : Z.testbit (x - 1) (Z.log2 x) = true).
    { assert (Hl2 : Z.log2 (x - 1) = Z.log2 x).
      { apply Z.log2_unique; [lia|].
        rewrite Z.pow_succ_r in Hhi |- * by lia. lia. }
      rewrite <- Hl2. apply Z.bit_log2. lia. }
    assert (Hb : Z.testbit (Z.land x (x - 1)) (Z.log2 x) = true)
      by (rewrite Z.land_spec, Hb1, Hb2; reflexivity).
    rewrite H, Z.bits_0 in Hb. discriminate.
  - intros [->|(k & Hk & ->)]; [reflexivity|].
    assert (Hp : 0 < 2 ^ k) by (apply Z.pow_pos_nonneg; lia).
    rewrite wrap_small by (unfold u64; lia).
    replace (2 ^ k - 1) with (Z.ones k) by (rewrite Z.ones_equiv; lia).
    rewrite Z.land_ones by lia. apply Z.mod_same. lia.
Qed.

(** X2. [isp2] on [uint64_t] accepts exactly 0 and the powers of two. *)
Theorem isp2_zero_or_power_of_two (x : Z) :
  u64 x ->
  (isp2 x = true <-> x = 0 \/ exists k, 0 <= k < 64 /\ x = 2 ^ k).
Proof. exact (isp2_spec x). Qed.

Lemma isp2_zero_or_power_of_two_witness :
  isp2 4096 = true /\ isp2 0 = true /\ isp2 12 = false.
Proof.
  split; [|split].
  - apply (proj2 (isp2_zero_or_power_of_two 4096 ltac:(unfold u64; lia))).
    right. exists 12. split; [lia|reflexivity].
  - apply (proj2 (isp2_zero_or_power_of_two 0 ltac:(unfold u64; lia))). now left.
  - reflexivity.
Defined.

(** X3. With an alignment that is a power of two, [p2phase] is the
    remainder, [p2align] the value rounded down to a multiple of the
    alignment, and the two add up to the value. *)
Theorem p2align_p2phase_split (x k : Z) :
  u64 x -> 0 <= k <= 63 ->
  p2phase x (2 ^ k) = x mod 2 ^ k /\
  p2align x (2 ^ k) = 2 ^ k * (x / 2 ^ k) /\
  p2align x (2 ^ k) + p2phase x (2 ^ k) = x.
Proof.
  intros Hx Hk. unfold p2phase, p2align.
  rewrite land_low_mask, land_high_mask by assumption.
  destruct (pow2_le_64 k Hk) as [Hp _].
  pose proof (Z.div_mod x (2 ^ k) ltac:(lia)). repeat split; lia.
Qed.

Lemma p2align_p2phase_split_witness :
  p2phase 4660 (2 ^ 8) = 4660 mod 2 ^ 8 /\
  p2align 4660 (2 ^ 8) = 2 ^ 8 * (4660 / 2 ^ 8) /\
  p2align 4660 (2 ^ 8) + p2phase 4660 (2 ^ 8) = 4660.
Proof. apply (p2align_p2phase_split 4660 8); unfold u64; lia. Defined.

Lemma wrap_opp_mod x k : 0 <= k <= 63 -> wrap (- x) mod 2 ^ k = (- x) mod 2 ^ k.
Proof.
  intros Hk. unfold wrap.
  apply Zdiv.Z.mod_mod_divide.
  exists (2 ^ (64 - k)). apply pow2_divides_64. exact Hk.
Qed.

Lemma wrap_u64 x : u64 (wrap x).
Proof. unfold u64, wrap. apply Z.mod_pos_bound. lia. Qed.

(** X4. With an alignment that is a power of two, [p2nphase] is the
    distance to the next multiple of the alignment (0 on a multiple) and
    [p2roundup x align] is [x + p2nphase x align] modulo 2^64.  When
    [x + align] does not exceed 2^64 this is the least multiple of the
    alignment that is not below [x], the value [round_up_to] computes;
    above that, [p2roundup] wraps to 0. *)
Theorem p2roundup_next_multiple (x k : Z) :
  u64 x -> 0 <= k <= 63 ->
  p2nphase x (2 ^ k) = (- x) mod 2 ^ k /\
  p2roundup x (2 ^ k) = wrap (x + p2nphase x (2 ^ k)) /\
  (x + 2 ^ k <= 2 ^ 64 ->
     x <= p2roundup x (2 ^ k) < x + 2 ^ k /\
     p2roundup x (2 ^ k) mod 2 ^ k = 0 /\
     round_up_to x (2 ^ k) = Ok (p2roundup x (2 ^ k))) /\
  (2 ^ 64 < x + 2 ^ k -> p2roundup x (2 ^ k) = 0).
Proof.
  intros Hx Hk. destruct (pow2_le_64 k Hk) as [Hp Hq].
  assert (Hn : p2nphase x (2 ^ k) = (- x) mod 2 ^ k).
  { unfold p2nphase. rewrite land_low_mask by assumption.
    now apply wrap_opp_mod. }
  assert (Hr : p2roundup x (2 ^ k) = wrap (x + p2nphase x (2 ^ k))).
  { rewrite Hn. unfold p2roundup.
    rewrite land_high_mask by (try assumption; apply wrap_u64).
    rewrite wrap_opp_mod by assumption.
    unfold wrap at 1 3.
    pose proof (Z.div_mod (- x) (2 ^ 64) ltac:(lia)) as Hdm.
    replace (- (wrap (- x) - (- x) mod 2 ^ k))
      with (x + (- x) mod 2 ^ k + ((- x) / 2 ^ 64) * 2 ^ 64)
      by (unfold wrap; lia).
    apply Z.mod_add. lia. }
  split; [exact Hn|]. split; [exact Hr|].
  unfold u64 in Hx.
  pose proof (Z.div_mod x (2 ^ k) ltac:(lia)) as Hdx.
  pose proof (Z.mod_pos_bound x (2 ^ k) Hp) as Hbx.
  assert (Hneg : (- x) mod 2 ^ k = if x mod 2 ^ k =? 0 then 0 else 2 ^ k - x mod 2 ^ k).
  { destruct (x mod 2 ^ k =? 0) eqn:Hz.
    - apply Z.eqb_eq in Hz. symmetry.
      apply (Z.mod_unique _ _ (- (x / 2 ^ k))); lia.
    - apply Z.eqb_neq in Hz. symmetry.
      apply (Z.mod_unique _ _ (- (x / 2 ^ k) - 1)); lia. }
  split.
  - intros Hfit. rewrite Hr, Hn, Hneg.
    unfold round_up_to.
    assert (Hk0 : (2 ^ k =? 0) = false) by (apply Z.eqb_neq; lia).
    rewrite Hk0.
    destruct (x mod 2 ^ k =? 0) eqn:Hz; simpl.
    + apply Z.eqb_eq in Hz. rewrite Z.add_0_r, wrap_small by (unfold u64; lia).
      repeat split; first [lia | reflexivity | assumption].
    + apply Z.eqb_neq in Hz.
      destruct (Z.eq_dec (x + (2 ^ k - x mod 2 ^ k)) (2 ^ 64)) as [He|Hne].
      * exfalso. lia.
      * rewrite wrap_small by (unfold u64; lia).
        repeat split; try lia.
        -- replace (x + (2 ^ k - x mod 2 ^ k)) with ((x / 2 ^ k + 1) * 2 ^ k) by lia.
           apply Z.mod_mul. lia.
        -- f_equal. rewrite wrap_small by (unfold u64; lia). lia.
  - intros Hover. rewrite Hr, Hn, Hneg.
    assert (Hz : x mod 2 ^ k <> 0).
    { intros Hz.
      assert (Hdiv : (2 ^ k | 2 ^ 64 - x)).
      { exists (2 ^ (64 - k) - x / 2 ^ k).
        rewrite Z.mul_sub_distr_r, <- pow2_divides_64 by exact Hk.
        clear Hn Hr Hneg. lia. }
      destruct Hdiv as [t Ht]. clear Hn Hr Hneg.
      destruct (Z.le_gt_cases t 0) as [Ht0|Ht1].
      - pose proof (Z.mul_nonpos_nonneg t (2 ^ k) Ht0 ltac:(lia)). lia.
      - assert (1 * 2 ^ k <= t * 2 ^ k) by (apply Z.mul_le_mono_nonneg_r; lia).
        lia. }
    apply Z.eqb_neq in Hz. rewrite Hz. apply Z.eqb_neq in Hz.
    assert (Hdiv : (2 ^ k | 2 ^ 64 - (x - x mod 2 ^ k))).
    { exists (2 ^ (64 - k) - x / 2 ^ k).
      rewrite Z.mul_sub_distr_r, <- pow2_divides_64 by exact Hk. lia. }
    destruct Hdiv as [t Ht].
    assert (t = 1).
    { clear Hn Hr Hneg.
      destruct (Z.le_gt_cases t 0) as [Ht0|Ht1].
      - pose proof (Z.mul_nonpos_nonneg t (2 ^ k) Ht0 ltac:(lia)). lia.
      - destruct (Z.le_gt_cases 2 t) as [Ht2|Ht2]; [|lia].
        assert (2 * 2 ^ k <= t * 2 ^ k) by (apply Z.mul_le_mono_nonneg_r; lia).
        lia. }
    subst t. unfold wrap.
    replace (x + (2 ^ k - x mod 2 ^ k)) with (2 ^ 64) by lia.
    apply Z.mod_same. lia.
Qed.

Lemma p2roundup_next_multiple_witness :
  4096 <= p2roundup 4096 (2 ^ 12) < 4096 + 2 ^ 12 /\
  p2roundup 4096 (2 ^ 12) mod 2 ^ 12 = 0 /\
  round_up_to 4096 (2 ^ 12) = Ok (p2roundup 4096 (2 ^ 12)) /\
  p2roundup (2 ^ 64 - 1) (2 ^ 12) = 0.
Proof.
  destruct (p2roundup_next_multiple 4096 12) as (_ & _ & H & _);
    [unfold u64; lia | lia |].
  destruct (p2roundup_next_multiple (2 ^ 64 - 1) 12) as (_ & _ & _ & H');
    [unfold u64; lia | lia |].
  destruct H as (H1 & H2 & H3); [lia|].
  split; [exact H1|]. split; [exact H2|]. split; [exact H3|]. apply H'. lia.
Defined.

(** X5. [shift_round_up] on [uint64_t].  For a shift count from 0 to 30,
    [shift_round_up x y] is [div_round_up x (2^y)]; when [x + 2^y - 1] does
    not wrap, it is the quotient of [x] by [2^y] rounded up, which is [x] for
    [y = 0].  At [y = 31] the [int] shift [1 << 31] is negative: the result is
    [(x - 2^31 - 1) mod 2^64] shifted, which is never [div_round_up x (2^31)]
    and is [2^33 - 2] for [x = 0]. *)
Theorem shift_round_up_is_div_round_up (x y : Z) :
  u64 x -> 0 <= y <= 31 ->
  (y < 31 ->
   shift_round_up x y = div_round_up x (2 ^ y) /\
   exists q,
     shift_round_up x y = Ok q /\
     (x + 2 ^ y - 1 < 2 ^ 64 -> x <= 2 ^ y * q < x + 2 ^ y) /\
     (y = 0 -> q = x)) /\
  (y = 31 ->
   shift_round_up x y = Ok (wrap (x - 2 ^ 31 - 1) / 2 ^ 31) /\
   shift_round_up x y <> div_round_up x (2 ^ 31) /\
   (x = 0 -> shift_round_up x y = Ok (2 ^ 33 - 2))).
Proof.
  intros Hx Hy. split.
  - intros Hlt.
    assert (Hp : 0 < 2 ^ y) by (apply Z.pow_pos_nonneg; lia).
    assert (Hq : 2 ^ y <= 2 ^ 30) by (apply Z.pow_le_mono_r; lia).
    assert (He : shift_round_up x y = div_round_up x (2 ^ y)).
    { unfold shift_round_up, int_one_shl, div_round_up.
      assert (Hb : (0 <=? y) && (y <? 31) = true)
        by (apply andb_true_iff; split; [apply Z.leb_le|apply Z.ltb_lt]; lia).
      assert (H0 : (2 ^ y =? 0) = false) by (apply Z.eqb_neq; lia).
      rewrite Hb, H0. simpl rbind.
      rewrite Z.shiftl_1_l, Z.shiftr_div_pow2 by lia. reflexivity. }
    split; [exact He|]. rewrite He.
    destruct (round_up_to_is_d_times_div_round_up_aux x (2 ^ y)) as (q & Hd & Hs);
      [exact Hx | unfold u64; lia | exact Hp |].
    exists q. split; [exact Hd|]. split; [exact Hs|].
    intros ->. unfold div_round_up, wrap in Hd. change (2 ^ 0) with 1 in Hd.
    change (1 =? 0) with false in Hd. cbv iota in Hd.
    injection Hd as <-. unfold u64 in Hx.
    rewrite Z.div_1_r. replace (x + 1 - 1) with x by lia. apply Z.mod_small. lia.
  - intros ->.
    assert (He : shift_round_up x 31 = Ok (wrap (x - 2 ^ 31 - 1) / 2 ^ 31)).
    { unfold shift_round_up, int_one_shl. simpl rbind.
      rewrite Z.shiftr_div_pow2 by lia.
      replace (x + - 2 ^ 31 - 1) with (x - 2 ^ 31 - 1) by lia. reflexivity. }
    split; [exact He|]. split.
    + rewrite He. unfold div_round_up, wrap.
      change (2 ^ 31 =? 0) with false. cbv iota.
      intros [= Heq]. unfold u64 in Hx.
      set (B := (x + 2 ^ 31 - 1) mod 2 ^ 64) in *.
      assert (HB : 0 <= B < 2 ^ 64) by (apply Z.mod_pos_bound; lia).
      assert (HA : (x - 2 ^ 31 - 1) mod 2 ^ 64
                   = B - 2 * 2 ^ 31 \/
                   (x - 2 ^ 31 - 1) mod 2 ^ 64 = B + (2 ^ 33 - 2) * 2 ^ 31).
      { destruct (Z.le_gt_cases (2 ^ 31 + 1) x) as [Hbig|Hsmall].
        - destruct (Z.lt_ge_cases (x + 2 ^ 31 - 1) (2 ^ 64)) as [Hno|Hwrap].
          + left. unfold B. rewrite !Z.mod_small by lia. lia.
          + right. unfold B.
            rewrite (Z.mod_small (x - 2 ^ 31 - 1)) by lia.
            assert (Hm : (x + 2 ^ 31 - 1) mod 2 ^ 64 = x + 2 ^ 31 - 1 - 2 ^ 64).
            { symmetry. apply (Z.mod_unique_pos _ _ 1); lia. }
            rewrite Hm. lia.
        - right. unfold B. rewrite (Z.mod_small (x + 2 ^ 31 - 1)) by lia.
          assert (Hm : (x - 2 ^ 31 - 1) mod 2 ^ 64 = x - 2 ^ 31 - 1 + 2 ^ 64).
          { symmetry. apply (Z.mod_unique_pos _ _ (-1)); lia. }
          rewrite Hm. lia. }
      destruct HA as [HA|HA]; rewrite HA in Heq.
      * replace (B - 2 * 2 ^ 31) with (B + (-2) * 2 ^ 31) in Heq by lia.
        rewrite Z.div_add in Heq by lia. lia.
      * rewrite Z.div_add in Heq by lia. lia.
    + intros ->. rewrite He. reflexivity.
Qed.

Lemma shift_round_up_is_div_round_up_witness :
  (shift_round_up 4097 12 = div_round_up 4097 (2 ^ 12) /\
   exists q,
     shift_round_up 4097 12 = Ok q /\
     (4097 + 2 ^ 12 - 1 < 2 ^ 64 -> 4097 <= 2 ^ 12 * q < 4097 + 2 ^ 12) /\
     (12 = 0 -> q = 4097)) /\
  shift_round_up 0 31 = Ok 8589934590.
Proof.
  split.
  - apply (shift_round_up_is_div_round_up 4097 12); unfold u64; lia.
  - apply (shift_round_up_is_div_round_up 0 31); unfold u64; lia.
Defined.

Lemma testbit_top v k :
  0 <= k -> 0 <= v < 2 ^ (k + 1) ->
  Z.testbit v k = true <-> 2 ^ k <= v.
Proof.
  intros Hk Hv. rewrite Z.pow_add_r in Hv by lia. change (2 ^ 1) with 2 in Hv.
  assert (Hp : 0 < 2 ^ k) by (apply Z.pow_pos_nonneg; lia).
  rewrite Z.testbit_true by lia. split.
  - intros H. destruct (Z.le_gt_cases (2 ^ k) v) as [Hle|Hgt]; [exact Hle|].
    rewrite Z.div_small in H by lia. discriminate.
  - intros H.
    assert (Hd : v / 2 ^ k = 1) by (symmetry; apply (Z.div_unique _ _ _ (v - 2 ^ k)); lia).
    now rewrite Hd.
Qed.

Lemma leading_zeros_log2 (n : nat) :
  forall v, 0 < v < 2 ^ Z.of_nat n ->
    leading_zeros n v = Z.of_nat n - 1 - Z.log2 v.
Proof.
  induction n as [|k IH]; intros v Hv.
  - simpl in Hv. lia.
  - rewrite Nat2Z.inj_succ, <- Z.add_1_r in *. simpl.
    destruct (Z.testbit v (Z.of_nat k)) eqn:Hb.
    + apply testbit_top in Hb; [|lia|lia].
      assert (Hl : Z.log2 v = Z.of_nat k).
      { apply Z.log2_unique; [lia|]. rewrite <- Z.add_1_r. lia. }
      lia.
    + assert (Hlt : v < 2 ^ Z.of_nat k).
      { destruct (Z.le_gt_cases (2 ^ Z.of_nat k) v) as [Hle|Hgt]; [|exact Hgt].
        apply testbit_top in Hle; [|lia|lia]. congruence. }
      rewrite IH by lia. lia.
Qed.

(** X6. On [uint64_t], [cbits v] is the bit length of [v]: 0 for 0, and
    otherwise the [c] with [2^(c-1) <= v < 2^c]; [clz v] is what is left of
    the 64 bits, and is 64 for 0.  Neither reaches the builtin on 0, where
    it is undefined. *)
Theorem cbits_is_bit_length (v : Z) :
  u64 v ->
  exists c z,
    cbits v = Ok c /\ clz v = Ok z /\ c + z = 64 /\
    (v = 0 -> c = 0) /\
    (v <> 0 -> c = Z.log2 v + 1 /\ 2 ^ (c - 1) <= v < 2 ^ c).
Proof.
  unfold u64, cbits, clz, __builtin_clzl. intros Hv.
  destruct (v =? 0) eqn:Hz.
  - apply Z.eqb_eq in Hz. exists 0, 64. repeat split; try lia.
  - apply Z.eqb_neq in Hz. simpl.
    pose proof (leading_zeros_log2 64 v ltac:(simpl; lia)) as Hl.
    change (Z.of_nat 64) with 64 in Hl.
    destruct (Z.log2_spec v ltac:(lia)) as [Hlo Hhi].
    exists (64 - leading_zeros 64 v), (leading_zeros 64 v).
    repeat split; try lia.
    + rewrite Hl. replace (64 - (64 - 1 - Z.log2 v) - 1) with (Z.log2 v) by lia.
      exact Hlo.
    + rewrite Hl. replace (64 - (64 - 1 - Z.log2 v)) with (Z.succ (Z.log2 v)) by lia.
      exact Hhi.
Qed.

Lemma cbits_is_bit_length_witness :
  exists c z,
    cbits 4096 = Ok c /\ clz 4096 = Ok z /\ c + z = 64 /\
    (4096 = 0 -> c = 0) /\
    (4096 <> 0 -> c = Z.log2 4096 + 1 /\ 2 ^ (c - 1) <= 4096 < 2 ^ c).
Proof. apply (cbits_is_bit_length 4096). unfold u64. lia. Defined.

Lemma trailing_zeros_first_set (n : nat) :
  forall i v,
    0 <= i ->
    (exists j, i <= j < i + Z.of_nat n /\ Z.testbit v j = true) ->
    0 <= trailing_zeros n i v < Z.of_nat n /\
    Z.testbit v (i + trailing_zeros n i v) = true /\
    forall j, i <= j < i + trailing_zeros n i v -> Z.testbit v j = false.
Proof.
  induction n as [|k IH]; intros i v Hi (j & Hj & Hb).
  - simpl in Hj. lia.
  - rewrite Nat2Z.inj_succ, <- Z.add_1_r in *. simpl.
    destruct (Z.testbit v i) eqn:Hbi.
    + rewrite Z.add_0_r. split; [lia|]. split; [exact Hbi|]. intros j' Hj'. lia.
    + assert (Hne : j <> i) by congruence.
      destruct (IH (i + 1) v ltac:(lia)) as (Hr & Hset & Hlow).
      { exists j. split; [lia|exact Hb]. }
      split; [lia|]. split.
      * now replace (i + (1 + trailing_zeros k (i + 1) v))
          with (i + 1 + trailing_zeros k (i + 1) v) by lia.
      * intros j' Hj'. destruct (Z.eq_dec j' i) as [->|Hn]; [exact Hbi|].
        apply Hlow. lia.
Qed.

(** X7. On [uint64_t], [ctz 0] is 64, and for a value that is not 0
    [ctz v] is the position of its lowest set bit: that bit is set and
    [2^(ctz v)] divides [v]. *)
Theorem ctz_is_lowest_set_bit (v : Z) :
  u64 v ->
  exists t,
    ctz v = Ok t /\
    (v = 0 -> t = 64) /\
    (v <> 0 -> 0 <= t < 64 /\ Z.testbit v t = true /\ v mod 2 ^ t = 0).
Proof.
  unfold u64, ctz, __builtin_ctzl. intros Hv.
  destruct (v =? 0) eqn:Hz.
  - apply Z.eqb_eq in Hz. exists 64. repeat split; try lia.
  - apply Z.eqb_neq in Hz.
    destruct (trailing_zeros_first_set 64 0 v ltac:(lia)) as (Hr & Hset & Hlow).
    { exists (Z.log2 v). split.
      - split; [apply Z.log2_nonneg|].
        change (0 + Z.of_nat 64) with 64. apply Z.log2_lt_pow2; lia.
      - apply Z.bit_log2. lia. }
    change (Z.of_nat 64) with 64 in Hr. rewrite Z.add_0_l in Hset.
    exists (trailing_zeros 64 0 v).
    split; [reflexivity|]. split; [lia|]. intros _.
    split; [exact Hr|]. split; [exact Hset|].
    apply Z.bits_inj'. intros n Hn. rewrite Z.bits_0.
    destruct (Z.lt_ge_cases n (trailing_zeros 64 0 v)) as [Hlt|Hge].
    + rewrite Z.mod_pow2_bits_low by lia. apply Hlow. lia.
    + apply Z.mod_pow2_bits_high. lia.
Qed.

Lemma ctz_is_lowest_set_bit_witness :
  exists t,
    ctz 4096 = Ok t /\
    (4096 = 0 -> t = 64) /\
    (4096 <> 0 -> 0 <= t < 64 /\ Z.testbit 4096 t = true /\ 4096 mod 2 ^ t = 0).
Proof. apply (ctz_is_lowest_set_bit 4096). unfold u64. lia. Defined.

Lemma mod_pow2_succ v (n : nat) :
  v mod 2 ^ Z.of_nat (S n)
  = v mod 2 ^ Z.of_nat n
    + 2 ^ Z.of_nat n * (if Z.testbit v (Z.of_nat n) then 1 else 0).
Proof.
  assert (Hp : 0 < 2 ^ Z.of_nat n) by (apply Z.pow_pos_nonneg; lia).
  rewrite Nat2Z.inj_succ, Z.pow_succ_r, Z.mul_comm by lia.
  rewrite Z.rem_mul_r by lia.
  rewrite <- Z.testbit_spec' by lia.
  destruct (Z.testbit v (Z.of_nat n)); reflexivity.
Qed.

Lemma count_bits_bounds (n : nat) v : 0 <= count_bits n v <= Z.of_nat n.
Proof.
  induction n as [|n IH]; simpl count_bits; [lia|].
  destruct (Z.testbit v (Z.of_nat n)); lia.
Qed.

Lemma count_bits_zero (n : nat) v :
  count_bits n v = 0 <-> v mod 2 ^ Z.of_nat n = 0.
Proof.
  induction n as [|n IH].
  - simpl. rewrite Z.mod_1_r. tauto.
  - rewrite mod_pow2_succ. simpl count_bits.
    pose proof (count_bits_bounds n v) as Hb.
    assert (Hp : 0 < 2 ^ Z.of_nat n) by (apply Z.pow_pos_nonneg; lia).
    pose proof (Z.mod_pos_bound v (2 ^ Z.of_nat n) Hp) as Hm.
    destruct (Z.testbit v (Z.of_nat n)); split; intros H; lia.
Qed.

Lemma count_bits_one (n : nat) v :
  count_bits n v = 1 <->
  exists k, 0 <= k < Z.of_nat n /\ v mod 2 ^ Z.of_nat n = 2 ^ k.
Proof.
  induction n as [|n IH].
  - simpl. split; [discriminate|]. intros (k & Hk & _). lia.
  - rewrite mod_pow2_succ. simpl count_bits.
    pose proof (count_bits_bounds n v) as Hb.
    assert (Hp : 0 < 2 ^ Z.of_nat n) by (apply Z.pow_pos_nonneg; lia).
    pose proof (Z.mod_pos_bound v (2 ^ Z.of_nat n) Hp) as Hm.
    destruct (Z.testbit v (Z.of_nat n)); split.
    + intros H. assert (Hz : count_bits n v = 0) by lia.
      apply count_bits_zero in Hz. exists (Z.of_nat n). split; [lia|]. lia.
    + intros (k & Hk & He).
      assert (Hkn : k = Z.of_nat n).
      { destruct (Z.lt_ge_cases k (Z.of_nat n)) as [Hlt|Hge]; [|lia].
        assert (2 ^ k < 2 ^ Z.of_nat n) by (apply Z.pow_lt_mono_r; lia). lia. }
      subst k. assert (Hz : v mod 2 ^ Z.of_nat n = 0) by lia.
      apply count_bits_zero in Hz. lia.
    + intros H. assert (H1 : count_bits n v = 1) by lia.
      apply IH in H1 as (k & Hk & He). exists k. split; [lia|]. lia.
    + intros (k & Hk & He).
      assert (Hkn : k < Z.of_nat n).
      { destruct (Z.lt_ge_cases k (Z.of_nat n)) as [Hlt|Hge]; [exact Hlt|].
        assert (2 ^ Z.of_nat n <= 2 ^ k) by (apply Z.pow_le_mono_r; lia). lia. }
      assert (H1 : count_bits n v = 1) by (apply IH; exists k; split; lia).
      lia.
Qed.

(** X27.  [popcount] on [uint64_t] is between 0 and 64, is 0 for 0 only,
    and is 1 exactly for the powers of two; [isp2] is the test
    [popcount(x) <= 1]. *)
Theorem popcount_of_powers_of_two (v : Z) :
  u64 v ->
  0 <= popcount v <= 64 /\
  (popcount v = 0 <-> v = 0) /\
  (popcount v = 1 <-> exists k, 0 <= k < 64 /\ v = 2 ^ k) /\
  (isp2 v = true <-> popcount v <= 1).
Proof.
  intros Hv. pose proof Hv as Hu. unfold u64 in Hu.
  assert (Hm : v mod 2 ^ Z.of_nat 64 = v) by (apply Z.mod_small; simpl; lia).
  assert (H0 : popcount v = 0 <-> v = 0).
  { unfold popcount. rewrite count_bits_zero, Hm. tauto. }
  assert (H1 : popcount v = 1 <-> exists k, 0 <= k < 64 /\ v = 2 ^ k).
  { unfold popcount. rewrite count_bits_one, Hm. reflexivity. }
  pose proof (count_bits_bounds 64 v) as Hb. fold (popcount v) in Hb.
  split; [simpl in Hb; lia|]. split; [exact H0|]. split; [exact H1|].
  rewrite (isp2_spec v Hv). split.
  - intros [Hz|Hk]; [apply H0 in Hz; lia|apply H1 in Hk; lia].
  - intros Hle.
    destruct (Z.eq_dec (popcount v) 0) as [Hz|Hnz]; [left; now apply H0|].
    right. apply H1. lia.
Qed.

Lemma popcount_of_powers_of_two_witness :
  popcount 4096 = 1 /\ isp2 4096 = true.
Proof.
  destruct (popcount_of_powers_of_two 4096) as (_ & _ & H1 & H2).
  - unfold u64. lia.
  - assert (H : popcount 4096 = 1).
    { apply H1. exists 12. split; [lia|reflexivity]. }
    split; [exact H|]. apply H2. lia.
Defined.

End IntarithFacts.

(** * librados/IoCtxImpl.h *)

Lemma read_state_returns {W : Type} (w : W) : read_state w = Returns w w.
Proof. reflexivity. Qed.

Lemma write_state_returns {W : Type} (x w : W) : write_state x w = Returns tt x.
Proof. reflexivity. Qed.

Module IoCtxFacts.

Import IoCtx.

Section IoCtxFacts.

Context {snapid_t SnapContext object_locator_t : Type}.

Abbreviation ctx := (IoCtxImpl snapid_t SnapContext object_locator_t).
Abbreviation ctxs := (store snapid_t SnapContext object_locator_t).

Lemma set_ref_cnt_same (c : ctx) : set_ref_cnt (ref_cnt c) c = c.
Proof. destruct c; reflexivity. Qed.

Lemma set_ref_cnt_twice n m (c : ctx) :
  set_ref_cnt n (set_ref_cnt m c) = set_ref_cnt n c.
Proof. reflexivity. Qed.

Lemma set_ref_cnt_dup n (c rhs : ctx) :
  dup (set_ref_cnt n c) rhs = set_ref_cnt n (dup c rhs).
Proof. reflexivity. Qed.

Lemma copied_set_ref_cnt n ops (c : ctx) :
  copied (set_ref_cnt n c) ops = set_ref_cnt n (copied c ops).
Proof.
  revert c; induction ops as [|[| |rhs] ops IH]; intros c; simpl; auto.
  rewrite set_ref_cnt_dup. apply IH.
Qed.

Lemma ref_cnt_copied ops (c : ctx) : ref_cnt (copied c ops) = ref_cnt c.
Proof.
  revert c; induction ops as [|[| |rhs] ops IH]; intros c; simpl; auto.
  rewrite IH. reflexivity.
Qed.

Lemma get_live (st : ctxs) this c :
  st !! this = Some c ->
  get this st
  = Returns tt (<[this := set_ref_cnt ((ref_cnt c + 1) mod 2 ^ 64) c]> st).
Proof.
  intros H. unfold get, bind. rewrite read_state_returns.
  unfold lift, deref. rewrite H. reflexivity.
Qed.

Lemma put_live (st : ctxs) this c :
  st !! this = Some c ->
  put this st
  = Returns tt (if (ref_cnt c - 1) mod 2 ^ 64 =? 0 then delete this st
                else <[this := set_ref_cnt ((ref_cnt c - 1) mod 2 ^ 64) c]> st).
Proof.
  intros H. unfold put, bind. rewrite read_state_returns.
  unfold lift, deref. rewrite H.
  simpl. destruct (_ =? 0); reflexivity.
Qed.

Lemma dup_at_live (st : ctxs) this c rhs :
  st !! this = Some c ->
  dup_at this rhs st = Returns tt (<[this := dup c rhs]> st).
Proof.
  intros H. unfold dup_at, bind. rewrite read_state_returns.
  unfold lift, deref. rewrite H. reflexivity.
Qed.

Lemma ref_step_dead (st : ctxs) this o :
  st !! this = None -> ref_step this o st = Undef.
Proof.
  intros H. destruct o; simpl; unfold get, put, dup_at, bind;
    rewrite read_state_returns; unfold lift, deref; rewrite H; reflexivity.
Qed.

Lemma ref_run_held ops : forall (st : ctxs) this c,
  st !! this = Some c ->
  0 < ref_cnt c < 2 ^ 64 ->
  held (ref_cnt c) ops ->
  0 <= ref_cnt c + balance ops < 2 ^ 64 /\
  ref_run this ops st
  = Returns tt
      (if ref_cnt c + balance ops =? 0 then delete this st
       else <[this := set_ref_cnt (ref_cnt c + balance ops) (copied c ops)]> st).
Proof.
  induction ops as [|o ops IH]; intros st this c Hc Hr Hh.
  - simpl. rewrite Z.add_0_r. split; [lia|].
    destruct (Z.eqb_spec (ref_cnt c) 0) as [E|_]; [lia|].
    rewrite set_ref_cnt_same, insert_id by exact Hc. reflexivity.
  - destruct o as [| |rhs]; simpl in Hh |- *.
    + destruct Hh as [Hlt Hh].
      unfold bind. rewrite (get_live _ _ _ Hc).
      rewrite Z.mod_small by lia.
      destruct (IH (<[this := set_ref_cnt (ref_cnt c + 1) c]> st) this
                  (set_ref_cnt (ref_cnt c + 1) c)) as [Hb Hrun].
      * apply lookup_insert_eq.
      * simpl. lia.
      * exact Hh.
      * simpl in Hb, Hrun. rewrite Hrun.
        replace (ref_cnt c + (balance ops + 1)) with (ref_cnt c + 1 + balance ops) by lia.
        split; [exact Hb|]. f_equal.
        destruct (_ =? 0).
        -- apply delete_insert_eq.
        -- rewrite insert_insert_eq, copied_set_ref_cnt. reflexivity.
    + destruct Hh as [Hlast Hh].
      unfold bind. rewrite (put_live _ _ _ Hc).
      rewrite Z.mod_small by lia.
      destruct (Z.eqb_spec (ref_cnt c - 1) 0) as [E|E].
      * rewrite Hlast by lia. simpl.
        replace (ref_cnt c + (0 - 1)) with 0 by lia. split; [lia|reflexivity].
      * destruct (IH (<[this := set_ref_cnt (ref_cnt c - 1) c]> st) this
                    (set_ref_cnt (ref_cnt c - 1) c)) as [Hb Hrun].
        -- apply lookup_insert_eq.
        -- simpl. lia.
        -- exact Hh.
        -- simpl in Hb, Hrun. rewrite Hrun.
           replace (ref_cnt c + (balance ops - 1)) with (ref_cnt c - 1 + balance ops) by lia.
           split; [exact Hb|]. f_equal.
           destruct (_ =? 0).
           ++ apply delete_insert_eq.
           ++ rewrite insert_insert_eq, copied_set_ref_cnt. reflexivity.
    + unfold bind. rewrite (dup_at_live _ _ _ _ Hc).
      destruct (IH (<[this := dup c rhs]> st) this (dup c rhs)) as [Hb Hrun].
      * apply lookup_insert_eq.
      * simpl. lia.
      * exact Hh.
      * simpl in Hb, Hrun. rewrite Hrun.
        split; [exact Hb|]. f_equal.
        destruct (_ =? 0).
        -- apply delete_insert_eq.
        -- rewrite insert_insert_eq. reflexivity.
Qed.

(** X8.  A context that is held ([ref_cnt] at least 1) goes through any
    sequence of [get], [put] and [dup] calls whose count stays in
    [1 .. 2^64 - 1] before the last call: every call returns, the other
    contexts are untouched, and the context is deleted exactly when the
    references dropped balance the initial count plus the references taken.
    Otherwise it is live with that balance as its count and with the other
    members as the [dup]s left them. *)
Theorem get_put_delete_on_balance (st : ctxs) (this : nat) (c : ctx)
    (ops : list (ref_op snapid_t SnapContext object_locator_t)) :
  st !! this = Some c ->
  0 < ref_cnt c < 2 ^ 64 ->
  held (ref_cnt c) ops ->
  exists st',
    ref_run this ops st = Returns tt st' /\
    (forall p, p <> this -> st' !! p = st !! p) /\
    (ref_cnt c + balance ops = 0 -> st' !! this = None) /\
    (ref_cnt c + balance ops <> 0 ->
     0 < ref_cnt c + balance ops < 2 ^ 64 /\
     st' !! this
     = Some (set_ref_cnt (ref_cnt c + balance ops) (copied c ops))).
Proof.
  intros Hc Hr Hh.
  destruct (ref_run_held ops st this c Hc Hr Hh) as [Hb Hrun].
  eexists; split; [exact Hrun|].
  destruct (Z.eqb_spec (ref_cnt c + balance ops) 0) as [E|E].
  - split; [|split].
    + intros p Hp. apply lookup_delete_ne. congruence.
    + intros _. apply lookup_delete_eq.
    + intros H. contradiction.
  - split; [|split].
    + intros p Hp. apply lookup_insert_ne. congruence.
    + intros H. contradiction.
    + intros _. split; [lia|]. apply lookup_insert_eq.
Qed.

(** X9.  [put] on a live context deletes it exactly when its count was 1.
    On the count 0 of a context nobody has taken, the decrement wraps: the
    context stays live with the count [2^64 - 1]. *)
Theorem put_deletes_iff_last_reference (st : ctxs) (this : nat) (c : ctx) :
  st !! this = Some c ->
  0 <= ref_cnt c < 2 ^ 64 ->
  exists st',
    put this st = Returns tt st' /\
    (st' !! this = None <-> ref_cnt c = 1) /\
    (ref_cnt c = 0 -> st' !! this = Some (set_ref_cnt (2 ^ 64 - 1) c)).
Proof.
  intros Hc Hr. rewrite (put_live _ _ _ Hc).
  eexists; split; [reflexivity|].
  destruct (Z.eq_dec (ref_cnt c) 0) as [E0|E0].
  - rewrite E0. change ((0 - 1) mod 2 ^ 64 =? 0) with false. cbv iota.
    rewrite lookup_insert_eq. split; [split; [discriminate|lia]|].
    intros _. reflexivity.
  - rewrite Z.mod_small by lia.
    destruct (Z.eqb_spec (ref_cnt c - 1) 0) as [E|E].
    + rewrite lookup_delete_eq. split; [split; [lia|reflexivity]|lia].
    + rewrite lookup_insert_eq. split; [split; [discriminate|lia]|lia].
Qed.

(** X10.  Once the last reference is dropped the context is gone: any
    further [get], [put] or [dup] through the same pointer is a use after
    free. *)
Theorem use_after_last_put_is_undefined (st : ctxs) (this : nat) (c : ctx)
    (o : ref_op snapid_t SnapContext object_locator_t)
    (ops : list (ref_op snapid_t SnapContext object_locator_t)) :
  st !! this = Some c ->
  ref_cnt c = 1 ->
  ref_run this (Put :: o :: ops) st = Undef.
Proof.
  intros Hc H1. simpl. unfold bind. rewrite (put_live _ _ _ Hc), H1.
  change ((1 - 1) mod 2 ^ 64 =? 0) with true. cbv iota.
  rewrite ref_step_dead; [reflexivity|]. apply lookup_delete_eq.
Qed.

End IoCtxFacts.

Lemma get_put_delete_on_balance_witness :
  exists st',
    ref_run 1%nat [Get; Dup (set_ref_cnt 7 (IoCtxImpl_default tt tt tt)); Put; Put]
      ({[ 1%nat := set_ref_cnt 1 (IoCtxImpl_default tt tt tt) ]} : store unit unit unit)
    = Returns tt st' /\ st' !! 1%nat = None.
Proof.
  destruct (get_put_delete_on_balance
              ({[ 1%nat := set_ref_cnt 1 (IoCtxImpl_default tt tt tt) ]} : store unit unit unit)
              1%nat (set_ref_cnt 1 (IoCtxImpl_default tt tt tt))
              [Get; Dup (set_ref_cnt 7 (IoCtxImpl_default tt tt tt)); Put; Put])
    as (st' & Hrun & _ & Hdel & _).
  - reflexivity.
  - simpl. lia.
  - simpl. repeat split; first [lia | reflexivity].
  - exists st'. split; [exact Hrun|]. apply Hdel. reflexivity.
Defined.

Lemma put_deletes_iff_last_reference_witness :
  exists st',
    put 1%nat ({[ 1%nat := IoCtxImpl_default tt tt tt ]} : store unit unit unit)
    = Returns tt st' /\
    st' !! 1%nat = Some (set_ref_cnt (2 ^ 64 - 1) (IoCtxImpl_default tt tt tt)).
Proof.
  destruct (put_deletes_iff_last_reference
              ({[ 1%nat := IoCtxImpl_default tt tt tt ]} : store unit unit unit)
              1%nat (IoCtxImpl_default tt tt tt))
    as (st' & Hrun & _ & H0).
  - reflexivity.
  - simpl. lia.
  - exists st'. split; [exact Hrun|]. apply H0. reflexivity.
Defined.

Lemma use_after_last_put_is_undefined_witness :
  ref_run 1%nat [Put; Get]
    ({[ 1%nat := set_ref_cnt 1 (IoCtxImpl_default tt tt tt) ]} : store unit unit unit)
  = Undef.
Proof.
  apply (use_after_last_put_is_undefined _ 1%nat
           (set_ref_cnt 1 (IoCtxImpl_default tt tt tt)) Get []);
    reflexivity.
Defined.

End IoCtxFacts.

(** * PosixStack.h *)

Module PoolRunsFacts.

Import PosixNetworkStack PoolRuns.

Section PoolRunsFacts.

Context {E : Type}.
Implicit Types (ts : pool E) (t : thread E).

Lemma spawn_all_appends funcs : forall ts,
  spawn_all funcs ts = Returns tt (ts ++ map thread_ctor funcs).
Proof.
  induction funcs as [|f funcs IH]; intros ts; simpl.
  - unfold ret. now rewrite app_nil_r.
  - unfold bind. change (spawn_worker f ts) with (Returns tt (ts ++ [thread_ctor f])).
    cbv beta iota. rewrite IH, <- app_assoc. reflexivity.
Qed.

Lemma joined_nil ts : joined [] ts = ts.
Proof.
  unfold joined. apply list_eq; intros i. rewrite list_lookup_imap.
  destruct (ts !! i); reflexivity.
Qed.

Lemma joined_cons i idx ts t :
  ts !! i = Some t ->
  i ∉ idx ->
  joined idx (<[i := mkThread (entry t) false true]> ts) = joined (i :: idx) ts.
Proof.
  intros Hi Hn. unfold joined. apply list_eq; intros j.
  rewrite !list_lookup_imap.
  destruct (decide (j = i)) as [->|Hne].
  - rewrite list_lookup_insert_eq by (now apply lookup_lt_Some in Hi).
    rewrite Hi. cbn [fmap option_fmap option_map].
    rewrite bool_decide_eq_false_2 by exact Hn.
    rewrite bool_decide_eq_true_2 by apply list_elem_of_here. reflexivity.
  - rewrite list_lookup_insert_ne by congruence.
    destruct (ts !! j) as [u|]; cbn [fmap option_fmap option_map]; [|reflexivity].
    destruct (decide (j ∈ idx)) as [Hin|Hnin].
    + rewrite !bool_decide_eq_true_2; [reflexivity| |exact Hin].
      now apply list_elem_of_further.
    + rewrite !bool_decide_eq_false_2; [reflexivity| |exact Hnin].
      intros [->|H]%elem_of_cons; [congruence|contradiction].
Qed.

Lemma join_all_returns idx : forall ts,
  NoDup idx ->
  (forall i, i ∈ idx ->
     exists t, ts !! i = Some t /\ joinable t = true /\ exited t = true) ->
  join_all idx ts = Returns tt (joined idx ts).
Proof.
  induction idx as [|i idx IH]; intros ts Hnd Hall; simpl.
  - unfold ret. now rewrite joined_nil.
  - apply NoDup_cons in Hnd as [Hni Hnd].
    destruct (Hall i) as (t & Hi & Hj & He); [apply list_elem_of_here|].
    unfold bind. rewrite (PoolFacts.join_worker_joinable ts i t Hi Hj), He.
    rewrite IH.
    + now rewrite (joined_cons i idx ts t Hi Hni).
    + exact Hnd.
    + intros j Hjin.
      destruct (Hall j) as (u & Hu & Hju & Heu); [now apply list_elem_of_further|].
      exists u. split; [|now split].
      rewrite list_lookup_insert_ne; [exact Hu|]. intros ->. contradiction.
Qed.

(** X12.  A worker can be joined only once: after a [join_worker(i)] that
    returned, the pool has the same length, every other thread is as it
    was, and a second [join_worker(i)] fails the assertion. *)
Theorem join_worker_twice_asserts ts ts' (i : nat) :
  join_worker i ts = Returns tt ts' ->
  join_worker i ts' = Asserts /\
  length ts' = length ts /\
  forall j, j <> i -> ts' !! j = ts !! j.
Proof.
  intros Hret.
  destruct (ts !! i) as [t|] eqn:Hi.
  - destruct (joinable t) eqn:Hj.
    + rewrite (PoolFacts.join_worker_joinable ts i t Hi Hj) in Hret.
      destruct (exited t); [|discriminate].
      injection Hret as <-. split; [|split].
      * apply PoolFacts.join_worker_asserts_iff.
        intros (_ & u & Hu & Hju).
        rewrite list_lookup_insert_eq in Hu by (now apply lookup_lt_Some in Hi).
        injection Hu as <-. discriminate.
      * apply length_insert.
      * intros j Hne. apply list_lookup_insert_ne. congruence.
    + assert (H : join_worker i ts = Asserts).
      { apply PoolFacts.join_worker_asserts_iff.
        intros (_ & u & Hu & Hju). congruence. }
      congruence.
  - assert (H : join_worker i ts = Asserts).
    { apply PoolFacts.join_worker_asserts_iff.
      intros (_ & u & Hu & _). congruence. }
    congruence.
Qed.

(** X13.  Starting and stopping a pool.  [spawn_worker] called for each of
    [funcs] on an empty pool gives one joinable thread per function, in
    order.  Once all of them have exited, [join_worker] called for distinct
    indexes of the pool returns: exactly the threads at those indexes are no
    longer joinable.  With an index repeated, or past the end, the calls end
    in a failed assertion instead. *)
Theorem spawn_all_then_join_all (funcs : list E) (idx : list nat) :
  spawn_all funcs [] = Returns tt (map thread_ctor funcs) /\
  ((forall i, i ∈ idx -> (i < length funcs)%nat) ->
   (NoDup idx ->
    join_all idx (all_exited (map thread_ctor funcs))
    = Returns tt (joined idx (all_exited (map thread_ctor funcs))) /\
    forall i func, funcs !! i = Some func ->
      joined idx (all_exited (map thread_ctor funcs)) !! i
      = Some (mkThread func (negb (bool_decide (i ∈ idx))) true)) /\
   (~ NoDup idx ->
    join_all idx (all_exited (map thread_ctor funcs)) = Asserts)) /\
  ((exists i, i ∈ idx /\ (length funcs <= i)%nat) ->
   join_all idx (all_exited (map thread_ctor funcs)) = Asserts).
Proof.
  set (ts := all_exited (map thread_ctor funcs)).
  assert (Hts : forall i, (i < length funcs)%nat ->
            exists func, funcs !! i = Some func /\
                         ts !! i = Some (mkThread func true true)).
  { intros i Hi. destruct (lookup_lt_is_Some_2 funcs i Hi) as [func Hf].
    exists func. split; [exact Hf|].
    unfold ts, all_exited. rewrite !list_lookup_fmap, Hf. reflexivity. }
  assert (Hlen : length ts = length funcs).
  { unfold ts, all_exited. now rewrite !length_map. }
  (* a run of joins over threads that are exited, and joinable unless
     already joined by the run *)
  assert (Hgen : forall idx ts0,
            length ts0 = length funcs ->
            (forall i t, ts0 !! i = Some t -> exited t = true) ->
            (exists i, i ∈ idx /\
               ((length funcs <= i)%nat \/
                exists t, ts0 !! i = Some t /\ joinable t = false)) \/ ~ NoDup idx ->
            join_all idx ts0 = Asserts).
  { clear idx. induction idx as [|i idx IH]; intros ts0 Hl Hex Hbad.
    - destruct Hbad as [(i & Hi & _)|Hnd].
      + now apply not_elem_of_nil in Hi.
      + destruct Hnd; constructor.
    - simpl. unfold bind.
      destruct (ts0 !! i) as [t|] eqn:Hi.
      + destruct (joinable t) eqn:Hj.
        * rewrite (PoolFacts.join_worker_joinable ts0 i t Hi Hj), (Hex i t Hi).
          apply IH.
          -- now rewrite length_insert.
          -- intros j u Hu.
             destruct (decide (j = i)) as [->|Hne].
             ++ rewrite list_lookup_insert_eq in Hu by (now apply lookup_lt_Some in Hi).
                now injection Hu as <-.
             ++ rewrite list_lookup_insert_ne in Hu by congruence. eauto.
          -- destruct (decide (i ∈ idx)) as [Hin|Hnin].
             { left. exists i. split; [exact Hin|]. right.
               eexists. split; [apply list_lookup_insert_eq; now apply lookup_lt_Some in Hi|].
               reflexivity. }
             destruct Hbad as [(j & Hjin & Hjbad)|Hnd].
             ++ left. apply elem_of_cons in Hjin as [->|Hjin].
                ** destruct Hjbad as [Hge|(u & Hu & Hju)].
                   --- apply lookup_lt_Some in Hi. lia.
                   --- congruence.
                ** exists j. split; [exact Hjin|].
                   destruct Hjbad as [Hge|(u & Hu & Hju)]; [now left|right].
                   exists u. split; [|exact Hju].
                   rewrite list_lookup_insert_ne; [exact Hu|]. intros ->. contradiction.
             ++ right. intros Hnd'. apply Hnd. now apply NoDup_cons.
        * assert (H : join_worker i ts0 = Asserts).
          { apply PoolFacts.join_worker_asserts_iff.
            intros (_ & u & Hu & Hju). congruence. }
          now rewrite H.
      + assert (H : join_worker i ts0 = Asserts).
        { apply PoolFacts.join_worker_asserts_iff.
          intros (_ & u & Hu & _). congruence. }
        now rewrite H. }
  assert (Hex : forall i t, ts !! i = Some t -> exited t = true).
  { intros i t Hi. unfold ts, all_exited in Hi.
    rewrite list_lookup_fmap in Hi.
    destruct (map thread_ctor funcs !! i); simpl in Hi; [|discriminate].
    now injection Hi as <-. }
  split; [exact (spawn_all_appends funcs [])|]. split.
  - intros Hin. split.
    + intros Hnd. split.
      * apply join_all_returns; [exact Hnd|].
        intros i Hi. destruct (Hts i (Hin i Hi)) as (func & _ & Hl).
        eexists. split; [exact Hl|]. now split.
      * intros i func Hf.
        destruct (Hts i) as (func' & Hf' & Hl); [now apply lookup_lt_Some in Hf|].
        assert (func' = func) by congruence. subst func'.
        unfold joined. rewrite list_lookup_imap, Hl. simpl.
        destruct (bool_decide (i ∈ idx)); reflexivity.
    + intros Hnd. apply Hgen; [exact Hlen|exact Hex|now right].
  - intros (i & Hi & Hge). apply Hgen; [exact Hlen|exact Hex|].
    left. exists i. split; [exact Hi|now left].
Qed.

End PoolRunsFacts.

Lemma join_worker_twice_asserts_witness :
  join_worker 0 [mkThread 7%nat false true] = Asserts.
Proof.
  apply (join_worker_twice_asserts [mkThread 7%nat true true]
           [mkThread 7%nat false true] 0%nat).
  reflexivity.
Defined.

Lemma spawn_all_then_join_all_witness :
  join_all [1%nat; 0%nat] (all_exited (map thread_ctor [7%nat; 8%nat]))
  = Returns tt (joined [1%nat; 0%nat] (all_exited (map thread_ctor [7%nat; 8%nat]))).
Proof.
  apply (proj1 (proj2 (spawn_all_then_join_all [7%nat; 8%nat] [1%nat; 0%nat]))).
  - intros i Hi. simpl.
    apply elem_of_cons in Hi as [->|Hi]; [lia|].
    apply elem_of_cons in Hi as [->|Hi]; [lia|].
    now apply not_elem_of_nil in Hi.
  - apply NoDup_cons. split.
    + intros Hin. apply elem_of_cons in Hin as [Hin|Hin]; [discriminate|].
      now apply not_elem_of_nil in Hin.
    + apply NoDup_cons. split; [apply not_elem_of_nil|apply NoDup_nil_2].
Defined.

End PoolRunsFacts.

(** * common/RefCountedObj.cc *)

Module RefCountedFacts.

Import RefCounted.

Section RefCountedFacts.

Variables incr decr : Z -> Z.

(** The largest value of the counter: below it [++] adds one, and down to 1
    [--] subtracts one. *)
Variable nref_max : Z.
Hypothesis incr_exact : forall v, 0 <= v < nref_max -> incr v = v + 1.
Hypothesis decr_exact : forall v, 0 < v <= nref_max -> decr v = v - 1.

Lemma _get_live (h : heap) this o :
  h !! this = Some o ->
  _get incr this h
  = if 1 <? incr (nref o)
    then Returns tt (<[this := set_nref (incr (nref o)) o]> h)
    else Asserts.
Proof.
  intros H. unfold _get, bind. rewrite read_state_returns.
  unfold lift, deref. rewrite H. rewrite write_state_returns.
  unfold ceph_assert. destruct (1 <? incr (nref o)); reflexivity.
Qed.

Lemma delete_this_live (h : heap) this o :
  h !! this = Some o ->
  delete_this this h
  = if nref o =? 0 then Returns tt (delete this h) else Asserts.
Proof.
  intros H. unfold delete_this, bind. rewrite read_state_returns.
  unfold lift, deref. rewrite H.
  unfold RefCountedObject_dtor, ceph_assert. destruct (nref o =? 0); reflexivity.
Qed.

Lemma nref_put_live (h : heap) this o :
  h !! this = Some o ->
  put decr this h
  = Returns tt (if decr (nref o) =? 0 then delete this h
                else <[this := set_nref (decr (nref o)) o]> h).
Proof.
  intros H. unfold put, bind. rewrite read_state_returns.
  unfold lift, deref. rewrite H. rewrite write_state_returns.
  destruct (decr (nref o) =? 0) eqn:E; [|reflexivity].
  rewrite (delete_this_live _ this (set_nref (decr (nref o)) o))
    by apply lookup_insert_eq.
  simpl. rewrite E. now rewrite delete_insert_eq.
Qed.

Lemma nref_step_deleted (h : heap) this op :
  h !! this = None -> nref_step incr decr this op h = Undef.
Proof.
  intros H. destruct op; simpl; unfold _get, put, bind;
    rewrite read_state_returns; unfold lift, deref; rewrite H; reflexivity.
Qed.

(** X14.  An object that is referenced ([nref] at least 1) and any sequence
    of [_get] and [put] calls through one pointer, short enough for the
    counter not to overflow.  No call fails an assertion: neither the one of
    [_get] nor the one of the destructor that [put] runs.  Either every call
    returns, the other objects are untouched, and the object is deleted
    exactly when the count has come down to 0, being live with the nref_balance
    as its count otherwise; or some call is made after the [put] that
    deleted the object, which is a use after free. *)
Theorem put_get_never_assert (ops : list nref_op) :
  forall (h : heap) (this : nat) (o : RefCountedObject),
  h !! this = Some o ->
  1 <= nref o ->
  nref o + Z.of_nat (length ops) <= nref_max ->
  (exists h',
     nref_run incr decr this ops h = Returns tt h' /\
     (forall p, p <> this -> h' !! p = h !! p) /\
     ((nref o + nref_balance ops = 0 /\ h' !! this = None) \/
      (1 <= nref o + nref_balance ops /\
       h' !! this = Some (set_nref (nref o + nref_balance ops) o)))) \/
  (nref_run incr decr this ops h = Undef /\
   exists pre op post,
     ops = pre ++ op :: post /\ nref o + nref_balance pre = 0).
Proof.
  induction ops as [|op ops IH]; intros h this o Ho H1 Hmax.
  - left. exists h. split; [reflexivity|]. split; [reflexivity|].
    right. simpl. rewrite Z.add_0_r. split; [exact H1|].
    rewrite Ho. destruct o; reflexivity.
  - simpl length in Hmax. rewrite Nat2Z.inj_succ in Hmax.
    destruct op; simpl nref_run; unfold bind; simpl nref_step.
    + rewrite (_get_live _ _ _ Ho), incr_exact by lia.
      destruct (Z.ltb_spec 1 (nref o + 1)) as [_|]; [|lia].
      destruct (IH (<[this := set_nref (nref o + 1) o]> h) this
                  (set_nref (nref o + 1) o)) as [(h' & Hrun & Hoth & Hthis)|(Hrun & pre & op & post & -> & Hpre)].
      * apply lookup_insert_eq.
      * simpl. lia.
      * simpl. lia.
      * left. exists h'. split; [exact Hrun|]. split.
        { intros p Hp. rewrite Hoth by exact Hp. apply lookup_insert_ne. congruence. }
        simpl in Hthis |- *.
        replace (nref o + (nref_balance ops + 1)) with (nref o + 1 + nref_balance ops) by lia.
        exact Hthis.
      * right. split; [exact Hrun|].
        exists (Get :: pre), op, post. split; [reflexivity|].
        simpl in Hpre |- *. lia.
    + rewrite (nref_put_live _ _ _ Ho), decr_exact by lia.
      destruct (Z.eqb_spec (nref o - 1) 0) as [E|E].
      * destruct ops as [|op ops].
        -- left. exists (delete this h). split; [reflexivity|]. split.
           { intros p Hp. apply lookup_delete_ne. congruence. }
           left. simpl. split; [lia|apply lookup_delete_eq].
        -- right. split.
           { simpl. unfold bind. rewrite nref_step_deleted; [reflexivity|].
             apply lookup_delete_eq. }
           exists [Put], op, ops. split; [reflexivity|]. simpl. lia.
      * destruct (IH (<[this := set_nref (nref o - 1) o]> h) this
                    (set_nref (nref o - 1) o)) as [(h' & Hrun & Hoth & Hthis)|(Hrun & pre & op & post & -> & Hpre)].
        -- apply lookup_insert_eq.
        -- simpl. lia.
        -- simpl. lia.
        -- left. exists h'. split; [exact Hrun|]. split.
           { intros p Hp. rewrite Hoth by exact Hp. apply lookup_insert_ne. congruence. }
           simpl in Hthis |- *.
           replace (nref o + (nref_balance ops - 1)) with (nref o - 1 + nref_balance ops) by lia.
           exact Hthis.
        -- right. split; [exact Hrun|].
           exists (Put :: pre), op, post. split; [reflexivity|].
           simpl in Hpre |- *. lia.
Qed.

(** X15.  The two assertions of RefCountedObj.cc.  [_get] on an object
    whose count is 0 fails its assertion (the count it sees after the
    increment is 1), and an object that is destroyed while its count is not
    0 fails the assertion of the destructor; with the count 0 the destructor
    passes and the object is released. *)
Theorem assertions_guard_count_zero (h : heap) (this : nat) (o : RefCountedObject) :
  h !! this = Some o ->
  0 < nref_max ->
  (nref o = 0 -> _get incr this h = Asserts) /\
  (nref o <> 0 -> delete_this this h = Asserts) /\
  (nref o = 0 -> delete_this this h = Returns tt (delete this h)).
Proof.
  intros Ho Hmax. split; [|split].
  - intros H0. rewrite (_get_live _ _ _ Ho), H0, incr_exact by lia. reflexivity.
  - intros Hn. rewrite (delete_this_live _ _ _ Ho).
    destruct (Z.eqb_spec (nref o) 0); [contradiction|reflexivity].
  - intros H0. rewrite (delete_this_live _ _ _ Ho), H0. reflexivity.
Qed.

End RefCountedFacts.

Lemma incr64_exact v : 0 <= v < 2 ^ 64 - 1 -> incr64 v = v + 1.
Proof. intros H. unfold incr64. apply Z.mod_small. lia. Qed.

Lemma decr64_exact v : 0 < v <= 2 ^ 64 - 1 -> decr64 v = v - 1.
Proof. intros H. unfold decr64. apply Z.mod_small. lia. Qed.

Lemma put_get_never_assert_witness :
  (exists h',
     nref_run incr64 decr64 1%nat [Get; Put; Put]
       ({[ 1%nat := mkRefCountedObject 1 NULL ]} : heap)
     = Returns tt h' /\
     (forall p, p <> 1%nat ->
        h' !! p = ({[ 1%nat := mkRefCountedObject 1 NULL ]} : heap) !! p) /\
     ((1 + nref_balance [Get; Put; Put] = 0 /\ h' !! 1%nat = None) \/
      (1 <= 1 + nref_balance [Get; Put; Put] /\
       h' !! 1%nat
       = Some (set_nref (1 + nref_balance [Get; Put; Put]) (mkRefCountedObject 1 NULL))))) \/
  (nref_run incr64 decr64 1%nat [Get; Put; Put]
     ({[ 1%nat := mkRefCountedObject 1 NULL ]} : heap) = Undef /\
   exists pre op post,
     [Get; Put; Put] = pre ++ op :: post /\ 1 + nref_balance pre = 0).
Proof.
  apply (put_get_never_assert incr64 decr64 (2 ^ 64 - 1) incr64_exact decr64_exact
           [Get; Put; Put] {[ 1%nat := mkRefCountedObject 1 NULL ]} 1%nat
           (mkRefCountedObject 1 NULL)).
  - reflexivity.
  - simpl. lia.
  - simpl. lia.
Defined.

Lemma assertions_guard_count_zero_witness :
  _get incr64 1%nat ({[ 1%nat := mkRefCountedObject 0 NULL ]} : heap) = Asserts.
Proof.
  apply (assertions_guard_count_zero incr64 (2 ^ 64 - 1) incr64_exact
           {[ 1%nat := mkRefCountedObject 0 NULL ]} 1%nat (mkRefCountedObject 0 NULL)).
  - reflexivity.
  - lia.
  - reflexivity.
Defined.

End RefCountedFacts.

(** * include/buffer_raw.h *)

Module RawFacts.

Import Raw.

Lemma pool_items_app l1 l2 p :
  pool_items (l1 ++ l2) p = pool_items l1 p + pool_items l2 p.
Proof.
  unfold pool_items. induction l1 as [|a l1 IH]; simpl; [reflexivity|].
  rewrite IH. destruct (adj_pool a =? p); lia.
Qed.

Lemma pool_bytes_app l1 l2 p :
  pool_bytes (l1 ++ l2) p = pool_bytes l1 p + pool_bytes l2 p.
Proof.
  unfold pool_bytes. induction l1 as [|a l1 IH]; simpl; [reflexivity|].
  rewrite IH. destruct (adj_pool a =? p); lia.
Qed.

Lemma adjust_count_returns pool items bytes log :
  adjust_count pool items bytes log
  = Returns tt (log ++ [mkAdjustment pool items bytes]).
Proof. reflexivity. Qed.

Lemma neg_to_int_small l : 0 <= l < 2 ^ 31 -> neg_int (to_int l) = Ok (- l).
Proof.
  intros H. unfold to_int, neg_int.
  destruct (Z.ltb_spec l (2 ^ 31)); [|lia].
  destruct (Z.eqb_spec l (- 2 ^ 31)); [lia|reflexivity].
Qed.

Lemma neg_to_int_large l :
  2 ^ 31 < l < 2 ^ 32 -> neg_int (to_int l) = Ok (2 ^ 32 - l).
Proof.
  intros H. unfold to_int, neg_int.
  destruct (Z.ltb_spec l (2 ^ 31)); [lia|].
  destruct (Z.eqb_spec (l - 2 ^ 32) (- 2 ^ 31)); [lia|]. f_equal. lia.
Qed.

Lemma charged_one log pool items bytes p :
  pool_items (log ++ [mkAdjustment pool items bytes]) p
  = pool_items log p + (if pool =? p then items else 0) /\
  pool_bytes (log ++ [mkAdjustment pool items bytes]) p
  = pool_bytes log p + (if pool =? p then bytes else 0).
Proof.
  rewrite pool_items_app, pool_bytes_app. unfold pool_items, pool_bytes. simpl.
  destruct (pool =? p); split; lia.
Qed.

Lemma _set_len_charged log0 log r l :
  0 <= len r < 2 ^ 31 ->
  charged log0 log r ->
  exists log', _set_len l r log = Returns (set_len l r) log' /\
               charged log0 log' (set_len l r).
Proof.
  intros Hl Hc. unfold _set_len, bind, lift. rewrite (neg_to_int_small _ Hl).
  rewrite !adjust_count_returns. eexists; split; [reflexivity|].
  intros p. destruct (Hc p) as [Hi Hb].
  destruct (charged_one log (mempool r) (-1) (- len r) p) as [Hi1 Hb1].
  destruct (charged_one (log ++ [mkAdjustment (mempool r) (-1) (- len r)])
              (mempool r) 1 l p) as [Hi2 Hb2].
  rewrite Hi2, Hb2, Hi1, Hb1, Hi, Hb. simpl.
  destruct (mempool r =? p); split; lia.
Qed.

Lemma reassign_to_mempool_charged log0 log r pool :
  0 <= len r < 2 ^ 31 ->
  charged log0 log r ->
  exists log' r',
    reassign_to_mempool pool r log = Returns r' log' /\
    charged log0 log' r' /\ len r' = len r /\ mempool r' = pool.
Proof.
  intros Hl Hc. unfold reassign_to_mempool.
  destruct (Z.eqb_spec pool (mempool r)) as [E|E].
  - exists log, r. split; [reflexivity|]. split; [exact Hc|]. now split.
  - unfold bind, lift. rewrite (neg_to_int_small _ Hl).
    rewrite !adjust_count_returns. eexists _, _; split; [reflexivity|].
    split; [|split; reflexivity].
    intros p. destruct (Hc p) as [Hi Hb].
    destruct (charged_one log (mempool r) (-1) (- len r) p) as [Hi1 Hb1].
    destruct (charged_one (log ++ [mkAdjustment (mempool r) (-1) (- len r)])
                pool 1 (len r) p) as [Hi2 Hb2].
    rewrite Hi2, Hb2, Hi1, Hb1, Hi, Hb. simpl.
    destruct (mempool r =? p), (pool =? p); split; lia.
Qed.

Section Anon.

Variable mempool_buffer_anon : Z.

Lemma raw_run_charged ops : forall log0 log r,
  0 <= len r < 2 ^ 31 ->
  small_lens ops ->
  charged log0 log r ->
  exists log' r',
    raw_run mempool_buffer_anon ops r log = Returns r' log' /\
    charged log0 log' r' /\ 0 <= len r' < 2 ^ 31.
Proof.
  induction ops as [|o ops IH]; intros log0 log r Hl Hs Hc.
  - exists log, r. split; [reflexivity|]. now split.
  - apply Forall_cons in Hs as [Ho Hs]. simpl. unfold bind.
    assert (Hstep : exists log1 r1,
              raw_step mempool_buffer_anon o r log = Returns r1 log1 /\
              charged log0 log1 r1 /\ 0 <= len r1 < 2 ^ 31).
    { destruct o as [l|pool|pool]; simpl.
      - destruct (_set_len_charged log0 log r l Hl Hc) as (log1 & Hrun & Hc1).
        exists log1, (set_len l r). split; [exact Hrun|]. split; [exact Hc1|exact Ho].
      - destruct (reassign_to_mempool_charged log0 log r pool Hl Hc)
          as (log1 & r1 & Hrun & Hc1 & Hlen & _).
        exists log1, r1. split; [exact Hrun|]. split; [exact Hc1|]. now rewrite Hlen.
      - unfold try_assign_to_mempool.
        destruct (mempool r =? mempool_buffer_anon).
        + destruct (reassign_to_mempool_charged log0 log r pool Hl Hc)
            as (log1 & r1 & Hrun & Hc1 & Hlen & _).
          exists log1, r1. split; [exact Hrun|]. split; [exact Hc1|]. now rewrite Hlen.
        + exists log, r. split; [reflexivity|]. now split. }
    destruct Hstep as (log1 & r1 & Hrun & Hc1 & Hl1).
    rewrite Hrun. apply IH; assumption.
Qed.

(** X16.  The pools' accounts are balanced over the life of a buffer whose
    length stays below 2^31.  While the buffer lives, whatever [_set_len],
    [reassign_to_mempool] and [try_assign_to_mempool] calls it has seen, the
    calls made charge exactly one item and [len] bytes to the pool the buffer
    is in and nothing to any other pool; once it is destroyed every pool is
    back to what it was charged before the buffer was made. *)
Theorem raw_accounting_balanced (c : nat) (l pool : Z) (ops : list raw_op)
    (log0 : pools) :
  0 <= l < 2 ^ 31 ->
  small_lens ops ->
  (exists log r,
     (do r0 <- raw_ctor c l pool; raw_run mempool_buffer_anon ops r0) log0
     = Returns r log /\
     forall p,
       pool_items log p = pool_items log0 p + (if mempool r =? p then 1 else 0) /\
       pool_bytes log p = pool_bytes log0 p + (if mempool r =? p then len r else 0)) /\
  (exists log,
     raw_life mempool_buffer_anon c l pool ops log0 = Returns tt log /\
     forall p, pool_items log p = pool_items log0 p /\
               pool_bytes log p = pool_bytes log0 p).
Proof.
  intros Hl Hs.
  set (r0 := mkRaw c l 0 pool (SIZE_MAX, SIZE_MAX) (0, 0)).
  assert (Hctor : raw_ctor c l pool log0
                  = Returns r0 (log0 ++ [mkAdjustment pool 1 l])) by reflexivity.
  assert (Hc0 : charged log0 (log0 ++ [mkAdjustment pool 1 l]) r0).
  { intros p. exact (charged_one log0 pool 1 l p). }
  destruct (raw_run_charged ops log0 _ r0 Hl Hs Hc0) as (log & r & Hrun & Hc & Hlr).
  split.
  - exists log, r. split; [|exact Hc].
    unfold bind. rewrite Hctor. exact Hrun.
  - unfold raw_life, bind. rewrite Hctor, Hrun.
    unfold raw_dtor, bind, lift. rewrite (neg_to_int_small _ Hlr).
    rewrite adjust_count_returns. eexists; split; [reflexivity|].
    intros p. destruct (Hc p) as [Hi Hb].
    destruct (charged_one log (mempool r) (-1) (- len r) p) as [Hi1 Hb1].
    rewrite Hi1, Hb1, Hi, Hb. destruct (mempool r =? p); split; lia.
Qed.

End Anon.

(** X17.  The destructor takes back [-(int)len] bytes.  For a length
    above 2^31 the conversion to [int] is negative, so that the destructor
    adds [2^32 - len] bytes where it should take [len] back: a buffer that is
    made and destroyed leaves its pool charged with 2^32 bytes (and no
    item).  At the length 2^31 the negation overflows. *)
Theorem raw_accounting_drifts_above_int_max (c : nat) (l pool : Z) (log0 : pools) :
  2 ^ 31 <= l < 2 ^ 32 ->
  (l = 2 ^ 31 -> (do r <- raw_ctor c l pool; raw_dtor r) log0 = Undef) /\
  (2 ^ 31 < l ->
   exists log,
     (do r <- raw_ctor c l pool; raw_dtor r) log0 = Returns tt log /\
     pool_items log pool = pool_items log0 pool /\
     pool_bytes log pool = pool_bytes log0 pool + 2 ^ 32).
Proof.
  intros Hl. split.
  - intros ->. reflexivity.
  - intros Hgt. unfold bind.
    change (raw_ctor c l pool log0)
      with (Returns (mkRaw c l 0 pool (SIZE_MAX, SIZE_MAX) (0, 0))
              (log0 ++ [mkAdjustment pool 1 l])).
    cbv beta iota. unfold raw_dtor, bind, lift. simpl len. simpl mempool.
    rewrite (neg_to_int_large l) by lia.
    rewrite adjust_count_returns. eexists; split; [reflexivity|].
    destruct (charged_one log0 pool 1 l pool) as [Hi1 Hb1].
    destruct (charged_one (log0 ++ [mkAdjustment pool 1 l]) pool (-1) (2 ^ 32 - l) pool)
      as [Hi2 Hb2].
    rewrite Hi2, Hb2, Hi1, Hb1, Z.eqb_refl. split; lia.
Qed.

(** X18.  The crc of a buffer is cached for one range.  After [set_crc]
    for a range, [get_crc] finds the value for that range and misses for
    every other one, leaving [*crc] as it was.  After [invalidate_crc],
    [get_crc] misses for every range but [(SIZE_MAX, SIZE_MAX)]: the marker of
    the empty cache is itself a range, and for it [get_crc] still answers
    with the value cached before. *)
Theorem crc_cache_single_range (r : raw) (fromto other crc old : Z * Z) :
  get_crc fromto old (set_crc fromto crc r) = (true, crc) /\
  (other <> fromto -> get_crc other old (set_crc fromto crc r) = (false, old)) /\
  (other <> (SIZE_MAX, SIZE_MAX) ->
   get_crc other old (invalidate_crc (set_crc fromto crc r)) = (false, old)) /\
  get_crc (SIZE_MAX, SIZE_MAX) old (invalidate_crc (set_crc fromto crc r))
  = (true, crc).
Proof.
  assert (Hmiss : forall a b : Z * Z, a <> b ->
            (fst b =? fst a) && (snd b =? snd a) = false).
  { intros [a1 a2] [b1 b2] Hne. simpl.
    destruct (Z.eqb_spec b1 a1) as [->|]; [|reflexivity].
    destruct (Z.eqb_spec b2 a2) as [->|]; [|reflexivity].
    contradiction. }
  split; [|split; [|split]].
  - unfold get_crc, set_crc. simpl. now rewrite !Z.eqb_refl.
  - intros Hne. unfold get_crc, set_crc. simpl. now rewrite (Hmiss _ _ Hne).
  - intros Hne. unfold get_crc, invalidate_crc, set_crc.
    cbn [last_crc_offset last_crc_val]. now rewrite (Hmiss _ _ Hne).
  - reflexivity.
Qed.

Lemma raw_accounting_balanced_witness :
  exists log,
    raw_life 0 NULL 4096 1 [SetLen 100; TryAssign 5; Reassign 1; TryAssign 0] []
    = Returns tt log /\
    forall p, pool_items log p = pool_items [] p /\
              pool_bytes log p = pool_bytes [] p.
Proof.
  destruct (raw_accounting_balanced 0 NULL 4096 1
              [SetLen 100; TryAssign 5; Reassign 1; TryAssign 0] []) as [_ H].
  - lia.
  - repeat constructor; lia.
  - exact H.
Defined.

Lemma raw_accounting_drifts_above_int_max_witness :
  exists log,
    (do r <- raw_ctor NULL (2 ^ 31 + 1) 1; raw_dtor r) [] = Returns tt log /\
    pool_items log 1 = pool_items [] 1 /\
    pool_bytes log 1 = pool_bytes [] 1 + 2 ^ 32.
Proof.
  destruct (raw_accounting_drifts_above_int_max NULL (2 ^ 31 + 1) 1 []) as [_ H].
  - lia.
  - apply H. lia.
Defined.

Lemma crc_cache_single_range_witness :
  get_crc (0, 8) (1, 1) (set_crc (0, 4) (7, 9) (mkRaw NULL 4 0 1 (SIZE_MAX, SIZE_MAX) (0, 0)))
  = (false, (1, 1)).
Proof.
  apply (proj1 (proj2 (crc_cache_single_range
           (mkRaw NULL 4 0 1 (SIZE_MAX, SIZE_MAX) (0, 0)) (0, 4) (0, 8) (7, 9) (1, 1)))).
  intros H. discriminate H.
Defined.

End RawFacts.

(** * os/ObjectStore.cc and os/ObjectStore.h *)

Module ObjectStoreFacts.

Import ObjectStore.

Section MetaFacts.

Variable isspace : byte -> bool.
Variable safe_read_file : list byte -> list byte -> Z -> Z * list byte.
Variable path : list byte.

Lemma buf_at_in buf i c :
  (i < BUFSZ)%nat -> buf !! i = Some c -> buf_at buf i = Ok c.
Proof.
  intros Hi Hc. unfold buf_at.
  destruct (Nat.ltb_spec i BUFSZ); [|lia]. now rewrite Hc.
Qed.

Lemma drop_trailing_spec buf r :
  (r <= BUFSZ)%nat ->
  (r <= length buf)%nat ->
  exists n,
    drop_trailing isspace buf r = Ok n /\
    (n <= r)%nat /\
    Forall (fun c => isspace c = true) (drop n (take r buf)) /\
    (forall c, last (take n buf) = Some c -> isspace c = false).
Proof.
  induction r as [|r IH]; intros Hr Hl.
  - exists O. split; [reflexivity|]. split; [lia|]. split.
    + rewrite take_0. constructor.
    + rewrite take_0. discriminate.
  - destruct (lookup_lt_is_Some_2 buf r) as [c Hc]; [lia|].
    simpl. rewrite (buf_at_in buf r c) by (try lia; exact Hc). simpl.
    destruct (isspace c) eqn:Hsp.
    + destruct IH as (n & Hrun & Hn & Hall & Hlast); [lia|lia|].
      exists n. split; [exact Hrun|]. split; [lia|]. split; [|exact Hlast].
      rewrite (take_S_r buf r c Hc), drop_app_le by (rewrite length_take; lia).
      apply Forall_app. split; [exact Hall|]. now repeat constructor.
    + exists (S r). split; [reflexivity|]. split; [lia|]. split.
      * rewrite drop_ge by (rewrite length_take; lia). constructor.
      * intros c'. rewrite (take_S_r buf r c Hc), last_snoc. now intros [= <-].
Qed.

(** X19.  [read_meta] in terms of what [safe_read_file] returns.  A
    result that is not positive is passed on with [*value] untouched: for an
    empty file [read_meta] returns 0 without assigning [*value].  With [r]
    bytes read, [r] within the buffer, [read_meta] returns 0 and [*value] is
    those bytes without the white space at their end: what is cut off is
    white space only, and what is left does not end in white space.  A
    result above the size of the buffer makes the loop read outside it. *)
Theorem read_meta_strips_trailing_space (key old : list byte) (r : Z)
    (buf : list byte) :
  safe_read_file path key (Z.of_nat BUFSZ) = (r, buf) ->
  length buf = BUFSZ ->
  (r <= 0 -> read_meta isspace safe_read_file path key old = Ok (r, old)) /\
  (0 < r <= Z.of_nat BUFSZ ->
   exists v sp,
     read_meta isspace safe_read_file path key old = Ok (0, v) /\
     take (Z.to_nat r) buf = v ++ sp /\
     Forall (fun c => isspace c = true) sp /\
     (forall c, last v = Some c -> isspace c = false)) /\
  (Z.of_nat BUFSZ < r ->
   read_meta isspace safe_read_file path key old = Undefined).
Proof.
  intros Hread Hlen. unfold read_meta. rewrite Hread. split; [|split].
  - intros Hr. destruct (Z.leb_spec r 0); [reflexivity|lia].
  - intros Hr. destruct (Z.leb_spec r 0); [lia|].
    destruct (drop_trailing_spec buf (Z.to_nat r)) as (n & Hrun & Hn & Hall & Hlast);
      [lia|lia|].
    rewrite Hrun. simpl.
    exists (take n buf), (drop n (take (Z.to_nat r) buf)).
    split; [reflexivity|]. split; [|split; assumption].
    rewrite <- (take_drop n (take (Z.to_nat r) buf)) at 1.
    rewrite take_take. f_equal. f_equal. lia.
  - intros Hr. destruct (Z.leb_spec r 0); [unfold BUFSZ in Hr; lia|].
    destruct (Z.to_nat r) as [|k] eqn:Hk; [lia|].
    simpl. unfold buf_at.
    destruct (Nat.ltb_spec k BUFSZ); [lia|reflexivity].
Qed.


End MetaFacts.

Section ReadvFacts.

Variable read : Z -> Z -> Z * list byte.

Lemma readv_loop_spec (m : list (Z * Z)) : forall total,
  0 <= total ->
  total + read_sum read m <= INT_MAX ->
  exists res m' data,
    readv_loop read m total = Ok (res, m', data) /\
    (res < 0 ->
     m' = m /\
     exists pre i post,
       m = pre ++ i :: post /\ fst (read (fst i) (snd i)) = res /\
       all_full read pre /\ data = read_data read pre) /\
    (0 <= res ->
     total <= res /\
     covered m' = Z.of_nat (length data) /\
     map fst m' `prefix_of` map fst m /\
     (counts_bytes read m -> res = total + Z.of_nat (length data)) /\
     (m' = m <-> all_full read m)) /\
    (all_full read m -> 0 <= res /\ data = read_data read m).
Proof.
  induction m as [|[start len] rest IH]; intros total Ht Hsum.
  - exists total, [], []. split; [reflexivity|]. split; [lia|]. split.
    + intros _. split; [lia|]. split; [reflexivity|]. split; [reflexivity|].
      split; [intros _; simpl; lia|]. split; [constructor|reflexivity].
    + intros _. split; [lia|reflexivity].
  - simpl in Hsum |- *.
    destruct (read start len) as [r t] eqn:Hrd. simpl in Hsum.
    assert (Hrs : 0 <= read_sum read rest).
    { clear. induction rest as [|i rest IH]; simpl; lia. }
    destruct (Z.ltb_spec r 0) as [Hneg|Hpos].
    + (* the read fails *)
      eexists r, _, []. split; [reflexivity|]. split; [|split].
      * intros _. split; [reflexivity|].
        exists [], (start, len), rest. split; [reflexivity|].
        simpl. rewrite Hrd. split; [reflexivity|]. split; [constructor|reflexivity].
      * lia.
      * intros Hfull. apply Forall_cons in Hfull as [[H0 _] _].
        simpl in H0. rewrite Hrd in H0. simpl in H0. lia.
    + destruct (Z.ltb_spec INT_MAX (total + r)) as [Hov|Hfit]; [lia|].
      destruct (Z.eqb_spec len (Z.of_nat (length t))) as [Hfull|Hshort]; simpl.
      * (* the interval is read completely *)
        destruct (IH (total + r)) as (res & m' & data & Hrun & Herr & Hok & Hall);
          [lia|lia|].
        rewrite Hrun. simpl.
        exists res, ((start, len) :: m'), (t ++ data).
        split; [reflexivity|].
        assert (Hthis : 0 <= fst (read (fst (start, len)) (snd (start, len))) /\
                        snd (start, len)
                        = Z.of_nat (length (snd (read (fst (start, len)) (snd (start, len)))))).
        { simpl. rewrite Hrd. simpl. split; [lia|exact Hfull]. }
        split; [|split].
        -- intros Hres. destruct (Herr Hres) as (-> & pre & i & post & -> & Hi & Hpre & ->).
           split; [reflexivity|].
           exists ((start, len) :: pre), i, post. split; [reflexivity|].
           split; [exact Hi|]. split.
           ++ apply Forall_cons. split; [exact Hthis|exact Hpre].
           ++ unfold read_data. simpl. rewrite Hrd. reflexivity.
        -- intros Hres. destruct (Hok Hres) as (Hle & Hcov & Hpre & Hcnt & Hsame).
           split; [lia|]. split; [|split; [|split]].
           ++ simpl. rewrite Hcov, length_app. lia.
           ++ simpl. now apply prefix_cons.
           ++ intros Hc. apply Forall_cons in Hc as [Hc1 Hc].
              simpl in Hc1. rewrite Hrd in Hc1. simpl in Hc1.
              rewrite (Hcnt Hc), length_app. lia.
           ++ split.
              ** intros [= Hm]. apply Forall_cons. split; [exact Hthis|].
                 now apply Hsame.
              ** intros Hf. apply Forall_cons in Hf as [_ Hf].
                 f_equal. now apply Hsame.
        -- intros Hf. apply Forall_cons in Hf as [_ Hf].
           destruct (Hall Hf) as [Hres ->]. split; [exact Hres|].
           unfold read_data. simpl. rewrite Hrd. reflexivity.
      * (* a short read: this interval is fixed, the rest is dropped *)
        assert (Hnotfull : ~ all_full read ((start, len) :: rest)).
        { intros Hf. apply Forall_cons in Hf as [[_ Hl] _].
          simpl in Hl. rewrite Hrd in Hl. simpl in Hl. contradiction. }
        destruct (Z.eqb_spec (Z.of_nat (length t)) 0) as [Hempty|Hsome].
        -- exists (total + r), [], []. split; [reflexivity|]. split; [lia|]. split.
           ++ intros _. split; [lia|]. split; [reflexivity|].
              split; [apply prefix_nil|]. split.
              ** intros Hc. apply Forall_cons in Hc as [Hc1 _].
                 simpl in Hc1. rewrite Hrd in Hc1. simpl in Hc1 |- *. lia.
              ** split; [discriminate|]. intros Hf. contradiction.
           ++ intros Hf. contradiction.
        -- exists (total + r), [(start, Z.of_nat (length t))], t.
           split; [reflexivity|]. split; [lia|]. split.
           ++ intros _. split; [lia|]. split; [simpl; lia|].
              split; [simpl; apply prefix_cons, prefix_nil|]. split.
              ** intros Hc. apply Forall_cons in Hc as [Hc1 _].
                 simpl in Hc1. rewrite Hrd in Hc1. simpl in Hc1. lia.
              ** split; [|intros Hf; contradiction].
                 intros [= Hl _]. congruence.
           ++ intros Hf. contradiction.
Qed.

(** X21.  [readv] when no [read] fails.  The call returns the sum of the
    results of its [read]s (as long as that fits an [int]); the intervals
    left in [m] cover exactly the bytes appended to [bl], they start where
    the first intervals of [m] started, and [m] is as it was exactly when
    every interval was read completely.  When [read] returns the number of
    bytes it produced, the result of [readv] is the number of bytes
    appended. *)
Theorem readv_intervals_cover_appended (m : list (Z * Z)) (bl : list byte) :
  read_sum read m <= INT_MAX ->
  exists res m' data,
    readv read m bl = Ok (res, m', bl ++ data) /\
    (0 <= res ->
     covered m' = Z.of_nat (length data) /\
     map fst m' `prefix_of` map fst m /\
     (m' = m <-> all_full read m) /\
     (counts_bytes read m -> res = Z.of_nat (length data))) /\
    (all_full read m -> 0 <= res /\ data = read_data read m).
Proof.
  intros Hsum.
  destruct (readv_loop_spec m 0) as (res & m' & data & Hrun & _ & Hok & Hall);
    [lia|lia|].
  exists res, m', data. unfold readv. rewrite Hrun. simpl.
  split; [reflexivity|]. split; [|exact Hall].
  intros Hres. destruct (Hok Hres) as (_ & Hcov & Hpre & Hcnt & Hsame).
  split; [exact Hcov|]. split; [exact Hpre|]. split; [exact Hsame|].
  intros Hc. rewrite (Hcnt Hc). lia.
Qed.

(** X22.  [readv] when a [read] fails.  The call returns the error of the
    first [read] that fails and leaves [m] as it was; the intervals before
    that one were all read completely, and their bytes stay appended to
    [bl]. *)
Theorem readv_error_leaves_partial_data (m : list (Z * Z)) (bl : list byte)
    (res : Z) (m' : list (Z * Z)) (bl' : list byte) :
  readv read m bl = Ok (res, m', bl') ->
  res < 0 ->
  m' = m /\
  exists pre i post,
    m = pre ++ i :: post /\
    fst (read (fst i) (snd i)) = res /\
    all_full read pre /\
    bl' = bl ++ read_data read pre.
Proof.
  unfold readv. intros Hrun Hres.
  assert (Hgen : forall m total res m' data,
            readv_loop read m total = Ok (res, m', data) ->
            0 <= total -> res < 0 ->
            m' = m /\
            exists pre i post,
              m = pre ++ i :: post /\ fst (read (fst i) (snd i)) = res /\
              all_full read pre /\ data = read_data read pre).
  { clear. induction m as [|[start len] rest IH]; intros total res m' data Hrun Ht Hres.
    - simpl in Hrun. injection Hrun as <- _ _. lia.
    - simpl in Hrun. destruct (read start len) as [r t] eqn:Hrd.
      destruct (Z.ltb_spec r 0) as [Hneg|Hpos].
      + injection Hrun as <- <- <-. split; [reflexivity|].
        exists [], (start, len), rest. split; [reflexivity|].
        simpl. rewrite Hrd. split; [reflexivity|]. split; [constructor|reflexivity].
      + destruct (INT_MAX <? total + r); [discriminate|].
        destruct (Z.eqb_spec len (Z.of_nat (length t))) as [Hfull|Hshort]; simpl in Hrun.
        * destruct (readv_loop read rest (total + r)) as [[[res1 m1] data1]| |] eqn:Hrest;
            simpl in Hrun; try discriminate.
          injection Hrun as <- <- <-.
          destruct (IH _ _ _ _ Hrest) as (-> & pre & i & post & -> & Hi & Hpre & ->);
            [lia|exact Hres|].
          split; [reflexivity|].
          exists ((start, len) :: pre), i, post. split; [reflexivity|].
          split; [exact Hi|]. split.
          -- apply Forall_cons. split; [|exact Hpre].
             simpl. rewrite Hrd. simpl. split; [lia|exact Hfull].
          -- unfold read_data. simpl. rewrite Hrd. reflexivity.
        * destruct (Z.of_nat (length t) =? 0); injection Hrun as <- _ _; lia. }
  destruct (readv_loop read m 0) as [[[res1 m1] data1]| |] eqn:Hloop;
    simpl in Hrun; try discriminate.
  injection Hrun as <- <- <-.
  destruct (Hgen _ _ _ _ _ Hloop) as (-> & pre & i & post & -> & Hi & Hpre & ->);
    [lia|exact Hres|].
  split; [reflexivity|]. exists pre, i, post. now repeat split.
Qed.

End ReadvFacts.

Lemma read_meta_strips_trailing_space_witness :
  exists v sp,
    read_meta ObjectStoreScenario.isspace ObjectStoreScenario.safe_read_file [] [] []
    = Ok (0, v) /\
    take (Z.to_nat 2) ObjectStoreScenario.buf_a = v ++ sp /\
    Forall (fun c => ObjectStoreScenario.isspace c = true) sp /\
    (forall c, last v = Some c -> ObjectStoreScenario.isspace c = false).
Proof.
  destruct (read_meta_strips_trailing_space ObjectStoreScenario.isspace
              ObjectStoreScenario.safe_read_file [] [] [] 2 ObjectStoreScenario.buf_a)
    as (_ & H & _).
  - reflexivity.
  - reflexivity.
  - apply H. unfold BUFSZ. lia.
Defined.


Lemma readv_intervals_cover_appended_witness :
  exists res m' data,
    readv ObjectStoreScenario.read [(0, 2); (2, 4); (8, 1)] []
    = Ok (res, m', [] ++ data) /\
    (0 <= res ->
     covered m' = Z.of_nat (length data) /\
     map fst m' `prefix_of` map fst [(0, 2); (2, 4); (8, 1)] /\
     (m' = [(0, 2); (2, 4); (8, 1)]
      <-> all_full ObjectStoreScenario.read [(0, 2); (2, 4); (8, 1)]) /\
     (counts_bytes ObjectStoreScenario.read [(0, 2); (2, 4); (8, 1)] ->
      res = Z.of_nat (length data))) /\
    (all_full ObjectStoreScenario.read [(0, 2); (2, 4); (8, 1)] ->
     0 <= res /\ data = read_data ObjectStoreScenario.read [(0, 2); (2, 4); (8, 1)]).
Proof.
  apply (readv_intervals_cover_appended ObjectStoreScenario.read
           [(0, 2); (2, 4); (8, 1)] []).
  vm_compute. discriminate.
Defined.

Lemma readv_error_leaves_partial_data_witness :
  [(0, 2); (100, 4)] = [(0, 2); (100, 4)] /\
  exists pre i post,
    [(0, 2); (100, 4)] = pre ++ i :: post /\
    fst (ObjectStoreScenario.read (fst i) (snd i)) = -5 /\
    all_full ObjectStoreScenario.read pre /\
    [Byte.x2a; Byte.x2a] = [] ++ read_data ObjectStoreScenario.read pre.
Proof.
  apply (readv_error_leaves_partial_data ObjectStoreScenario.read
           [(0, 2); (100, 4)] [] (-5) [(0, 2); (100, 4)] [Byte.x2a; Byte.x2a]).
  - reflexivity.
  - lia.
Defined.

End ObjectStoreFacts.

(** * The rendezvous in every interleaving *)

Module RendezvousSafetyFacts.

Import Rendezvous RendezvousSafety.

Section SafetyFacts.

Context {U : Type}.
Variables (this : nat) (self : pthread_t) (i : Z) (fn : @func U).
Variables (c : nat) (worker : pthread_t).
Variable w0 : World U.
Variable tc0 : EventCenter.

Hypothesis Htarget : submit_target this i w0 = Returns c w0.
Hypothesis Hcenter : ecs w0 !! c = Some tc0.
Hypothesis Hremote : in_thread self tc0 = false.
Hypothesis Howner : owner tc0 = worker.
Hypothesis Hempty : external_events tc0 = [].

Implicit Types (w : World U) (s : @sys U) (ev : C_submit_event U).

Local Abbreviation e0 := (e0 w0).

Lemma self_not_worker : (self =? worker) = false /\ (worker =? self) = false.
Proof.
  unfold in_thread in Hremote. rewrite Howner in Hremote.
  split; [exact Hremote|]. now rewrite Z.eqb_sym.
Qed.

(** *** The actions, one by one *)

Lemma step_C_wait w e ev :
  evs w !! e = Some ev -> nonwait ev = false ->
  caller_step this self i fn (C_wait e) w = Returns (C_lock e) w.
Proof.
  intros He Hn. unfold caller_step.
  rewrite (bind_returns _ _ _ _ _ (load_event_live _ _ _ He)).
  rewrite Hn. reflexivity.
Qed.

Lemma step_C_lock w e ev :
  evs w !! e = Some ev ->
  caller_step this self i fn (C_lock e) w =
  match lock ev with
  | None =>
      Returns (C_test e)
        (set_evs (<[e := mkC_submit_event (Some self) (done ev) (f ev) (nonwait ev)]>
                    (evs w)) w)
  | Some t => if t =? self then Undef else Blocks w
  end.
Proof.
  intros He. unfold caller_step, bind. rewrite (mutex_lock_cases w e ev self He).
  destruct (lock ev) as [t|]; [destruct (t =? self)|]; reflexivity.
Qed.

Lemma step_C_test w e ev :
  evs w !! e = Some ev ->
  caller_step this self i fn (C_test e) w =
  if done ev then Returns (C_unlock e) w
  else Returns (C_sleep e)
         (set_evs (<[e := mkC_submit_event None (done ev) (f ev) (nonwait ev)]>
                     (evs w)) w).
Proof.
  intros He. unfold caller_step.
  rewrite (bind_returns _ _ _ _ _ (load_event_live _ _ _ He)).
  destruct (done ev) eqn:Hd; [reflexivity|].
  unfold bind. rewrite (mutex_unlock_live w e ev He), Hd. reflexivity.
Qed.

Lemma step_C_unlock w e ev :
  evs w !! e = Some ev ->
  caller_step this self i fn (C_unlock e) w =
  Returns (C_destroy e)
    (set_evs (<[e := mkC_submit_event None (done ev) (f ev) (nonwait ev)]>
                (evs w)) w).
Proof.
  intros He. unfold caller_step, bind. now rewrite (mutex_unlock_live w e ev He).
Qed.

Lemma take_external_events_live w tc :
  ecs w !! c = Some tc ->
  take_external_events c w =
  Returns (external_events tc)
    (set_ecs (<[c := set_external [] (external_num_events tc) tc]> (ecs w)) w).
Proof.
  intros Hc. unfold take_external_events.
  rewrite (bind_returns _ _ _ _ _ (load_center_live _ _ _ Hc)). reflexivity.
Qed.

Lemma step_T_poll w q :
  queue c w q ->
  exists w',
    target_step c worker T_poll w = Returns (T_events q) w' /\
    queue c w' [] /\ shared w' = shared w /\ evs w' = evs w /\
    (q = [] -> w' = w).
Proof.
  intros (tc & Hc & Hq). eexists. split.
  - unfold target_step, bind. rewrite (take_external_events_live w tc Hc), Hq.
    reflexivity.
  - split; [eexists; split; [simpl; apply lookup_insert_eq|reflexivity]|].
    split; [reflexivity|]. split; [reflexivity|].
    intros ->. rewrite <- Hq, set_external_same, (insert_id _ _ _ Hc).
    now destruct w.
Qed.

Lemma step_T_events w e q ev :
  evs w !! e = Some ev ->
  target_step c worker (T_events (e :: q)) w =
  Returns (T_lock e q) (set_shared (f ev (shared w)) w).
Proof.
  intros He. unfold target_step, do_request_call, bind.
  rewrite (load_event_live w e ev He). reflexivity.
Qed.

Lemma step_T_lock w e q ev :
  evs w !! e = Some ev ->
  target_step c worker (T_lock e q) w =
  match lock ev with
  | None =>
      Returns (T_signal e q)
        (set_evs (<[e := mkC_submit_event (Some worker) (done ev) (f ev) (nonwait ev)]>
                    (evs w)) w)
  | Some t => if t =? worker then Undef else Blocks w
  end.
Proof.
  intros He. unfold target_step, bind. rewrite (mutex_lock_cases w e ev worker He).
  destruct (lock ev) as [t|]; [destruct (t =? worker)|]; reflexivity.
Qed.

Lemma step_T_signal w e q ev :
  evs w !! e = Some ev ->
  target_step c worker (T_signal e q) w =
  Returns (T_unlock e q (nonwait ev))
    (set_evs (<[e := mkC_submit_event (lock ev) true (f ev) (nonwait ev)]> (evs w)) w).
Proof.
  intros He.
  set (ev1 := mkC_submit_event (lock ev) true (f ev) (nonwait ev)).
  set (w1 := set_evs (<[e := ev1]> (evs w)) w).
  assert (H1 : set_done e w = Returns tt w1).
  { unfold set_done.
    rewrite (bind_returns _ _ _ _ _ (load_event_live _ _ _ He)). reflexivity. }
  assert (H2 : load_event e w1 = Returns ev1 w1).
  { apply load_event_live. simpl. apply lookup_insert_eq. }
  assert (H3 : do_request_signal e w = Returns (nonwait ev) w1).
  { unfold do_request_signal.
    rewrite (bind_returns _ _ _ _ _ H1), (bind_returns _ _ _ _ _ H2). reflexivity. }
  unfold target_step. rewrite (bind_returns _ _ _ _ _ H3). reflexivity.
Qed.

Lemma step_T_unlock w e q del ev :
  evs w !! e = Some ev ->
  target_step c worker (T_unlock e q del) w =
  Returns (T_release e q del)
    (set_evs (<[e := mkC_submit_event None (done ev) (f ev) (nonwait ev)]>
                (evs w)) w).
Proof.
  intros He. unfold target_step, bind. now rewrite (mutex_unlock_live w e ev He).
Qed.

(** *** The invariant *)

Lemma wrappers_live cp tp p :
  wrapper_live cp = true ->
  wrappers self fn worker w0 cp tp p !! e0
  = Some (mkC_submit_event (owner_of self worker cp tp) (done_of p) fn false).
Proof. intros H. unfold wrappers. rewrite H. apply lookup_insert_eq. Qed.

Lemma wrappers_update cp tp p cp' tp' p' :
  wrapper_live cp = true -> wrapper_live cp' = true ->
  <[e0 := mkC_submit_event (owner_of self worker cp' tp') (done_of p') fn false]>
    (wrappers self fn worker w0 cp tp p)
  = wrappers self fn worker w0 cp' tp' p'.
Proof.
  intros H H'. unfold wrappers. rewrite H, H'. apply insert_insert_eq.
Qed.

Lemma wrappers_set cp tp p cp' tp' p' l d :
  wrapper_live cp = true -> wrapper_live cp' = true ->
  l = owner_of self worker cp' tp' -> d = done_of p' ->
  <[e0 := mkC_submit_event l d fn false]> (wrappers self fn worker w0 cp tp p)
  = wrappers self fn worker w0 cp' tp' p'.
Proof. intros H H' -> ->. now apply wrappers_update. Qed.

Lemma wrappers_same cp tp p cp' tp' p' :
  wrapper_live cp' = wrapper_live cp ->
  owner_of self worker cp' tp' = owner_of self worker cp tp ->
  done_of p' = done_of p ->
  wrappers self fn worker w0 cp' tp' p' = wrappers self fn worker w0 cp tp p.
Proof. intros H1 H2 H3. unfold wrappers. now rewrite H1, H2, H3. Qed.

Lemma wrappers_destroyed cp tp p :
  delete e0 (wrappers self fn worker w0 cp tp p) = evs w0.
Proof.
  unfold wrappers. destruct (wrapper_live cp).
  - rewrite delete_insert_eq. apply delete_id, fresh_addr_unused.
  - apply delete_id, fresh_addr_unused.
Qed.

Lemma inv_initial : inv_at self fn c worker w0 NotQueued (mkSys w0 C_submit T_poll).
Proof.
  unfold inv_at. simpl.
  split; [now left|]. split; [now left|].
  split; [exists tc0; now split|]. now repeat split.
Qed.

Ltac pcs :=
  cbn [cpc_ok tpc_ok queue_of done_of ran_of] in *;
  unfold waiting, idle in *;
  repeat match goal with
         | H : _ \/ _ |- _ => destruct H
         | H : _ /\ _ |- _ => destruct H
         end;
  simplify_eq; simpl in *;
  first [done | tauto | intuition congruence].

Ltac ranks :=
  cbn [cpc_ok tpc_ok] in *;
  unfold waiting, idle in *;
  repeat match goal with
         | H : _ \/ _ |- _ => destruct H
         end;
  simplify_eq; simpl in *;
  first [lia | done | congruence].

Ltac own :=
  first [ reflexivity
        | unfold owner_of; simpl;
          repeat match goal with
                 | H : worker_holds _ = _ |- _ => rewrite H
                 | H : caller_holds _ = _ |- _ => rewrite H
                 | H : done_of _ = _ |- _ => rewrite H
                 end;
          reflexivity
        | pcs ].

(** An action of the caller that returns keeps the invariant; the caller
    never fails, and is suspended only once it has returned or while the
    worker holds the mutex. *)
Lemma caller_outcome p s :
  inv_at self fn c worker w0 p s ->
  (exists w,
     caller_step this self i fn (cpc s) (world s)
     = Returns (caller_next c w0 p (cpc s)).2 w /\
     inv_at self fn c worker w0 (caller_next c w0 p (cpc s)).1
       (mkSys w (caller_next c w0 p (cpc s)).2 (tpc s))) \/
  (caller_step this self i fn (cpc s) (world s) = Blocks (world s) /\
   (cpc s = C_returned \/ (cpc s = C_lock e0 /\ worker_holds (tpc s) = true))).
Proof.
  destruct s as [w cp tp]. intros (Ht & Hc & Hq & Hs & He & H0). simpl in *.
  destruct self_not_worker as [Hsw Hws].
  assert (Hlive : wrapper_live cp = true ->
            evs w !! e0
            = Some (mkC_submit_event (owner_of self worker cp tp) (done_of p) fn false)).
  { intros Hl. rewrite He. now apply wrappers_live. }
  unfold inv_at.
  destruct cp as [|t e|e|e|e|e|e|e| |]; cbn [caller_next fst snd]; simpl tpc;
    simpl cpc; simpl world.
  - (* C_submit *)
    rewrite (H0 eq_refl) in *. left. eexists. split.
    + unfold caller_step.
      rewrite (bind_returns _ _ _ _ _ Htarget).
      rewrite (bind_returns _ _ _ _ _ (load_center_live _ _ _ Hcenter)).
      rewrite Hremote, (bind_returns _ _ _ _ _ (new_C_submit_event_fresh _ _ _)).
      reflexivity.
    + assert (p = NotQueued) as -> by (destruct p; pcs).
      simpl.
      split; [exact Ht|]. split; [now right|]. split; [exact Hq|].
      split; [reflexivity|]. split; [|discriminate].
      unfold wrappers, owner_of. simpl.
      destruct Ht as [-> | ->]; reflexivity.
  - (* C_dispatch *)
    assert (p = NotQueued /\ t = c /\ e = e0) as (-> & -> & ->) by (destruct p; pcs).
    destruct Hq as (tc & Htc & Hqe). simpl in Hqe.
    left. eexists. split.
    + unfold caller_step, bind.
      rewrite (dispatch_event_external_live w c tc e0 Htc). reflexivity.
    + simpl. split; [exact Ht|]. split; [now left|].
      split; [eexists; split; [apply lookup_insert_eq|simpl; now rewrite Hqe]|].
      split; [exact Hs|]. split; [|discriminate].
      rewrite He. apply wrappers_same; reflexivity.
  - (* C_wait *)
    assert (e = e0) as -> by (destruct p; pcs).
    left. exists w. split.
    + apply (step_C_wait w e0 _ (Hlive eq_refl) eq_refl).
    + simpl. split; [exact Ht|]. split; [destruct p; pcs|].
      split; [exact Hq|]. split; [exact Hs|]. split; [|discriminate].
      rewrite He. apply wrappers_same; reflexivity.
  - (* C_lock *)
    assert (e = e0) as -> by (destruct p; pcs).
    rewrite (step_C_lock w e0 _ (Hlive eq_refl)).
    unfold owner_of. simpl.
    destruct (worker_holds tp) eqn:Hwh.
    + right. rewrite Hws. split; [reflexivity|]. right. now split.
    + left. eexists. split; [reflexivity|].
      simpl. split; [exact Ht|]. split; [destruct p; pcs|].
      split; [exact Hq|]. split; [exact Hs|]. split; [|discriminate].
      rewrite He. apply wrappers_set; own.
  - (* C_test *)
    assert (e = e0) as -> by (destruct p; pcs).
    assert (Hwh : worker_holds tp = false) by (destruct p; pcs).
    rewrite (step_C_test w e0 _ (Hlive eq_refl)).
    simpl. left. destruct (done_of p) eqn:Hd.
    + eexists. split; [reflexivity|].
      simpl. split; [exact Ht|]. split; [destruct p; pcs|].
      split; [exact Hq|]. split; [exact Hs|]. split; [|discriminate].
      rewrite He. apply wrappers_same; own.
    + eexists. split; [reflexivity|].
      simpl. split; [exact Ht|]. split; [destruct p; pcs|].
      split; [exact Hq|]. split; [exact Hs|]. split; [|discriminate].
      rewrite He. apply wrappers_set; own.
  - (* C_sleep *)
    assert (e = e0) as -> by (destruct p; pcs).
    left. exists w. split; [reflexivity|].
    simpl. split; [exact Ht|]. split; [destruct p; pcs|].
    split; [exact Hq|]. split; [exact Hs|]. split; [|discriminate].
    rewrite He. apply wrappers_same; reflexivity.
  - (* C_unlock *)
    assert (e = e0) as -> by (destruct p; pcs).
    assert (Hwh : worker_holds tp = false) by (destruct p; pcs).
    rewrite (step_C_unlock w e0 _ (Hlive eq_refl)).
    simpl. left. eexists. split; [reflexivity|].
    simpl. split; [exact Ht|]. split; [destruct p; pcs|].
    split; [exact Hq|]. split; [exact Hs|]. split; [|discriminate].
    rewrite He. apply wrappers_set; own.
  - (* C_destroy *)
    assert (e = e0) as -> by (destruct p; pcs).
    left. eexists. split; [reflexivity|].
    simpl. split; [exact Ht|]. split; [destruct p; pcs|].
    split; [exact Hq|]. split; [exact Hs|]. split; [|discriminate].
    rewrite He. apply wrappers_destroyed.
  - (* C_inline *)
    destruct p; pcs.
  - (* C_returned *)
    right. split; [reflexivity|now left].
Qed.

(** An action of the worker that returns keeps the invariant; the worker
    never fails, and is suspended only while the caller holds the mutex. *)
Lemma target_outcome p s :
  inv_at self fn c worker w0 p s ->
  (exists w,
     target_step c worker (tpc s) (world s)
     = Returns (target_next w0 p (tpc s)).2 w /\
     inv_at self fn c worker w0 (target_next w0 p (tpc s)).1
       (mkSys w (cpc s) (target_next w0 p (tpc s)).2)) \/
  (target_step c worker (tpc s) (world s) = Blocks (world s) /\
   p = Ran /\ tpc s = T_lock e0 [] /\ caller_holds (cpc s) = true).
Proof.
  destruct s as [w cp tp]. intros (Ht & Hc & Hq & Hs & He & H0). simpl in *.
  destruct self_not_worker as [Hsw Hws].
  assert (Hlive : wrapper_live cp = true ->
            evs w !! e0
            = Some (mkC_submit_event (owner_of self worker cp tp) (done_of p) fn false)).
  { intros Hl. rewrite He. now apply wrappers_live. }
  unfold inv_at.
  destruct p; simpl in Ht, Hc, Hq, Hs.
  - (* NotQueued *)
    left. destruct Ht as [-> | ->]; cbn [target_next fst snd]; simpl.
    + destruct (step_T_poll w [] Hq) as (w' & Hrun & _ & _ & _ & Hw).
      rewrite (Hw eq_refl) in Hrun.
      exists w. split; [exact Hrun|].
      split; [now right|]. split; [exact Hc|].
      split; [exact Hq|]. split; [exact Hs|]. split; [|exact H0].
      rewrite He. apply wrappers_same; reflexivity.
    + exists w. split; [reflexivity|].
      split; [now left|]. split; [exact Hc|].
      split; [exact Hq|]. split; [exact Hs|]. split; [|exact H0].
      rewrite He. apply wrappers_same; reflexivity.
  - (* Queued *)
    left. destruct Ht as [-> | ->]; cbn [target_next fst snd]; simpl.
    + destruct (step_T_poll w [e0] Hq) as (w' & Hrun & Hq' & Hs' & He' & _).
      exists w'. split; [exact Hrun|].
      split; [reflexivity|]. split; [exact Hc|].
      split; [exact Hq'|]. split; [now rewrite Hs'|].
      split; [|intros ->; pcs].
      rewrite He', He. apply wrappers_same; reflexivity.
    + exists w. split; [reflexivity|].
      split; [now left|]. split; [exact Hc|].
      split; [exact Hq|]. split; [exact Hs|]. split; [|exact H0].
      rewrite He. apply wrappers_same; reflexivity.
  - (* Taken *)
    subst tp. left. cbn [target_next fst snd cpc tpc world].
    rewrite (step_T_events w e0 [] _ (Hlive ltac:(pcs))). simpl.
    eexists. split; [reflexivity|].
    simpl. split; [reflexivity|]. split; [exact Hc|].
    split; [exact Hq|]. split; [now rewrite Hs|].
    split; [|intros ->; pcs].
    rewrite He. apply wrappers_same; reflexivity.
  - (* Ran *)
    subst tp. cbn [target_next fst snd cpc tpc world].
    rewrite (step_T_lock w e0 [] _ (Hlive ltac:(pcs))).
    unfold owner_of. simpl.
    destruct (caller_holds cp) eqn:Hch.
    + right. rewrite Hsw. now repeat split.
    + left. eexists. split; [reflexivity|].
      simpl. split; [reflexivity|].
      split; [pcs|]. split; [exact Hq|]. split; [exact Hs|].
      split; [|intros ->; pcs].
      rewrite He. apply wrappers_set; own.
  - (* Locked *)
    subst tp. left. cbn [target_next fst snd cpc tpc world].
    rewrite (step_T_signal w e0 [] _ (Hlive ltac:(pcs))). simpl.
    eexists. split; [reflexivity|].
    simpl. split; [reflexivity|]. split; [exact Hc|].
    split; [exact Hq|]. split; [exact Hs|].
    split; [|intros ->; pcs].
    rewrite He. apply wrappers_set; own.
  - (* Signalled *)
    subst tp. left. cbn [target_next fst snd cpc tpc world].
    rewrite (step_T_unlock w e0 [] false _ (Hlive ltac:(pcs))). simpl.
    eexists. split; [reflexivity|].
    simpl. split; [reflexivity|].
    split; [pcs|]. split; [exact Hq|]. split; [exact Hs|].
    split; [|intros ->; pcs].
    rewrite He. apply wrappers_set; own.
  - (* Released *)
    subst tp. left. cbn [target_next fst snd]. simpl.
    exists w. split; [reflexivity|].
    split; [now right|]. split; [exact Hc|].
    split; [exact Hq|]. split; [exact Hs|]. split; [|exact H0].
    rewrite He. apply wrappers_same; reflexivity.
  - (* Finished *)
    left. destruct Ht as [-> | ->]; cbn [target_next fst snd]; simpl.
    + destruct (step_T_poll w [] Hq) as (w' & Hrun & _ & _ & _ & Hw).
      rewrite (Hw eq_refl) in Hrun.
      exists w. split; [exact Hrun|].
      split; [now right|]. split; [exact Hc|].
      split; [exact Hq|]. split; [exact Hs|]. split; [|exact H0].
      rewrite He. apply wrappers_same; reflexivity.
    + exists w. split; [reflexivity|].
      split; [now left|]. split; [exact Hc|].
      split; [exact Hq|]. split; [exact Hs|]. split; [|exact H0].
      rewrite He. apply wrappers_same; reflexivity.
Qed.

Lemma inv_step s s' :
  inv self fn c worker w0 s -> step this self i fn c worker s s' ->
  inv self fn c worker w0 s'.
Proof.
  intros [p Hinv] Hstep. destruct Hstep as [s pc w H | s pc w H].
  - destruct (caller_outcome p s Hinv) as [(w' & H' & Hinv')|[H' _]];
      rewrite H' in H; [|discriminate].
    injection H as <- <-. eexists. exact Hinv'.
  - destruct (target_outcome p s Hinv) as [(w' & H' & Hinv')|[H' _]];
      rewrite H' in H; [|discriminate].
    injection H as <- <-. eexists. exact Hinv'.
Qed.

Lemma inv_reachable s :
  rtc (step this self i fn c worker) (mkSys w0 C_submit T_poll) s ->
  inv self fn c worker w0 s.
Proof.
  revert s. apply rtc_ind_r.
  - exists NotQueued. apply inv_initial.
  - intros y z _ Hstep IH. now apply (inv_step y).
Qed.

Lemma inv_safe s :
  inv self fn c worker w0 s -> safe this self i fn c worker s.
Proof.
  intros [p Hinv]. split; intros [H | H].
  - destruct (caller_outcome p s Hinv) as [(w' & H' & _)|[H' _]]; congruence.
  - destruct (caller_outcome p s Hinv) as [(w' & H' & _)|[H' _]]; congruence.
  - destruct (target_outcome p s Hinv) as [(w' & H' & _)|[H' _]]; congruence.
  - destruct (target_outcome p s Hinv) as [(w' & H' & _)|[H' _]]; congruence.
Qed.

Lemma inv_returned s :
  inv self fn c worker w0 s ->
  cpc s = C_returned ->
  evs (world s) = evs w0 /\ queue c (world s) [] /\
  shared (world s) = fn (shared w0) /\
  (tpc s = T_release e0 [] false \/ idle (tpc s)).
Proof.
  destruct s as [w cp tp]. intros (p & Ht & Hc & Hq & Hs & He & _) Hret.
  simpl in *. subst cp.
  destruct p; cbn [cpc_ok] in Hc; unfold waiting in Hc;
    try (repeat destruct Hc as [Hc|Hc]; discriminate);
    simpl in *; (split; [exact He|]); (split; [exact Hq|]); (split; [exact Hs|]);
    [now left|now right].
Qed.

(** *** Without spurious wake-ups *)

Implicit Types (sn : @sys U * bool).

Lemma notified_in_time p cp tp n e :
  tpc_ok w0 p tp -> cpc_ok c w0 p cp -> cp = C_sleep e ->
  (done_of p = true -> n = true) ->
  done_of (target_next w0 p tp).1 = true ->
  cond_notify_all tp cp n = true.
Proof.
  intros Ht Hc -> Hn Hd.
  destruct (done_of p) eqn:Hdp.
  - rewrite (Hn eq_refl). destruct tp; simpl; try reflexivity.
    now destruct (_ =? _)%nat.
  - destruct p; try discriminate; simpl in Ht, Hc, Hd; try discriminate.
    + destruct tp; discriminate.
    + subst tp. destruct Hc as [Hc|[Hc|Hc]]; try discriminate.
      injection Hc as ->. simpl. now rewrite Nat.eqb_refl.
Qed.

Lemma winv_step p sn sn' :
  winv self fn c worker w0 p sn ->
  wstep this self i fn c worker sn sn' ->
  exists p', winv self fn c worker w0 p' sn'.
Proof.
  intros [Hinv Hn] Hstep. destruct Hstep as [s n pc w Haw H | s n pc w H]; simpl in *.
  - destruct (caller_outcome p s Hinv) as [(w' & H' & Hinv')|[H' _]];
      rewrite H' in H; [|discriminate].
    injection H as <- <-. eexists. split; [exact Hinv'|]. simpl.
    intros e He Hd.
    destruct (cpc s); simpl in He, Hd; try discriminate.
    destruct (done_of p); discriminate.
  - destruct (target_outcome p s Hinv) as [(w' & H' & Hinv')|[H' _]];
      rewrite H' in H; [|discriminate].
    injection H as <- <-. eexists. split; [exact Hinv'|]. simpl.
    intros e He Hd. destruct Hinv as (Ht & Hc & _).
    eapply notified_in_time; eauto.
Qed.

Lemma winv_reachable n0 sn :
  rtc (wstep this self i fn c worker) (mkSys w0 C_submit T_poll, n0) sn ->
  exists p, winv self fn c worker w0 p sn.
Proof.
  revert sn. apply rtc_ind_r.
  - exists NotQueued. split; [apply inv_initial|]. simpl. discriminate.
  - intros y z _ Hstep [p IH]. now apply (winv_step p y).
Qed.

(** A caller that sleeps without a notification has not been signalled:
    [done] is false, and the notification is still to come. *)
Lemma winv_asleep p s n e :
  winv self fn c worker w0 p (s, n) ->
  cpc s = C_sleep e -> n = false ->
  e = e0 /\ done_of p = false /\
  evs (world s) !! e = Some (mkC_submit_event (owner_of self worker (cpc s) (tpc s))
                               false fn false).
Proof.
  intros [Hinv Hn] He ->. simpl in *.
  destruct (done_of p) eqn:Hd; [now specialize (Hn e He eq_refl)|].
  destruct s as [w cp tp]. destruct Hinv as (Ht & Hc & _ & _ & Hev & _).
  simpl in *. subst cp.
  assert (e = e0) as -> by (destruct p; pcs).
  split; [reflexivity|]. split; [reflexivity|].
  rewrite Hev, (wrappers_live (C_sleep e0) tp p eq_refl), Hd. reflexivity.
Qed.

Lemma winv_suspended p s n :
  winv self fn c worker w0 p (s, n) ->
  (forall e, cpc s = C_sleep e -> n = false ->
     exists ev, evs (world s) !! e = Some ev /\ done ev = false) /\
  (awake (cpc s) n = false \/
   (cpc s <> C_returned /\
    exists w, caller_step this self i fn (cpc s) (world s) = Blocks w) ->
   serving c w0 s /\
   exists pc w', target_step c worker (tpc s) (world s) = Returns pc w') /\
  (forall w, target_step c worker (tpc s) (world s) = Blocks w ->
     awake (cpc s) n = true /\
     exists pc w', caller_step this self i fn (cpc s) (world s) = Returns pc w').
Proof.
  intros Hw. pose proof Hw as [Hinv Hn]. simpl in Hinv, Hn.
  split; [|split].
  - intros e He Hf. destruct (winv_asleep p s n e Hw He Hf) as (_ & _ & Hev).
    eexists. split; [exact Hev|reflexivity].
  - intros Hsusp.
    assert (Hserv : serving c w0 s /\ caller_holds (cpc s) = false).
    { destruct Hsusp as [Haw | (Hnot & w & Hb)].
      - destruct (cpc s) as [| | | | |e| | | |] eqn:Hcp; try discriminate.
        simpl in Haw. subst n.
        destruct (winv_asleep p s false e Hw Hcp eq_refl) as (-> & Hd & _).
        split; [|reflexivity].
        destruct s as [w cp tp]. destruct Hinv as (Ht & Hc & Hq & _).
        simpl in *. subst cp. unfold serving. simpl.
        destruct p; try discriminate; simpl in Ht, Hq; auto.
        destruct Hc as [?|?]; discriminate.
      - destruct (caller_outcome p s Hinv) as [(w' & H' & _)|[_ [Hret|[Hl Hwh]]]];
          [congruence|contradiction|].
        split; [|now rewrite Hl].
        destruct s as [w1 cp tp]. destruct Hinv as (Ht & Hc & _).
        simpl in *. unfold serving. simpl.
        destruct p; simpl in Ht; try (subst tp; auto; discriminate);
          destruct Ht as [-> | ->]; discriminate. }
    destruct Hserv as [Hserv Hch]. split; [exact Hserv|].
    destruct (target_outcome p s Hinv) as [(w' & H' & _)|(_ & _ & _ & Hch')].
    + eexists _, _. exact H'.
    + congruence.
  - intros w Hb.
    destruct (target_outcome p s Hinv) as [(w' & H' & _)|(_ & _ & _ & Hch)];
      [congruence|].
    split; [destruct (cpc s); try discriminate; reflexivity|].
    destruct (caller_outcome p s Hinv) as [(w' & H' & _)|[_ [Hret|[Hl _]]]].
    + eexists _, _. exact H'.
    + rewrite Hret in Hch. discriminate.
    + rewrite Hl in Hch. discriminate.
Qed.

(** When the threads take their turns, every action brings the caller
    closer to its return, and no turn asks a sleeping caller to run before
    it has been notified. *)
Lemma turn_step p s n :
  winv self fn c worker w0 p (s, n) ->
  cpc s <> C_returned ->
  exists p' s' n',
    wstep this self i fn c worker (s, n) (s', n') /\
    winv self fn c worker w0 p' (s', n') /\
    (rank p' (cpc s') (tpc s') < rank p (cpc s) (tpc s))%nat.
Proof.
  intros Hw Hnot. pose proof Hw as [Hinv Hn]. simpl in Hinv, Hn.
  destruct (turn p (cpc s)) eqn:Hturn.
  - assert (Haw : awake (cpc s) n = true).
    { destruct (cpc s) eqn:Hcp; try reflexivity. simpl.
      apply (Hn _ eq_refl).
      destruct s as [w cp tp]. destruct Hinv as (Ht & Hc & _). simpl in *. subst cp.
      destruct p; try discriminate; try reflexivity.
      destruct Hc as [?|?]; discriminate. }
    destruct (caller_outcome p s Hinv) as [(w' & H' & Hinv')|[_ [Hret|[Hl Hwh]]]].
    + assert (Hstep : wstep this self i fn c worker (s, n)
                        (mkSys w' (caller_next c w0 p (cpc s)).2 (tpc s),
                         cond_wait (caller_next c w0 p (cpc s)).2 n))
        by (now apply wstep_caller).
      destruct (winv_step p _ _ Hw Hstep) as [p'' Hw''].
      exists (caller_next c w0 p (cpc s)).1. eexists _, _.
      split; [exact Hstep|]. split.
      * split; [exact Hinv'|]. simpl.
        intros e He Hd.
        destruct (cpc s); simpl in He, Hd; try discriminate.
        destruct (done_of p); discriminate.
      * destruct s as [w cp tp]. destruct Hinv as (Ht & Hc & _). simpl in *.
        clear H' Hinv' Hstep Hw'' Hw Hn Haw.
        destruct p; try discriminate; ranks.
    + contradiction.
    + exfalso. destruct s as [w cp tp]. destruct Hinv as (Ht & Hc & _). simpl in *.
      subst cp. destruct p; try discriminate; pcs.
  - destruct (target_outcome p s Hinv) as [(w' & H' & Hinv')|(_ & -> & _ & Hch)].
    + assert (Hstep : wstep this self i fn c worker (s, n)
                        (mkSys w' (cpc s) (target_next w0 p (tpc s)).2,
                         cond_notify_all (tpc s) (cpc s) n))
        by (now apply wstep_target).
      exists (target_next w0 p (tpc s)).1. eexists _, _.
      split; [exact Hstep|]. split.
      * split; [exact Hinv'|]. simpl. intros e He Hd.
        destruct Hinv as (Ht & Hc & _).
        eapply notified_in_time; eauto.
      * destruct s as [w cp tp]. destruct Hinv as (Ht & Hc & _). simpl in *.
        clear H' Hinv' Hstep Hw Hn.
        destruct p; try discriminate; ranks.
    + simpl in Hturn. congruence.
Qed.

Lemma returned_or_not (pc : caller_pc) : pc = C_returned \/ pc <> C_returned.
Proof. destruct pc; (now left) || (right; discriminate). Qed.

Lemma winv_can_return k : forall p s n,
  winv self fn c worker w0 p (s, n) ->
  (rank p (cpc s) (tpc s) <= k)%nat ->
  exists s' n', rtc (wstep this self i fn c worker) (s, n) (s', n') /\
                cpc s' = C_returned.
Proof.
  induction k as [|k IH]; intros p s n Hw Hrank.
  - destruct (returned_or_not (cpc s)) as [Hret|Hnot].
    + exists s, n. split; [apply rtc_refl|exact Hret].
    + destruct (turn_step p s n Hw Hnot) as (p' & s' & n' & _ & _ & Hlt). lia.
  - destruct (returned_or_not (cpc s)) as [Hret|Hnot].
    + exists s, n. split; [apply rtc_refl|exact Hret].
    + destruct (turn_step p s n Hw Hnot) as (p' & s' & n' & Hstep & Hw' & Hlt).
      destruct (IH p' s' n' Hw') as (s'' & n'' & Hr & Hret); [lia|].
      exists s'', n''. split; [|exact Hret].
      eapply rtc_l; [exact Hstep|exact Hr].
Qed.

Lemma wrun_schedule_steps sch : forall sn sn',
  wrun_schedule this self i fn c worker sch sn = Some sn' ->
  rtc (wstep this self i fn c worker) sn sn'.
Proof.
  induction sch as [|who sch IH]; intros sn sn' H; simpl in H.
  - injection H as <-. apply rtc_refl.
  - destruct (wsched_step this self i fn c worker who sn) as [sn1|] eqn:Hs;
      [|discriminate].
    eapply rtc_l; [|apply IH; exact H].
    destruct sn as [s n]. unfold wsched_step in Hs. destruct who.
    + destruct (awake (cpc s) n) eqn:Haw; [|discriminate].
      destruct (caller_step this self i fn (cpc s) (world s)) as [pc w| | |] eqn:Hc;
        try discriminate.
      injection Hs as <-. now apply wstep_caller.
    + destruct (target_step c worker (tpc s) (world s)) as [pc w| | |] eqn:Hc;
        try discriminate.
      injection Hs as <-. now apply wstep_target.
Qed.

End SafetyFacts.

(** X23.  A synchronous [submit_to] to a center that another thread
    drives, from the call on, in every interleaving of the actions of the
    caller with those of the worker (the worker between ticks and the queue
    empty at the call).  No action that either thread is about to take fails
    an assertion or is undefined: the assertion of [wait] holds, no thread
    locks the mutex it owns, and neither thread touches the wrapper, which
    lives in the frame of the caller, before it is built or after the caller
    has returned. *)
Theorem rendezvous_never_faults {U : Type}
    (this : nat) (self : pthread_t) (i : Z) (fn : @func U)
    (c : nat) (worker : pthread_t) (w0 : World U) (s0 s : @sys U) :
  initial this self i c worker w0 s0 ->
  rtc (step this self i fn c worker) s0 s ->
  safe this self i fn c worker s.
Proof.
  intros (-> & Hreg & tc & Hc & Hremote & Howner & Hempty) Hr.
  apply (inv_safe this self i fn c worker w0 tc); try assumption.
  - now apply submit_target_registered.
  - apply (inv_reachable this self i fn c worker w0 tc); try assumption.
    now apply submit_target_registered.
Qed.

(** X24.  No wake-up is lost.  The same rendezvous, a caller suspended
    in [cond.wait] running again only once [cond.notify_all()] has been
    called.  In every state the two threads can reach: a caller that sleeps
    without having been notified has a wrapper whose [done] is false; a
    caller that cannot run and has not returned (it sleeps, or waits for the
    mutex) has the worker serving its wrapper, with an action to take; and
    the worker is suspended only while the caller, which holds the mutex,
    is awake and has an action to take. *)
Theorem rendezvous_never_deadlocks {U : Type}
    (this : nat) (self : pthread_t) (i : Z) (fn : @func U)
    (c : nat) (worker : pthread_t) (w0 : World U) (s0 s : @sys U) (n0 n : bool) :
  initial this self i c worker w0 s0 ->
  rtc (wstep this self i fn c worker) (s0, n0) (s, n) ->
  (forall e, cpc s = C_sleep e -> n = false ->
     exists ev, evs (world s) !! e = Some ev /\ done ev = false) /\
  (awake (cpc s) n = false \/
   (cpc s <> C_returned /\
    exists w, caller_step this self i fn (cpc s) (world s) = Blocks w) ->
   serving c w0 s /\
   exists pc w', target_step c worker (tpc s) (world s) = Returns pc w') /\
  (forall w, target_step c worker (tpc s) (world s) = Blocks w ->
     awake (cpc s) n = true /\
     exists pc w', caller_step this self i fn (cpc s) (world s) = Returns pc w').
Proof.
  intros (-> & Hreg & tc & Hc & Hremote & Howner & Hempty) Hr.
  assert (Htarget : submit_target this i w0 = Returns c w0)
    by now apply submit_target_registered.
  destruct (winv_reachable this self i fn c worker w0 tc Htarget Hc Hremote Howner
              Hempty n0 (s, n) Hr) as [p Hw].
  eapply (winv_suspended this self i fn c worker w0 tc); eassumption.
Qed.

(** X25.  That [submit_to] completes, with a caller suspended in
    [cond.wait] running again only once [cond.notify_all()] has been called:
    from every state that the two threads can reach there is a continuation
    in which the caller returns.  The notification of [do_request], made
    under the mutex before [done] is set, always reaches a caller that
    sleeps. *)
Theorem rendezvous_can_always_return {U : Type}
    (this : nat) (self : pthread_t) (i : Z) (fn : @func U)
    (c : nat) (worker : pthread_t) (w0 : World U) (s0 s : @sys U) (n0 n : bool) :
  initial this self i c worker w0 s0 ->
  rtc (wstep this self i fn c worker) (s0, n0) (s, n) ->
  exists s' n',
    rtc (wstep this self i fn c worker) (s, n) (s', n') /\ cpc s' = C_returned.
Proof.
  intros (-> & Hreg & tc & Hc & Hremote & Howner & Hempty) Hr.
  assert (Htarget : submit_target this i w0 = Returns c w0)
    by now apply submit_target_registered.
  destruct (winv_reachable this self i fn c worker w0 tc Htarget Hc Hremote Howner
              Hempty n0 (s, n) Hr) as [p Hw].
  eapply (winv_can_return this self i fn c worker w0 tc); try eassumption.
  apply Nat.le_refl.
Qed.

(** X26.  When the caller has returned from that [submit_to], its wrapper
    is gone and the live wrappers are those of before the call, the queue of
    the target center is empty, the shared state is [f] of what it was, and
    the worker, which did not delete the wrapper, is at its last step on it
    or back to its ticks. *)
Theorem rendezvous_returns_clean {U : Type}
    (this : nat) (self : pthread_t) (i : Z) (fn : @func U)
    (c : nat) (worker : pthread_t) (w0 : World U) (s0 s : @sys U) :
  initial this self i c worker w0 s0 ->
  rtc (step this self i fn c worker) s0 s ->
  cpc s = C_returned ->
  evs (world s) = evs w0 /\ queue c (world s) [] /\
  shared (world s) = fn (shared w0) /\
  (tpc s = T_release (e0 w0) [] false \/ idle (tpc s)).
Proof.
  intros (-> & Hreg & tc & Hc & Hremote & Howner & Hempty) Hr Hret.
  apply (inv_returned self fn c worker w0); [|exact Hret].
  apply (inv_reachable this self i fn c worker w0 tc); try assumption.
  now apply submit_target_registered.
Qed.

Lemma scenario_initial :
  initial 1 100 1 2 200 Scenario.world0 (mkSys Scenario.world0 C_submit T_poll).
Proof.
  split; [reflexivity|]. split; [exact example_registered_1|].
  exists Scenario.center1. now repeat split.
Qed.

Lemma scenario_reaches sch tr s :
  run_schedule 1 100 1 Scenario.incr 2 200 sch []
    (mkSys Scenario.world0 C_submit T_poll) = Some (tr, s) ->
  rtc (step 1 100 1 Scenario.incr 2 200) (mkSys Scenario.world0 C_submit T_poll) s.
Proof.
  intros H. apply (RendezvousFacts.run_steps 1 100 1 Scenario.incr 2 200 _ tr).
  eapply RendezvousFacts.run_schedule_run; [apply run_refl|exact H].
Qed.

(** The caller has queued its wrapper and sleeps; the worker has taken
    the wrapper and has called [incr]. *)
Lemma rendezvous_never_faults_witness :
  exists tr s,
    run_schedule 1 100 1 Scenario.incr 2 200
      [true; true; true; true; true; false; false] []
      (mkSys Scenario.world0 C_submit T_poll) = Some (tr, s) /\
    safe 1 100 1 Scenario.incr 2 200 s.
Proof.
  eexists _, _. split; [vm_compute; reflexivity|].
  apply (rendezvous_never_faults 1 100 1 Scenario.incr 2 200 Scenario.world0
           (mkSys Scenario.world0 C_submit T_poll)).
  - exact scenario_initial.
  - apply (scenario_reaches [true; true; true; true; true; false; false]
             [Built 1; Called 1 Scenario.incr 0%nat 1%nat]).
    vm_compute. reflexivity.
Defined.

(** The caller has queued its wrapper and sleeps; the worker has not
    taken the wrapper yet. *)
Lemma rendezvous_never_deadlocks_witness :
  exists s n,
    wrun_schedule 1 100 1 Scenario.incr 2 200 [true; true; true; true; true]
      (mkSys Scenario.world0 C_submit T_poll, false) = Some (s, n) /\
    awake (cpc s) n = false /\
    serving 2 Scenario.world0 s /\
    exists pc w', target_step 2 200 (tpc s) (world s) = Returns pc w'.
Proof.
  eexists _, _. split; [vm_compute; reflexivity|].
  split; [reflexivity|].
  eapply (proj1 (proj2 (rendezvous_never_deadlocks 1 100 1 Scenario.incr 2 200
            Scenario.world0 (mkSys Scenario.world0 C_submit T_poll) _ false _
            scenario_initial _))).
  left. reflexivity.
  Unshelve.
  apply (wrun_schedule_steps 1 100 1 Scenario.incr 2 200
           [true; true; true; true; true]).
  vm_compute. reflexivity.
Defined.

(** From the state in which the caller sleeps and the worker is about to
    take the wrapper from the queue. *)
Lemma rendezvous_can_always_return_witness :
  exists s n s' n',
    wrun_schedule 1 100 1 Scenario.incr 2 200 [true; true; true; true; true]
      (mkSys Scenario.world0 C_submit T_poll, false) = Some (s, n) /\
    rtc (wstep 1 100 1 Scenario.incr 2 200) (s, n) (s', n') /\
    cpc s' = C_returned.
Proof.
  destruct (wrun_schedule 1 100 1 Scenario.incr 2 200 [true; true; true; true; true]
              (mkSys Scenario.world0 C_submit T_poll, false)) as [[s n]|] eqn:Hs;
    [|vm_compute in Hs; discriminate].
  destruct (rendezvous_can_always_return 1 100 1 Scenario.incr 2 200 Scenario.world0
              (mkSys Scenario.world0 C_submit T_poll) s false n)
    as (s' & n' & Hr & Hret).
  - exact scenario_initial.
  - now apply (wrun_schedule_steps 1 100 1 Scenario.incr 2 200
                 [true; true; true; true; true]).
  - exists s, n, s', n'. now repeat split.
Defined.

Lemma rendezvous_returns_clean_witness :
  exists tr s,
    run_schedule 1 100 1 Scenario.incr 2 200
      [true; true; false; false; true; true; true; true; false; false;
       false; false; true; true; true; true] []
      (mkSys Scenario.world0 C_submit T_poll) = Some (tr, s) /\
    evs (world s) = evs Scenario.world0 /\ queue 2 (world s) [] /\
    shared (world s) = Scenario.incr (shared Scenario.world0).
Proof.
  eexists _, _. split; [vm_compute; reflexivity|].
  destruct (rendezvous_returns_clean 1 100 1 Scenario.incr 2 200 Scenario.world0
              (mkSys Scenario.world0 C_submit T_poll)
              (mkSys (mkWorld
                        (<[2%nat := set_external [] 1 Scenario.center1]>
                           (ecs Scenario.world0))
                        (acs Scenario.world0) ∅
                        {[6 := 1%nat]} 1%nat)
                     C_returned (T_events [])))
    as (He & Hq & Hs & _).
  - exact scenario_initial.
  - apply (scenario_reaches
             [true; true; false; false; true; true; true; true; false; false;
              false; false; true; true; true; true]
             [Built 1; Called 1 Scenario.incr 0%nat 1%nat]).
    vm_compute. reflexivity.
  - reflexivity.
  - split; [exact He|]. split; [exact Hq|exact Hs].
Defined.

End RendezvousSafetyFacts.

(** * os/ObjectStore.cc: [ObjectStore::create] *)

Module StoreCreateFacts.

Import Stdlib.Strings.String.
Import StoreCreate.
Local Open Scope string_scope.

(** X28.  What [ObjectStore::create] with a journal builds.  The store
    built gets [data]; ["memstore"] and ["filestore"] are built in every
    build; for the types other than ["filestore"], ["kstore"] and
    ["random"] the call is the one without a journal, and [journal] and
    [flags] matter to a FileStore only.  ["random"] gives a FileStore when
    [rand()] is odd and otherwise a BlueStore, or [nullptr] in a build
    without BlueStore; ["kstore"] gives [nullptr] unless the experimental
    feature is enabled. *)
Theorem create_dispatches_on_type (WITH_BLUESTORE : bool) (rand : Z)
    (kstore_enabled : bool) (type data journal : string) (flags : Z) :
  0 <= rand ->
  (forall s, create_journal WITH_BLUESTORE rand kstore_enabled type data journal flags
             = Some s -> data_of s = data) /\
  create_journal WITH_BLUESTORE rand kstore_enabled "memstore" data journal flags
  = Some (MemStore data) /\
  create_journal WITH_BLUESTORE rand kstore_enabled "filestore" data journal flags
  = Some (FileStore data journal flags) /\
  (type <> "filestore" -> type <> "kstore" -> type <> "random" ->
   create_journal WITH_BLUESTORE rand kstore_enabled type data journal flags
   = create WITH_BLUESTORE type data) /\
  (forall journal' flags',
     (forall d j f,
        create_journal WITH_BLUESTORE rand kstore_enabled type data journal flags
        <> Some (FileStore d j f)) ->
     create_journal WITH_BLUESTORE rand kstore_enabled type data journal' flags'
     = create_journal WITH_BLUESTORE rand kstore_enabled type data journal flags) /\
  create_journal WITH_BLUESTORE rand kstore_enabled "random" data journal flags
  = (if Z.odd rand then Some (FileStore data journal flags)
     else if WITH_BLUESTORE then Some (BlueStore data) else None) /\
  create_journal WITH_BLUESTORE rand kstore_enabled "kstore" data journal flags
  = (if kstore_enabled then Some (KStore data) else None).
Proof.
  intros Hrand.
  assert (Hodd : negb (Z.rem rand 2 =? 0)%Z = Z.odd rand).
  { rewrite Z.rem_mod_nonneg, Zmod_odd by lia. destruct (Z.odd rand); reflexivity. }
  split; [|split; [|split; [|split; [|split; [|split]]]]].
  - intros s. unfold create_journal, create.
    destruct ((type =? "filestore") || ((type =? "random") && negb (Z.rem rand 2 =? 0)%Z));
      [now intros [= <-]|].
    destruct ((type =? "kstore") && kstore_enabled); [now intros [= <-]|].
    destruct (type =? "memstore"); [now intros [= <-]|].
    destruct (WITH_BLUESTORE && ((type =? "bluestore") || (type =? "random")));
      [now intros [= <-]|discriminate].
  - reflexivity.
  - reflexivity.
  - intros Hf Hk Hr. unfold create_journal.
    apply eqb_neq in Hf, Hk, Hr. now rewrite Hf, Hk, Hr.
  - intros journal' flags' Hnot. unfold create_journal in *.
    destruct ((type =? "filestore") || ((type =? "random") && negb (Z.rem rand 2 =? 0)%Z));
      [|reflexivity].
    exfalso. now apply (Hnot data journal flags).
  - unfold create_journal, create. simpl. rewrite Hodd.
    destruct (Z.odd rand); [reflexivity|]. simpl.
    destruct WITH_BLUESTORE; reflexivity.
  - unfold create_journal, create. simpl.
    destruct kstore_enabled; [reflexivity|]. simpl.
    destruct WITH_BLUESTORE; reflexivity.
Qed.

Lemma create_dispatches_on_type_witness :
  create_journal false 4 false "random" "/var/lib/ceph/osd" "/journal" 0 = None.
Proof.
  destruct (create_dispatches_on_type false 4 false "random" "/var/lib/ceph/osd"
              "/journal" 0) as (_ & _ & _ & _ & _ & H & _).
  - lia.
  - exact H.
Defined.

End StoreCreateFacts.
